(** * Mycorrhizal documentary scripts: the original logic, embedded and verified

    The repository drives an animation engine; the logic of its own is small:
    - [AdaptiveSubtitle.create_subtitle]: greedy word wrap (advanced_manim_doc.py);
    - [ProceduralHyphae]: recursive branch generation (advanced_manim_doc.py);
    - [DataVisualization.create_network_stats]: the efficiency figure;
    - [MycorrhizalDocumentary.generate_all_audio]: speech files (manim-documentary.py);
    - [DifficultyLevel], [EducationalScene]: metadata model (sciviz_core.py);
    - subtitle display, the time indicator, charts, particle systems, glow and
      blur layers, the stylized tree and the two recursive branch drawings
      (advanced_manim_doc.py, manim-documentary.py);
    - [NetworkTemplate] and the three network generators (sciviz_templates.py).

    Conventions of the embedding.
    - A Python [int] is a [Z].
    - A Python [float] is a rational [Q]: arithmetic is exact, rounding,
      infinities and NaN are not modelled.
    - A Python [str] that the code measures or splits is a list of Unicode
      code points ([PyStr.str]); a string that is only passed along (a path, a
      colour, a narration text handed to the speech service) is a [string].
    - Mutation of [self] and of the process-wide state (numpy's and Python's
      random generators, the file system) is explicit state passing. *)

From Stdlib Require Import ZArith QArith Qpower Qround Qabs String Ascii List Lia Lqa.
From Stdlib Require Import DecimalString DecimalZ.
From stdpp Require Import gmap strings list.

(** ** Python strings as sequences of code points *)

Module PyStr.

Definition char := N.
Definition str := list char.

(** [len(s)] *)
Definition len (s : str) : Z := Z.of_nat (length s).

(** A literal without characters outside ASCII. *)
Definition lit (s : string) : str :=
  map N_of_ascii (list_ascii_of_string s).

(** [c.isspace()] for one code point: CPython's table of whitespace
    (bidirectional type WS, B or S, or category Zs). *)
Definition isspace (c : char) : bool :=
  ((9 <=? c) && (c <=? 13) || (28 <=? c) && (c <=? 32)
   || (c =? 133) || (c =? 160) || (c =? 5760)
   || (8192 <=? c) && (c <=? 8202)
   || (c =? 8232) || (c =? 8233) || (c =? 8239) || (c =? 8287)
   || (c =? 12288))%N.

(** [s.split()] with no separator: the maximal runs of characters that are not
    whitespace, in order.  [cur] is the run being read. *)
Fixpoint split_from (cur : str) (s : str) : list str :=
  match s with
  | [] => match cur with [] => [] | _ :: _ => [cur] end
  | c :: s' =>
      if isspace c
      then match cur with
           | [] => split_from [] s'
           | _ :: _ => cur :: split_from [] s'
           end
      else split_from (cur ++ [c]) s'
  end.

Definition split (s : str) : list str := split_from [] s.

(** [sep.join(xs)] *)
Fixpoint join (sep : str) (xs : list str) : str :=
  match xs with
  | [] => []
  | [x] => x
  | x :: xs' => x ++ sep ++ join sep xs'
  end.

(** [int(x)] for a float: truncation toward zero. *)
Definition int (x : Q) : Z := Z.quot (Qnum x) (Z.pos (Qden x)).

End PyStr.

(** ** Python numbers, errors and formatting *)

Module PyNum.
Local Open Scope Q_scope.

(** The exceptions the modelled code can raise. *)
Inductive PyError := ValueError | ZeroDivisionError | KeyError | IndexError.

(** The outcome of a method that mutates [self] and may raise: the state
    reached, and the exception if one ended the call. *)
Inductive outcome (S : Type) :=
| Done (s : S)
| Raised (e : PyError) (s : S).
Arguments Done {S} s.
Arguments Raised {S} e s.

Definition Qltb (x y : Q) : bool := negb (Qle_bool y x).

(** [max(a, b)] and [min(a, b)] on numbers: the first argument unless the
    second is strictly larger (smaller). *)
Definition pymax (a b : Q) : Q := if Qltb a b then b else a.
Definition pymin (a b : Q) : Q := if Qltb b a then b else a.

(** [a // b] and [a % b] on floats, for a divisor that is not zero: the
    floor of the quotient, and the remainder that goes with it. *)
Definition floordiv (a b : Q) : Q := inject_Z (Qfloor (a / b)).
Definition pymod (a b : Q) : Q := a - b * floordiv a b.

(** [range(n)] *)
Definition range (n : Z) : list Z := map Z.of_nat (seq 0 (Z.to_nat n)).

(** [str(n)] and [f"{n}"] for an int: decimal digits, ["-"] before a
    negative number. *)
Definition str_of_int (n : Z) : string := NilZero.string_of_int (Z.to_int n).

(** [f"{n:02d}"]: at least two characters, padded with a zero. *)
Definition fmt_02d (n : Z) : string :=
  if ((0 <=? n) && (n <? 10))%Z then ("0" ++ str_of_int n)%string else str_of_int n.

End PyNum.

(** ** advanced_manim_doc.py: AdaptiveSubtitle *)

Module AdaptiveSubtitle.
Import PyStr.

(** The [Text] mobject of one line, as [create_subtitle] configures it. *)
Record Text := {
  text : str;
  font_size : Z;
  color : string;
  weight : string;
  font : string
}.

Definition space : str := lit " ".

(** [chars_per_line = int(max_width * 8.5)] *)
Definition chars_per_line (max_width : Q) : Z := int (max_width * (17 # 2))%Q.

(** One turn of [for word in words], on the pair [(lines, current_line)]. *)
Definition wrap_word (budget : Z) (st : list str * list str) (word : str)
  : list str * list str :=
  let '(lines, current_line) := st in
  let test_line := join space (current_line ++ [word]) in
  if (len test_line <=? budget)%Z
  then (lines, current_line ++ [word])
  else (match current_line with
        | [] => lines
        | _ :: _ => lines ++ [join space current_line]
        end, [word]).

(** The block under "Word wrap algorithm": the value of [lines] when the
    text objects are created. *)
Definition wrap_lines (text : str) (max_width : Q) : list str :=
  let words := split text in
  let '(lines, current_line) :=
    fold_left (wrap_word (chars_per_line max_width)) words ([], []) in
  match current_line with
  | [] => lines
  | _ :: _ => lines ++ [join space current_line]
  end.

(** [text_objects]: one [Text] per line.  The background rectangle and the
    gradient are built from these by the engine and carry no text. *)
Definition create_subtitle (text : str) (max_width : Q) (font_size : Z)
  : list Text :=
  map (fun line =>
         {| text := line; font_size := font_size; color := "#f0f4f8";
            weight := "MEDIUM"; font := "Helvetica" |})
      (wrap_lines text max_width).

(** A word: not empty, no whitespace in it. *)
Definition is_word (w : str) : Prop :=
  w <> [] /\ Forall (fun c => isspace c = false) w.

(** A line is acceptable for a budget when it fits, or is one word of the
    text that is itself longer than the budget. *)
Definition fits_or_single_word (budget : Z) (words : list str) (line : str) : Prop :=
  (len line <= budget)%Z \/ (In line words /\ (budget < len line)%Z).

(** *** display_subtitles *)






(** *** More on the lines of [create_subtitle] *)

(** Adjacent lines are as full as the greedy rule allows: the first word of
    the later line did not fit at the end of the earlier one. *)
Fixpoint greedy_lines (budget : Z) (lines : list str) : Prop :=
  match lines with
  | [] => True
  | l1 :: rest =>
      match rest with
      | [] => True
      | l2 :: _ =>
          (forall w ws, split l2 = w :: ws ->
                        (budget < len (l1 ++ space ++ w))%Z)
          /\ greedy_lines budget rest
      end
  end.

End AdaptiveSubtitle.

(** ** numpy.random: the legacy process-wide generator *)

Module NumpyRandom.
Local Open Scope Q_scope.

(** The generator's state: the stream of 53-bit integers it will produce
    next, and how many were consumed.  A double in [0, 1) is such an
    integer over 2^53. *)
Record RandomState := { draws : nat -> N; cursor : nat }.

Definition random_sample (g : RandomState) : Q * RandomState :=
  (inject_Z (Z.of_N (draws g (cursor g) mod 2 ^ 53)%N) / inject_Z (2 ^ 53)%Z,
   {| draws := draws g; cursor := S (cursor g) |}).

(** [np.random.random()] *)
Definition random : RandomState -> Q * RandomState := random_sample.

(** [np.random.uniform(low, high)]: [low + (high - low) * random_sample()] *)
Definition uniform (low high : Q) (g : RandomState) : Q * RandomState :=
  let '(u, g') := random_sample g in (low + (high - low) * u, g').

Definition Qltb (x y : Q) : bool := negb (Qle_bool y x).

Fixpoint cumsum_from (acc : Q) (p : list Q) : list Q :=
  match p with
  | [] => []
  | x :: p' => (acc + x) :: cumsum_from (acc + x) p'
  end.

(** [np.random.choice(a, p=p)]: the cumulative sums of [p], divided by the
    last one, are searched (side "right") for one sample; the index found is
    the number of entries that are at most the sample. *)
Definition choice (a : list Z) (p : list Q) (g : RandomState) : Z * RandomState :=
  let '(u, g') := random_sample g in
  let cdf := cumsum_from 0 p in
  let cdf := map (fun x => x / List.last cdf 1) cdf in
  let idx := length (List.filter (fun x => Qle_bool x u) cdf) in
  (nth idx a 0%Z, g').

(** [np.random.seed(seed)]: [ValueError] (here [None]) unless
    [0 <= seed < 2**32]; otherwise the stream restarts as the Mersenne
    Twister [mt19937] (not part of this repository) fixes it for the seed. *)
Definition seed (mt19937 : Z -> nat -> N) (s : Z) : option RandomState :=
  if ((0 <=? s) && (s <? 2 ^ 32))%Z
  then Some {| draws := mt19937 s; cursor := 0%nat |}
  else None.

End NumpyRandom.

(** ** advanced_manim_doc.py: ProceduralHyphae *)

Module ProceduralHyphae.
Import NumpyRandom.
Local Open Scope Q_scope.

(** A point, [np.array([x, y, z])]. *)
Record vec3 := { vx : Q; vy : Q; vz : Q }.

Definition vadd (a b : vec3) : vec3 :=
  {| vx := vx a + vx b; vy := vy a + vy b; vz := vz a + vz b |}.
Definition vsub (a b : vec3) : vec3 :=
  {| vx := vx a - vx b; vy := vy a - vy b; vz := vz a - vz b |}.
(** [k * v] and [v * k] *)
Definition smul (k : Q) (v : vec3) : vec3 :=
  {| vx := k * vx v; vy := k * vy v; vz := k * vz v |}.
Definition vmul (v : vec3) (k : Q) : vec3 :=
  {| vx := vx v * k; vy := vy v * k; vz := vz v * k |}.

Definition ORIGIN : vec3 := {| vx := 0; vy := 0; vz := 0 |}.

(** [CubicBezier(start_anchor, start_handle, end_handle, end_anchor)] after
    [set_stroke(color, width=..., opacity=...)]. *)
Record CubicBezier := {
  start_anchor : vec3;
  start_handle : vec3;
  end_handle : vec3;
  end_anchor : vec3;
  stroke_color : string;
  stroke_width : Q;
  stroke_opacity : Q
}.

(** The part of [self] that generation writes: the group's children
    ([self.add]) and [self.segments]. *)
Record Self := { submobjects : list CubicBezier; segments : list CubicBezier }.

Definition State : Type := RandomState * Self.

(** The arguments of one activation of [_generate_recursive]. *)
Record Call := {
  c_pos : vec3;
  c_angle : Q;
  c_depth : Z;
  c_length : Q;
  c_angle_var : Q;
  c_branch_prob : Q;
  c_color : string;
  c_width : Q;
  c_curvature : Q
}.

#[local] Set Warnings "-register-all".

(** What an activation did (not a value of the program): it returned at once,
    or it emitted one curve of length [segment_length] reaching [end_pos]
    and then made the activations [calls], in this order. *)
Inductive CallTree :=
| Returned (c : Call)
| Emitted (c : Call) (segment_length : Q) (end_pos : vec3)
          (curve : CubicBezier) (calls : list CallTree).

(** [for _ in range(n): body] over a state, collecting what each turn
    reports. *)
Fixpoint for_range {S T : Type} (n : nat) (body : S -> option (S * T)) (st : S)
  : option (S * list T) :=
  match n with
  | O => Some (st, [])
  | S n' =>
      match body st with
      | None => None
      | Some (st', t) =>
          match for_range n' body st' with
          | None => None
          | Some (st'', ts) => Some (st'', t :: ts)
          end
      end
  end.

(** The arguments an activation was made with. *)
Definition tree_call (t : CallTree) : Call :=
  match t with
  | Returned c => c
  | Emitted c _ _ _ _ => c
  end.

(** The curve an activation emitted itself, if any. *)
Definition tree_curve (t : CallTree) : option CubicBezier :=
  match t with
  | Returned _ => None
  | Emitted _ _ _ curve _ => Some curve
  end.

(** The curves of an activation and of all it caused, in emission order. *)
Fixpoint tree_curves (t : CallTree) : list CubicBezier :=
  match t with
  | Returned _ => []
  | Emitted _ _ _ curve calls => curve :: flat_map tree_curves calls
  end.

(** The lengths drawn for those curves, in the same order. *)
Fixpoint tree_lengths (t : CallTree) : list Q :=
  match t with
  | Returned _ => []
  | Emitted _ len _ _ calls => len :: flat_map tree_lengths calls
  end.

(** [subtree s t]: [s] is an activation within [t] ([t] included). *)
Inductive subtree (s : CallTree) : CallTree -> Prop :=
| subtree_here : subtree s s
| subtree_below c len e curve calls t :
    In t calls -> subtree s t -> subtree s (Emitted c len e curve calls).

(** Every recursive call is made one level lower, and only above level 0. *)
Definition node_depth_step (t : CallTree) : Prop :=
  match t with
  | Returned c => (c_depth c <= 0)%Z
  | Emitted c _ _ _ calls =>
      (0 < c_depth c)%Z
      /\ Forall (fun t' => c_depth (tree_call t') = (c_depth c - 1)%Z) calls
  end.

(** Each curve starts where its activation was told to start, and each call
    made starts where that curve ends. *)
Definition node_linked (t : CallTree) : Prop :=
  match t with
  | Returned _ => True
  | Emitted c _ e curve calls =>
      start_anchor curve = c_pos c
      /\ end_anchor curve = e
      /\ Forall (fun t' =>
                   c_pos (tree_call t') = end_anchor curve
                   /\ forall curve', tree_curve t' = Some curve' ->
                                     start_anchor curve' = end_anchor curve)
                calls
  end.

(** The algorithm at one activation: above level 0 one curve, of the stroke
    width and (up to the jitter drawn) the length of its level, and then one
    to three calls one level lower: a single continuation, or (only above
    level 1) a fork whose calls get 0.85 of the branching probability;
    nothing at level 0 or below. *)
Definition node_follows_algorithm (t : CallTree) : Prop :=
  match t with
  | Returned c => (c_depth c <= 0)%Z
  | Emitted c len _ curve calls =>
      (0 < c_depth c)%Z
      /\ (exists jitter, (85 # 100) <= jitter /\ jitter < (115 # 100)
                         /\ len = c_length c * ((8 # 10) ^ (6 - c_depth c)) * jitter)
      /\ stroke_width curve = c_width c * ((85 # 100) ^ (6 - c_depth c))
      /\ (1 <= length calls <= 3)%nat
      /\ Forall (fun t' => c_depth (tree_call t') = (c_depth c - 1)%Z
                           /\ c_length (tree_call t') = c_length c
                           /\ c_width (tree_call t') = c_width c) calls
      /\ ((* a single continuation *)
          (length calls = 1%nat
           /\ Forall (fun t' => c_branch_prob (tree_call t') = c_branch_prob c) calls)
          \/ (* a fork, only above level 1 *)
          ((1 < c_depth c)%Z
           /\ Forall (fun t' => c_branch_prob (tree_call t')
                                = c_branch_prob c * (85 # 100)) calls))
  end.

(** A reading of "length decreases by a fixed decay factor per level": each
    call that emits a curve makes it [factor] times as long as its caller's. *)
Definition node_decays (factor : Q) (t : CallTree) : Prop :=
  match t with
  | Returned _ => True
  | Emitted _ len _ _ calls =>
      Forall (fun t' => match t' with
                        | Returned _ => True
                        | Emitted _ len' _ _ _ => len' == factor * len
                        end) calls
  end.

Section Generation.
(** [np.cos], [np.sin] and [PI] are the engine's. *)
Variables (cos sin : Q -> Q) (PI : Q).

Definition direction (a : Q) : vec3 := {| vx := cos a; vy := sin a; vz := 0 |}.

(** [None] only when [fuel] runs out; see [generate_recursive_total]. *)
Fixpoint _generate_recursive (fuel : nat) (c : Call) (st : State) {struct fuel}
  : option (State * CallTree) :=
  match fuel with
  | O => None
  | S fuel' =>
      if (c_depth c <=? 0)%Z then Some (st, Returned c) else
      let '(g, self) := st in
      let '(jitter, g) := uniform (85 # 100) (115 # 100) g in
      let segment_length :=
        c_length c * ((8 # 10) ^ (6 - c_depth c)) * jitter in
      let '(da, g) :=
        uniform (- c_angle_var c * (3 # 10)) (c_angle_var c * (3 # 10)) g in
      let current_angle := c_angle c + da in
      let end_pos := vadd (c_pos c) (smul segment_length (direction current_angle)) in
      let control_offset := segment_length * c_curvature c in
      let '(dc, g) := uniform (- PI / 8) (PI / 8) g in
      let control_angle := current_angle + dc in
      let control1 :=
        vadd (vadd (c_pos c) (vmul (vsub end_pos (c_pos c)) (33 # 100)))
             (smul control_offset (direction control_angle)) in
      let control2 :=
        vadd (vadd (c_pos c) (vmul (vsub end_pos (c_pos c)) (67 # 100)))
             (smul control_offset (direction (control_angle + PI))) in
      let curve :=
        {| start_anchor := c_pos c; start_handle := control1;
           end_handle := control2; end_anchor := end_pos;
           stroke_color := c_color c;
           stroke_width := c_width c * ((85 # 100) ^ (6 - c_depth c));
           stroke_opacity := 9 # 10 |} in
      let self := {| submobjects := submobjects self ++ [curve];
                     segments := segments self ++ [curve] |} in
      let '(r, g) := random g in
      if Qltb r (c_branch_prob c) && (1 <? c_depth c)%Z
      then
        let '(num_branches, g) :=
          choice [1; 2; 3]%Z [3 # 10; 55 # 100; 15 # 100] g in
        match
          for_range (Z.to_nat num_branches)
            (fun st : State =>
               let '(g, self) := st in
               let '(db, g) := uniform (- c_angle_var c) (c_angle_var c) g in
               let branch_angle := current_angle + db in
               _generate_recursive fuel'
                 {| c_pos := end_pos; c_angle := branch_angle;
                    c_depth := c_depth c - 1; c_length := c_length c;
                    c_angle_var := c_angle_var c;
                    c_branch_prob := c_branch_prob c * (85 # 100);
                    c_color := c_color c; c_width := c_width c;
                    c_curvature := c_curvature c |} (g, self))
            (g, self)
        with
        | None => None
        | Some (st', calls) =>
            Some (st', Emitted c segment_length end_pos curve calls)
        end
      else
        match
          _generate_recursive fuel'
            {| c_pos := end_pos; c_angle := current_angle;
               c_depth := c_depth c - 1; c_length := c_length c;
               c_angle_var := c_angle_var c;
               c_branch_prob := c_branch_prob c;
               c_color := c_color c; c_width := c_width c;
               c_curvature := c_curvature c |} (g, self)
        with
        | None => None
        | Some (st', t) =>
            Some (st', Emitted c segment_length end_pos curve [t])
        end
  end.

(** The curve of one activation: from its start, a chord of the drawn
    length at the call's angle, turned by a draw of at most 0.3 of the
    angle variation; its handles at 0.33 and 0.67 of the chord, pushed to
    opposite sides by [segment_length * curvature] at the chord's angle
    turned by a draw of at most [PI / 8]; the call's colour, at opacity
    0.9. *)
Definition node_curve (t : CallTree) : Prop :=
  match t with
  | Returned _ => True
  | Emitted c len _ curve _ =>
      exists da dc,
        Qabs da <= Qabs (c_angle_var c) * (3 # 10)
        /\ Qabs dc <= Qabs PI / 8
        /\ end_anchor curve
           = vadd (start_anchor curve) (smul len (direction (c_angle c + da)))
        /\ start_handle curve
           = vadd (vadd (start_anchor curve)
                        (vmul (vsub (end_anchor curve) (start_anchor curve))
                              (33 # 100)))
                  (smul (len * c_curvature c)
                        (direction (c_angle c + da + dc)))
        /\ end_handle curve
           = vadd (vadd (start_anchor curve)
                        (vmul (vsub (end_anchor curve) (start_anchor curve))
                              (67 # 100)))
                  (smul (len * c_curvature c)
                        (direction (c_angle c + da + dc + PI)))
        /\ stroke_color curve = c_color c
        /\ stroke_opacity curve = 9 # 10
  end.

(** The constructed object. *)
Record Hyphae := {
  h_submobjects : list CubicBezier;
  h_segments : list CubicBezier;
  growth_order : list nat
}.

Variable mt19937 : Z -> nat -> N.

(** [ProceduralHyphae(start, depth, ..., seed)], run while the process-wide
    generator is [g].  [color=None] selects [PALETTE["fungal"]].
    [random.seed(seed)] reseeds Python's own generator, which nothing here
    reads.  [None] is the [ValueError] of [np.random.seed]. *)
Definition __init__ (g : RandomState) (start : vec3) (depth : Z) (length : Q)
    (angle_variance branch_probability : Q) (color : option string)
    (stroke_width curvature : Q) (seed : option Z)
  : option (RandomState * Hyphae * CallTree) :=
  let color := match color with None => "#1dd3b0"%string | Some c => c end in
  match (match seed with
         | Some s => NumpyRandom.seed mt19937 s
         | None => Some g
         end) with
  | None => None
  | Some g =>
      match
        _generate_recursive (S (Z.to_nat depth))
          {| c_pos := start; c_angle := - PI / 2; c_depth := depth;
             c_length := length; c_angle_var := angle_variance;
             c_branch_prob := branch_probability; c_color := color;
             c_width := stroke_width; c_curvature := curvature |}
          (g, {| submobjects := []; segments := [] |})
      with
      | None => None
      | Some ((g', self), t) =>
          Some (g',
                {| h_submobjects := submobjects self;
                   h_segments := segments self;
                   growth_order := seq 0%nat (List.length (segments self)) |},
                t)
      end
  end.

End Generation.

(** Two constructions in a row with the same arguments and no seed: the
    second starts from the generator state the first left. *)
Definition construct_twice (cos sin : Q -> Q) (PI : Q) (mt19937 : Z -> nat -> N)
    (g : RandomState) (start : vec3) (depth : Z) (length : Q)
    (angle_variance branch_probability : Q) (color : option string)
    (stroke_width curvature : Q)
  : option (Hyphae * Hyphae) :=
  match __init__ cos sin PI mt19937 g start depth length angle_variance
                 branch_probability color stroke_width curvature None with
  | None => None
  | Some (g', first, _) =>
      match __init__ cos sin PI mt19937 g' start depth length angle_variance
                     branch_probability color stroke_width curvature None with
      | None => None
      | Some (_, second, _) => Some (first, second)
      end
  end.

(** *** Sample inputs *)

Definition empty_self : Self := {| submobjects := []; segments := [] |}.

(** A generator whose draws are all 0, except the draw numbered [k],
    which is [x] (over 2^53). *)
Definition draws_zero_but (k : nat) (x : N) : RandomState :=
  {| draws := fun n => if Nat.eqb n k then x else 0%N; cursor := 0%nat |}.

(** Two levels, never forking. *)
Definition straight_call : Call :=
  {| c_pos := ORIGIN; c_angle := 0; c_depth := 2; c_length := 1;
     c_angle_var := 1; c_branch_prob := 0; c_color := "#1dd3b0";
     c_width := 25 # 10; c_curvature := 15 # 100 |}.

End ProceduralHyphae.

(** ** advanced_manim_doc.py: DataVisualization *)

Module DataVisualization.
Local Open Scope Q_scope.

(** Python's [/] on numbers: [ZeroDivisionError] (here [None]) when the
    divisor is zero. *)
Definition truediv (a b : Q) : option Q :=
  if Qeq_bool b 0 then None else Some (a / b).

(** [node_count * (node_count - 1) / 2], what [edge_count] is divided by. *)
Definition divisor (node_count : Z) : option Q :=
  truediv (inject_Z (node_count * (node_count - 1))) 2.

(** [efficiency = (edge_count / (node_count * (node_count - 1) / 2)) * 100] *)
Definition efficiency (node_count edge_count : Z) : option Q :=
  match divisor node_count with
  | None => None
  | Some d =>
      match truediv (inject_Z edge_count) d with
      | None => None
      | Some r => Some (r * 100)
      end
  end.

(** The three statistics [create_network_stats] displays: the node count,
    the edge count and the efficiency (formatted by the engine). *)
Definition create_network_stats (node_count edge_count : Z) : option (Z * Z * Q) :=
  match efficiency node_count edge_count with
  | None => None
  | Some e => Some (node_count, edge_count, e)
  end.

(** *** create_animated_chart *)

(** One bar group: the rectangle, its label, its value label and the shift
    to the right applied to the group. *)
Record Bar := {
  bar_width : Q;
  bar_height : Q;
  bar_color : string;
  bar_label : string;
  bar_value : Q;
  bar_shift : Q
}.

(** [max(values)]: [ValueError] on an empty sequence. *)
Fixpoint pymax_list (values : list Q) : option Q :=
  match values with
  | [] => None
  | v :: rest =>
      match pymax_list rest with
      | None => Some v
      | Some m => Some (PyNum.pymax v m)
      end
  end.

(** One turn of [for i, (label, value) in enumerate(data.items())]. *)
Definition chart_bar (max_val : Q) (colors : list string) (n : nat)
    (i : nat) (item : string * Q) : PyNum.PyError + Bar :=
  let '(label, value) := item in
  match truediv value max_val with
  | None => inl PyNum.ZeroDivisionError
  | Some r =>
      let bar_height := r * 3 in
      match colors with
      | [] => inl PyNum.ZeroDivisionError
      | c0 :: _ =>
          let color := nth (i mod length colors)%nat colors c0 in
          inr {| bar_width := 6 # 10; bar_height := bar_height;
                 bar_color := color; bar_label := label; bar_value := value;
                 bar_shift :=
                   (inject_Z (Z.of_nat i) - inject_Z (Z.of_nat n) / 2) * 1 |}
      end
  end.

Fixpoint chart_bars (max_val : Q) (colors : list string) (n : nat)
    (i : nat) (items : list (string * Q)) : PyNum.PyError + list Bar :=
  match items with
  | [] => inr []
  | item :: rest =>
      match chart_bar max_val colors n i item with
      | inl e => inl e
      | inr b =>
          match chart_bars max_val colors n (S i) rest with
          | inl e => inl e
          | inr bs => inr (b :: bs)
          end
      end
  end.

(** [create_animated_chart(data, chart_type, colors)]: [data] is the dict's
    items in order; [colors=None] selects the three palette colours. *)
Definition create_animated_chart (data : list (string * Q)) (chart_type : string)
    (colors : option (list string)) : PyNum.PyError + list Bar :=
  let colors := match colors with
                | None => ["#1dd3b0"; "#2d7a4a"; "#ffcb47"]%string
                | Some cs => cs
                end in
  if String.eqb chart_type "bar"
  then match pymax_list (map snd data) with
       | None => inl PyNum.ValueError
       | Some max_val => chart_bars max_val colors (length data) 0 data
       end
  else inr [].

End DataVisualization.

(** ** advanced_manim_doc.py: PerformanceOptimizer *)

Module PerformanceOptimizer.

(** [get_particle_count(base_count)], for the module's setting
    [PARTICLE_DENSITY] (["high"] as shipped; the usage guide has it edited). *)
Definition get_particle_count (PARTICLE_DENSITY : string) (base_count : Z) : Z :=
  if String.eqb PARTICLE_DENSITY "low" then Z.max 5 (base_count / 3)
  else if String.eqb PARTICLE_DENSITY "medium" then Z.max 8 (base_count / 2)
  else base_count.

End PerformanceOptimizer.

(** ** advanced_manim_doc.py: TimeIndicator *)

Module TimeIndicator.
Import PyNum.
Local Open Scope Q_scope.

Record TimeIndicator := {
  total_duration : Q;
  current_time : Q;
  bar_bg_width : Q;
  bar_fill_width : Q;
  bar_fill_height : Q;
  time_text : string
}.

Definition __init__ (total_duration : Q) : TimeIndicator :=
  {| total_duration := total_duration; current_time := 0;
     bar_bg_width := 12; bar_fill_width := 0; bar_fill_height := 15 # 100;
     time_text := "0:00 / 30:00" |}.

(** [int(t // 60)] and [int(t % 60)]. *)
Definition clock (t : Q) : Z * Z :=
  (PyStr.int (floordiv t 60), PyStr.int (pymod t 60)).

(** [f"{minutes}:{seconds:02d}"] *)
Definition clock_text (c : Z * Z) : string :=
  (str_of_int (fst c) ++ ":" ++ fmt_02d (snd c))%string.

(** The engine's [mobject.width = value], on a mobject of the given width
    and height: the mobject is scaled about its centre, in every direction,
    by [value / width], and one of width 0 is left as it is.  The width and
    height after it. *)
Definition set_width (width height value : Q) : Q * Q :=
  if Qeq_bool width 0 then (width, height)
  else (width * Qabs (value / width), height * Qabs (value / width)).

(** [update_progress(current_time)]: [self.current_time] is stored before
    the division that raises when [total_duration] is zero. *)
Definition update_progress (self : TimeIndicator) (current_time : Q)
  : outcome TimeIndicator :=
  let self := {| total_duration := total_duration self;
                 current_time := current_time;
                 bar_bg_width := bar_bg_width self;
                 bar_fill_width := bar_fill_width self;
                 bar_fill_height := bar_fill_height self;
                 time_text := time_text self |} in
  if Qeq_bool (total_duration self) 0 then Raised ZeroDivisionError self
  else
    let progress := pymin (current_time / total_duration self) 1 in
    let new_width := bar_bg_width self * progress in
    let bar_fill :=
      set_width (bar_fill_width self) (bar_fill_height self) new_width in
    let time_str :=
      (clock_text (clock current_time) ++ " / "
       ++ clock_text (clock (total_duration self)))%string in
    Done {| total_duration := total_duration self;
            current_time := current_time;
            bar_bg_width := bar_bg_width self;
            bar_fill_width := fst bar_fill;
            bar_fill_height := snd bar_fill;
            time_text := time_str |}.

End TimeIndicator.

(** ** advanced_manim_doc.py: AdvancedParticleSystem *)

Module AdvancedParticleSystem.
Import NumpyRandom PyNum.
Local Open Scope Q_scope.

(** A particle: the proportion [alpha] of the path where it starts, its dot,
    and whether a glow circle is grouped with it. *)
Record Particle := {
  alpha : Q;
  p_radius : Q;
  p_color : string;
  p_glow : bool
}.

Record ParticleSystem := {
  particles : list Particle;
  speeds : list Q
}.

(** [[1 + np.random.uniform(-v, v) for _ in range(count)]] *)
Fixpoint draw_speeds (n : nat) (speed_variance : Q) (g : RandomState)
  : list Q * RandomState :=
  match n with
  | O => ([], g)
  | S n' =>
      let '(d, g) := uniform (- speed_variance) speed_variance g in
      let '(rest, g) := draw_speeds n' speed_variance g in
      ((1 + d) :: rest, g)
  end.

(** [AdvancedParticleSystem(path, count, color, radius, speed_variance, glow)];
    [color=None] selects [PALETTE["nutrient"]]. *)
Definition __init__ (g : RandomState) (count : Z) (color : option string)
    (radius speed_variance : Q) (glow : bool) : ParticleSystem * RandomState :=
  let color := match color with None => "#ffcb47"%string | Some c => c end in
  let particles :=
    map (fun i : Z =>
           {| alpha := (inject_Z i / inject_Z count) * (3 # 10);
              p_radius := radius; p_color := color; p_glow := glow |})
        (range count) in
  let '(speeds, g) := draw_speeds (Z.to_nat count) speed_variance g in
  ({| particles := particles; speeds := speeds |}, g).

(** [MoveAlongPath(p, self.path, run_time=..., rate_func=smooth)]: which
    particle, which of its parts, and the run time.  The engine refuses a
    negative run time with [ValueError]. *)
Inductive Part := GlowCircle | Dot.
Record MoveAlongPath := {
  particle_index : nat;
  part : Part;
  run_time : Q
}.

Definition move_along_path (i : nat) (p : Part) (run_time : Q)
  : PyError + MoveAlongPath :=
  if Qltb run_time 0 then inl ValueError
  else inr {| particle_index := i; part := p; run_time := run_time |}.

(** The animations of one particle: of the glow circle and of the dot when
    the particle is a group, of the dot alone otherwise. *)
Definition particle_animations (i : nat) (p : Particle) (adjusted_runtime : Q)
  : PyError + list MoveAlongPath :=
  if p_glow p
  then
    match move_along_path i GlowCircle adjusted_runtime with
    | inl e => inl e
    | inr a1 =>
        match move_along_path i Dot adjusted_runtime with
        | inl e => inl e
        | inr a2 => inr [a1; a2]
        end
    end
  else
    match move_along_path i Dot adjusted_runtime with
    | inl e => inl e
    | inr a => inr [a]
    end.

(** [create_flow_animation(run_time)].  The [delay] the loop computes for
    each particle is not used by it. *)
Fixpoint flow_from (i : nat) (run_time : Q) (ps : list Particle) (ss : list Q)
  : PyError + list MoveAlongPath :=
  match ps, ss with
  | p :: ps', speed_mod :: ss' =>
      let adjusted_runtime := run_time * speed_mod in
      match particle_animations i p adjusted_runtime with
      | inl e => inl e
      | inr anims =>
          match flow_from (S i) run_time ps' ss' with
          | inl e => inl e
          | inr rest => inr (anims ++ rest)
          end
      end
  | _, _ => inr []
  end.

Definition create_flow_animation (self : ParticleSystem) (run_time : Q)
  : PyError + list MoveAlongPath :=
  flow_from 0 run_time (particles self) (speeds self).

End AdvancedParticleSystem.

(** ** manim-documentary.py: MycorrhizalDocumentary.generate_all_audio *)

Module MycorrhizalDocumentary.
Local Open Scope string_scope.

(** A speech request, [gTTS(text=..., lang=..., tld=..., slow=...)]; the
    audio it yields is determined by the request. *)
Record gTTS := { tts_text : string; lang : string; tld : string; slow : bool }.

Inductive Content :=
| Speech (request : gTTS)
| Other (bytes : string).

(** What the routine touches of the process's surroundings: directories and
    files by path, the lines printed, and the paths given to [tts.save], in
    order. *)
Record World := {
  dirs : gset string;
  files : gmap string Content;
  stdout : list string;
  saved : list string
}.

(** [os.path.exists(path)] *)
Definition exists_ (w : World) (path : string) : bool :=
  bool_decide (path ∈ dirs w) || bool_decide (is_Some (files w !! path)).

(** [os.makedirs(path, exist_ok=True)] for a single-component path:
    [FileExistsError] (here [None]) when a file has that name. *)
Definition makedirs (path : string) (w : World) : option World :=
  match files w !! path with
  | Some _ => None
  | None => Some {| dirs := {[ path ]} ∪ dirs w; files := files w;
                    stdout := stdout w; saved := saved w |}
  end.

Definition print (line : string) (w : World) : World :=
  {| dirs := dirs w; files := files w; stdout := stdout w ++ [line];
     saved := saved w |}.

(** [tts.save(path)], of a save that succeeds: the speech service answers
    and the file is written.  A save that fails raises, and the call that
    made it does not return; such a call is no run of this model. *)
Definition save (tts : gTTS) (path : string) (w : World) : World :=
  {| dirs := dirs w; files := <[ path := Speech tts ]> (files w);
     stdout := stdout w; saved := saved w ++ [path] |}.

Definition segments : list (string * string) :=
  [
    ("In the cathedral silence of an old-growth forest, a secret conversation unfolds. Not in the rustling canopy above, but in the darkness beneath our feet. Here, in the soil, an ancient partnership sustains the very lungs of our planet.",
     "01_opening");
    ("These are mycorrhizal fungi—from the Greek 'mykes' meaning fungus, and 'rhiza' meaning root. For over four hundred million years, since plants first colonized land, this alliance has shaped terrestrial ecosystems. Today, ninety percent of all land plants depend upon it.",
     "02_intro");
    ("The fungal partner extends thread-like hyphae—structures so fine that a single gram of forest soil may contain several kilometers of them. These hyphae colonize plant roots, but they don't simply attach. They integrate. In ectomycorrhizae, they form a sheath around root tips and penetrate between cortical cells. In endomycorrhizae, they actually breach the cell wall, though never the cell membrane itself.",
     "03_colonization");
    ("What drives this intimacy? Economics. The tree, through photosynthesis, is a factory of carbohydrates. Sugars flow from leaves to roots, and from roots to fungi—up to thirty percent of all photosynthate produced by the tree. This is not charity. This is commerce.",
     "04_carbon");
    ("In exchange, the fungus offers what the tree cannot easily obtain: reach. While root hairs might extend mere millimeters into soil, fungal hyphae venture centimeters, even meters beyond. Their surface area for absorption exceeds that of roots by a factor of one hundred or more. They mine the soil for phosphorus—often locked in insoluble compounds—and nitrogen, and deliver water during drought.",
     "05_nutrients");
    ("But the network doesn't stop at a single tree. Mycorrhizal fungi are rarely monogamous. A single fungal individual may connect to multiple trees, even different species. And a single tree may host dozens of fungal partners. What emerges is a common mycorrhizal network—what some researchers have termed the 'wood wide web.'",
     "06_network");
    ("Through these networks, resources move between trees. Older 'mother trees,' with deeper roots and established fungal partnerships, have been shown to transfer carbon to younger seedlings in their shadow—seedlings that cannot yet photosynthesize enough to survive alone. It's not altruism in the human sense, but it functions as such.",
     "07_transfer");
    ("The network carries more than nutrients. When a tree is attacked by insects, it produces defense chemicals. But it also sends signals through the mycorrhizal network—chemical warnings that prompt neighboring trees to elevate their own defenses before they're touched. The forest, it seems, has an immune system.",
     "08_defense");
    ("Yet this partnership is not without its darker aspects. Some plants have lost their chlorophyll entirely, becoming mycoheterotrophs—parasites on the network, taking carbon without contributing. And certain fungi, in times of scarcity, may extract more from their hosts than they provide. Symbiosis exists on a continuum between mutualism and exploitation.",
     "09_complexity");
    ("As we stand in the forest, it's worth remembering: we're not looking at individuals. We're looking at a superorganism—a distributed intelligence where tree and fungus are as interconnected as neurons in a brain. Every footstep falls upon billions of transactions, an economy far older than our own, operating on principles we're only beginning to decode.",
     "10_conclusion");
    ("The forests we see are merely the fruiting bodies of a deeper collaboration. And in protecting them, we protect not trees alone, but the ancient covenant that made the green world possible.",
     "11_closing")
  ].

(** [f"audio/segment_{filename}.mp3"] *)
Definition audio_path (filename : string) : string :=
  "audio/segment_" ++ filename ++ ".mp3".

(** One turn of [for text, filename in segments]. *)
Definition generate_audio (w : World) (segment : string * string) : World :=
  let '(text, filename) := segment in
  let audio_path := audio_path filename in
  if negb (exists_ w audio_path)
  then
    let w := print ("Generating audio: " ++ filename) w in
    let tts := {| tts_text := text; lang := "en"; tld := "co.uk"; slow := false |} in
    save tts audio_path w
  else w.

(** [generate_all_audio()], when every save it makes succeeds: [None] is the
    [FileExistsError] of [os.makedirs]. *)
Definition generate_all_audio (w : World) : option World :=
  match makedirs "audio" w with
  | None => None
  | Some w => Some (fold_left generate_audio segments w)
  end.

(** [add_voiceover(filename)], on the scene's sounds: the file is added when
    it exists, and nothing happens otherwise. *)
Definition add_voiceover (w : World) (sounds : list string) (filename : string)
  : list string :=
  let audio_path := audio_path filename in
  if exists_ w audio_path then (sounds ++ [audio_path])%list else sounds.

End MycorrhizalDocumentary.

(** ** sciviz_core.py: the enumerations *)

(** [seq[i]] for a Python list: a negative index counts from the end;
    [IndexError] is [None]. *)
Definition getitem {A : Type} (l : list A) (i : Z) : option A :=
  let n := Z.of_nat (length l) in
  if (i <? - n)%Z || (n <=? i)%Z then None
  else l !! Z.to_nat (if (i <? 0)%Z then i + n else i)%Z.

Module BloomLevel.
Inductive t := REMEMBER | UNDERSTAND | APPLY | ANALYZE | EVALUATE | CREATE.
End BloomLevel.

Module DifficultyLevel.

Inductive t := BEGINNER | INTERMEDIATE | ADVANCED | EXPERT.

Definition value (l : t) : Z :=
  match l with
  | BEGINNER => 1 | INTERMEDIATE => 2 | ADVANCED => 3 | EXPERT => 4
  end.

Definition eqb (a b : t) : bool := (value a =? value b)%Z.

(** [list(DifficultyLevel)]: the members in definition order. *)
Definition members : list t := [BEGINNER; INTERMEDIATE; ADVANCED; EXPERT].

(** [l.index(x)]: the first position holding [x]; [ValueError] is [None]. *)
Fixpoint index (x : t) (l : list t) : option Z :=
  match l with
  | [] => None
  | y :: l' => if eqb y x then Some 0%Z
               else match index x l' with
                    | None => None
                    | Some i => Some (i + 1)%Z
                    end
  end.

Definition next (self : t) : option t :=
  match index self members with
  | None => None
  | Some idx => getitem members (Z.min (idx + 1) (Z.of_nat (length members) - 1))
  end.

Definition previous (self : t) : option t :=
  match index self members with
  | None => None
  | Some idx => getitem members (Z.max (idx - 1) 0)
  end.

End DifficultyLevel.

Module InteractionType.
Inductive t := SLIDER | BUTTON | TOGGLE | INPUT | DROPDOWN | CANVAS.
End InteractionType.

(** ** sciviz_core.py: the metadata records and EducationalScene *)

Module Edu.

(** A value of type [Any]. *)
Inductive PyValue :=
| PyNone
| PyBool (b : bool)
| PyInt (n : Z)
| PyFloat (x : Q)
| PyString (s : string).

Record LearningObjective := {
  lo_id : string;
  lo_description : string;
  lo_bloom_level : BloomLevel.t;
  lo_assessment_method : string;
  lo_success_criteria : gmap string PyValue;
  lo_tags : list string
}.

Record Concept := {
  co_id : string;
  co_name : string;
  co_definition : string;
  co_examples : list string;
  co_prerequisites : list string;
  co_related : list string;
  co_difficulty : DifficultyLevel.t;
  co_bloom_level : BloomLevel.t
}.

Record InteractiveElement := {
  ie_id : string;
  ie_type : InteractionType.t;
  ie_label : string;
  ie_target : string;
  ie_range : option (Q * Q);
  ie_default : PyValue;
  ie_callback : option string;
  ie_learning_hook : option string;
  ie_description : string
}.

Record Question := {
  q_id : string;
  q_text : string;
  q_type : string;
  q_options : option (list string);
  q_correct_answer : PyValue;
  q_points : Z;
  q_explanation : string
}.

Record AssessmentCheckpoint := {
  ac_timestamp : Q;
  ac_question : Question;
  ac_feedback_correct : string;
  ac_feedback_incorrect : string;
  ac_hints : list string;
  ac_related_concepts : list string
}.

Record NarrativeSegment := {
  ns_start_time : Q;
  ns_end_time : Q;
  ns_text : string;
  ns_position : string;
  ns_style : gmap string PyValue
}.

(** [self.export_data] *)
Record ExportData := {
  ed_metadata : gmap string PyValue;
  ed_timeline : list PyValue;
  ed_interactions : list PyValue;
  ed_assessments : list PyValue
}.

(** A [callback] argument: a callable (known by its [__name__]), or
    whatever else was passed (a method name, or [None]). *)
Inductive Callback :=
| Callable (__name__ : string)
| NotCallable (value : option string).

(** [callback.__name__ if callable(callback) else callback] *)
Definition callback_name (callback : Callback) : option string :=
  match callback with
  | Callable name => Some name
  | NotCallable value => value
  end.

(** [label or name] *)
Definition label_or (label name : string) : string :=
  match label with
  | EmptyString => name
  | _ => label
  end.

(** [xs or []] for an optional list. *)
Definition list_or_empty {A : Type} (xs : option (list A)) : list A :=
  match xs with
  | None => []
  | Some l => l
  end.

Section Scene.
(** The state of the engine's [Scene] base class, and a subtitle mobject. *)
Variables (Engine Mobject : Type).

Record EducationalScene := {
  engine : Engine;
  scene_id : string;
  title : string;
  description : string;
  duration : Q;
  objectives : list LearningObjective;
  concepts : list Concept;
  prerequisites : list string;
  difficulty : DifficultyLevel.t;
  interactions : list InteractiveElement;
  interactive_state : gmap string PyValue;
  assessments : list AssessmentCheckpoint;
  quiz_results : gmap string bool;
  narrative : list NarrativeSegment;
  current_subtitle : option Mobject;
  export_data : ExportData
}.

(** [__init__], after the base class built [base]; [class_name] is
    [self.__class__.__name__]. *)
Definition __init__ (base : Engine) (class_name : string) : EducationalScene :=
  {| engine := base; scene_id := class_name; title := ""; description := "";
     duration := 0;
     objectives := []; concepts := []; prerequisites := [];
     difficulty := DifficultyLevel.INTERMEDIATE;
     interactions := []; interactive_state := ∅;
     assessments := []; quiz_results := ∅;
     narrative := []; current_subtitle := None;
     export_data := {| ed_metadata := ∅; ed_timeline := [];
                       ed_interactions := []; ed_assessments := [] |} |}.

(** Each method returns the scene after the call and the method's result. *)
Definition add_objective (self : EducationalScene) (objective : LearningObjective)
  : EducationalScene * LearningObjective :=
  ({| engine := engine self; scene_id := scene_id self; title := title self;
      description := description self; duration := duration self;
      objectives := objectives self ++ [objective];
      concepts := concepts self; prerequisites := prerequisites self;
      difficulty := difficulty self; interactions := interactions self;
      interactive_state := interactive_state self;
      assessments := assessments self; quiz_results := quiz_results self;
      narrative := narrative self; current_subtitle := current_subtitle self;
      export_data := export_data self |}, objective).

Definition add_concept (self : EducationalScene) (concept : Concept)
  : EducationalScene * Concept :=
  ({| engine := engine self; scene_id := scene_id self; title := title self;
      description := description self; duration := duration self;
      objectives := objectives self;
      concepts := concepts self ++ [concept];
      prerequisites := prerequisites self;
      difficulty := difficulty self; interactions := interactions self;
      interactive_state := interactive_state self;
      assessments := assessments self; quiz_results := quiz_results self;
      narrative := narrative self; current_subtitle := current_subtitle self;
      export_data := export_data self |}, concept).

(** [add_prerequisite] has no [return]: its result is [None], here [tt]. *)
Definition add_prerequisite (self : EducationalScene) (prereq_id : string)
  : EducationalScene * unit :=
  ({| engine := engine self; scene_id := scene_id self; title := title self;
      description := description self; duration := duration self;
      objectives := objectives self; concepts := concepts self;
      prerequisites := prerequisites self ++ [prereq_id];
      difficulty := difficulty self; interactions := interactions self;
      interactive_state := interactive_state self;
      assessments := assessments self; quiz_results := quiz_results self;
      narrative := narrative self; current_subtitle := current_subtitle self;
      export_data := export_data self |}, tt).

(** The fields other than the three metadata lists. *)
Definition same_elsewhere (s s' : EducationalScene) : Prop :=
  engine s' = engine s
  /\ scene_id s' = scene_id s
  /\ title s' = title s
  /\ description s' = description s
  /\ duration s' = duration s
  /\ difficulty s' = difficulty s
  /\ interactions s' = interactions s
  /\ interactive_state s' = interactive_state s
  /\ assessments s' = assessments s
  /\ quiz_results s' = quiz_results s
  /\ narrative s' = narrative s
  /\ current_subtitle s' = current_subtitle s
  /\ export_data s' = export_data s.

(** A script of metadata additions, as a scene's [construct] makes them. *)
Inductive AddOp :=
| AddObjective (objective : LearningObjective)
| AddConcept (concept : Concept)
| AddPrerequisite (prereq_id : string).

Definition run_add (self : EducationalScene) (op : AddOp) : EducationalScene :=
  match op with
  | AddObjective o => fst (add_objective self o)
  | AddConcept c => fst (add_concept self c)
  | AddPrerequisite p => fst (add_prerequisite self p)
  end.

Definition added_objectives (ops : list AddOp) : list LearningObjective :=
  flat_map (fun op => match op with AddObjective o => [o] | _ => [] end) ops.
Definition added_concepts (ops : list AddOp) : list Concept :=
  flat_map (fun op => match op with AddConcept c => [c] | _ => [] end) ops.
Definition added_prerequisites (ops : list AddOp) : list string :=
  flat_map (fun op => match op with AddPrerequisite p => [p] | _ => [] end) ops.

(** *** Interactive elements and assessment *)

Definition with_interactions (self : EducationalScene)
    (interactions' : list InteractiveElement)
    (interactive_state' : gmap string PyValue) : EducationalScene :=
  {| engine := engine self; scene_id := scene_id self; title := title self;
     description := description self; duration := duration self;
     objectives := objectives self; concepts := concepts self;
     prerequisites := prerequisites self;
     difficulty := difficulty self; interactions := interactions';
     interactive_state := interactive_state';
     assessments := assessments self; quiz_results := quiz_results self;
     narrative := narrative self; current_subtitle := current_subtitle self;
     export_data := export_data self |}.

Definition add_slider (self : EducationalScene) (name : string) (range : Q * Q)
    (default : Q) (callback : Callback) (label description : string)
    (learning_hook : option string) : EducationalScene * InteractiveElement :=
  let element :=
    {| ie_id := ("slider_" ++ name)%string; ie_type := InteractionType.SLIDER;
       ie_label := label_or label name; ie_target := name;
       ie_range := Some range; ie_default := PyFloat default;
       ie_callback := callback_name callback;
       ie_learning_hook := learning_hook; ie_description := description |} in
  (with_interactions self (interactions self ++ [element])
     (<[ name := PyFloat default ]> (interactive_state self)), element).

Definition add_button (self : EducationalScene) (name : string)
    (callback : Callback) (label description : string)
  : EducationalScene * InteractiveElement :=
  let element :=
    {| ie_id := ("button_" ++ name)%string; ie_type := InteractionType.BUTTON;
       ie_label := label_or label name; ie_target := name;
       ie_range := None; ie_default := PyNone;
       ie_callback := callback_name callback;
       ie_learning_hook := None; ie_description := description |} in
  (with_interactions self (interactions self ++ [element])
     (interactive_state self), element).

Definition add_toggle (self : EducationalScene) (name : string) (default : bool)
    (callback : Callback) (label description : string)
  : EducationalScene * InteractiveElement :=
  let element :=
    {| ie_id := ("toggle_" ++ name)%string; ie_type := InteractionType.TOGGLE;
       ie_label := label_or label name; ie_target := name;
       ie_range := None; ie_default := PyBool default;
       ie_callback := callback_name callback;
       ie_learning_hook := None; ie_description := description |} in
  (with_interactions self (interactions self ++ [element])
     (<[ name := PyBool default ]> (interactive_state self)), element).

(** [add_checkpoint(timestamp, question, correct, question_type, options,
    feedback_correct, feedback_incorrect, hints, related_concepts,
    explanation)] *)
Definition add_checkpoint (self : EducationalScene) (timestamp : Q)
    (question : string) (correct : PyValue) (question_type : string)
    (options : option (list string))
    (feedback_correct feedback_incorrect : string)
    (hints related_concepts : option (list string)) (explanation : string)
  : EducationalScene * AssessmentCheckpoint :=
  let q :=
    {| q_id := ("q_" ++ PyNum.str_of_int (Z.of_nat (length (assessments self))))%string;
       q_text := question; q_type := question_type; q_options := options;
       q_correct_answer := correct; q_points := 1;
       q_explanation := explanation |} in
  let checkpoint :=
    {| ac_timestamp := timestamp; ac_question := q;
       ac_feedback_correct := feedback_correct;
       ac_feedback_incorrect := feedback_incorrect;
       ac_hints := list_or_empty hints;
       ac_related_concepts := list_or_empty related_concepts |} in
  ({| engine := engine self; scene_id := scene_id self; title := title self;
      description := description self; duration := duration self;
      objectives := objectives self; concepts := concepts self;
      prerequisites := prerequisites self;
      difficulty := difficulty self; interactions := interactions self;
      interactive_state := interactive_state self;
      assessments := assessments self ++ [checkpoint];
      quiz_results := quiz_results self;
      narrative := narrative self; current_subtitle := current_subtitle self;
      export_data := export_data self |}, checkpoint).

(** A script of control additions. *)
Inductive ControlOp :=
| Slider (name : string) (range : Q * Q) (default : Q) (callback : Callback)
         (label description : string) (learning_hook : option string)
| Button (name : string) (callback : Callback) (label description : string)
| Toggle (name : string) (default : bool) (callback : Callback)
         (label description : string).

Definition run_control (self : EducationalScene) (op : ControlOp) : EducationalScene :=
  match op with
  | Slider name range default callback label description hook =>
      fst (add_slider self name range default callback label description hook)
  | Button name callback label description =>
      fst (add_button self name callback label description)
  | Toggle name default callback label description =>
      fst (add_toggle self name default callback label description)
  end.

(** The controls that keep a value in [interactive_state]. *)
Definition has_state (e : InteractiveElement) : bool :=
  match ie_type e with
  | InteractionType.SLIDER | InteractionType.TOGGLE => true
  | _ => false
  end.

(** The default of the last control with a value that targets [name]. *)
Definition last_default (name : string) (elements : list InteractiveElement)
  : option PyValue :=
  match List.filter (fun e => has_state e && String.eqb (ie_target e) name)
                    (rev elements) with
  | [] => None
  | e :: _ => Some (ie_default e)
  end.

(** The element a control addition returns. *)
Definition returned_element (self : EducationalScene) (op : ControlOp)
  : InteractiveElement :=
  match op with
  | Slider name range default callback label description hook =>
      snd (add_slider self name range default callback label description hook)
  | Button name callback label description =>
      snd (add_button self name callback label description)
  | Toggle name default callback label description =>
      snd (add_toggle self name default callback label description)
  end.

(** The arguments of one [add_checkpoint] call. *)
Record CheckpointArgs := {
  ca_timestamp : Q;
  ca_question : string;
  ca_correct : PyValue;
  ca_question_type : string;
  ca_options : option (list string);
  ca_feedback_correct : string;
  ca_feedback_incorrect : string;
  ca_hints : option (list string);
  ca_related_concepts : option (list string);
  ca_explanation : string
}.

Definition run_checkpoint (self : EducationalScene) (a : CheckpointArgs)
  : EducationalScene :=
  fst (add_checkpoint self (ca_timestamp a) (ca_question a) (ca_correct a)
         (ca_question_type a) (ca_options a) (ca_feedback_correct a)
         (ca_feedback_incorrect a) (ca_hints a) (ca_related_concepts a)
         (ca_explanation a)).

End Scene.

End Edu.

(** ** Python's random module and dicts *)

Module PyRandom.
Import NumpyRandom.
Local Open Scope Q_scope.

(** Python's [random] module keeps a generator of its own, apart from
    numpy's; its state has the same shape, a stream of 53-bit integers. *)

(** [random.random()] *)
Definition random (g : RandomState) : Q * RandomState := random_sample g.

(** [random.uniform(a, b)]: [a + (b - a) * random()] *)
Definition uniform (a b : Q) (g : RandomState) : Q * RandomState :=
  let '(u, g') := random g in (a + (b - a) * u, g').

End PyRandom.

Module PyDict.

(** A [dict] with string keys: its items in insertion order. *)
Definition dict (V : Type) : Type := list (string * V).

(** [d[k]]: [KeyError] is [None]. *)
Fixpoint get {V : Type} (k : string) (d : dict V) : option V :=
  match d with
  | [] => None
  | (k', v) :: d' => if String.eqb k' k then Some v else get k d'
  end.

(** [d[k] = v]: a key that is there keeps its place and gets the new
    value; a new key goes to the end. *)
Fixpoint setitem {V : Type} (k : string) (v : V) (d : dict V) : dict V :=
  match d with
  | [] => [(k, v)]
  | (k', v') :: d' =>
      if String.eqb k' k then (k', v) :: d' else (k', v') :: setitem k v d'
  end.

Definition keys {V : Type} (d : dict V) : list string := map fst d.

End PyDict.

(** ** sciviz_templates.py: network templates *)

Module Networks.
Import PyNum NumpyRandom PyDict.
Local Open Scope Q_scope.

Definition point : Type := ProceduralHyphae.vec3.

(** [np.array([x, y, 0])] *)
Definition xy0 (x y : Q) : point :=
  {| ProceduralHyphae.vx := x; ProceduralHyphae.vy := y; ProceduralHyphae.vz := 0 |}.

(** A colour: one of the engine's constants, or a hex code. *)
Inductive Colour := BLUE | WHITE | YELLOW | GRAY | Hex (code : string).

(** The dataclasses; [__post_init__] turns [properties=None] into [{}]. *)
Record NetworkNode := {
  nn_id : string;
  nn_position : point;
  nn_label : string;
  nn_color : Colour;
  nn_radius : Q;
  nn_properties : dict Z
}.

Record NetworkEdge := {
  ne_source : string;
  ne_target : string;
  ne_weight : Q;
  ne_directed : bool;
  ne_color : Colour;
  ne_properties : dict Z
}.

(** [Dot(point=..., radius=..., color=...)] after [set_fill(color, opacity=0.9)];
    [get_center()] is [dot_point]. *)
Record Dot := {
  dot_point : point;
  dot_radius : Q;
  dot_color : Colour;
  dot_fill_opacity : Q
}.

(** [Text(label, font_size=20)] after [next_to(dot, UP, buff=0.1)]. *)
Record Label := { label_text : string; label_font_size : Z; label_above : string }.

(** [Line(start, end, stroke_width=..., color=...)]: drawn from [start] to
    [end]. *)
Record Line := {
  line_start : point;
  line_end : point;
  line_stroke_width : Q;
  line_color : Colour
}.

(** [Arrow(start, end, buff=..., stroke_width=..., color=...)]: the
    arguments it is made with.  What the engine draws from them is its own
    matter: it shortens the arrow by [buff] at both ends and gives a short
    arrow a thinner stroke. *)
Record Arrow := {
  arrow_start : point;
  arrow_end : point;
  arrow_buff : Q;
  arrow_stroke_width : Q;
  arrow_color : Colour
}.

Inductive EdgeShape := PlainLine (l : Line) | ArrowOf (a : Arrow).

(** The mobject of an edge, with its z-index. *)
Record EdgeMobject := { shape : EdgeShape; z_index : Z }.

(** The group's children: a node's dot or label by the node's id, an
    edge's line or arrow by its position in [edge_mobjects]. *)
Inductive Submobject :=
| DotOf (node_id : string)
| LabelOf (node_id : string)
| LineOf (k : nat).

Record NetworkTemplate := {
  node_data : dict NetworkNode;
  edge_data : list NetworkEdge;
  show_labels : bool;
  layout_type : string;
  node_mobjects : dict Dot;
  edge_mobjects : list EdgeMobject;
  label_mobjects : dict Label;
  submobjects : list Submobject
}.

(** [{n.id: n for n in nodes}] *)
Definition node_dict (nodes : list NetworkNode) : dict NetworkNode :=
  fold_left (fun d n => setitem (nn_id n) n d) nodes [].

(** One turn of [for node_id, node in self.node_data.items()]. *)
Definition build_node (show_labels : bool)
    (acc : dict Dot * dict Label * list Submobject) (item : string * NetworkNode)
  : dict Dot * dict Label * list Submobject :=
  let '(node_mobjects, label_mobjects, submobjects) := acc in
  let '(node_id, node) := item in
  let dot := {| dot_point := nn_position node; dot_radius := nn_radius node;
                dot_color := nn_color node; dot_fill_opacity := 9 # 10 |} in
  let node_mobjects := setitem node_id dot node_mobjects in
  let submobjects := submobjects ++ [DotOf node_id] in
  if show_labels && negb (String.eqb (nn_label node) "")
  then
    let label := {| label_text := nn_label node; label_font_size := 20;
                    label_above := node_id |} in
    (node_mobjects, setitem node_id label label_mobjects,
     submobjects ++ [LabelOf node_id])
  else (node_mobjects, label_mobjects, submobjects).

(** One turn of [for edge in self.edge_data]: the line or the arrow, or
    [KeyError] (here [None]) when an end of the edge is no node. *)
Definition build_edge (node_data : dict NetworkNode) (node_mobjects : dict Dot)
    (edge : NetworkEdge) : option EdgeMobject :=
  match get (ne_source edge) node_mobjects with
  | None => None
  | Some source =>
      match get (ne_target edge) node_mobjects with
      | None => None
      | Some target =>
          let source_pos := dot_point source in
          let target_pos := dot_point target in
          if ne_directed edge
          then match get (ne_source edge) node_data with
               | None => None
               | Some node =>
                   Some {| shape :=
                             ArrowOf {| arrow_start := source_pos;
                                        arrow_end := target_pos;
                                        arrow_buff := nn_radius node;
                                        arrow_stroke_width := 2 * ne_weight edge;
                                        arrow_color := ne_color edge |};
                           z_index := 0 |}
               end
          else Some {| shape :=
                         PlainLine {| line_start := source_pos;
                                      line_end := target_pos;
                                      line_stroke_width := 2 * ne_weight edge;
                                      line_color := ne_color edge |};
                       z_index := 0 |}
      end
  end.

Fixpoint build_edges (node_data : dict NetworkNode) (node_mobjects : dict Dot)
    (edges : list NetworkEdge) : option (list EdgeMobject) :=
  match edges with
  | [] => Some []
  | edge :: rest =>
      match build_edge node_data node_mobjects edge with
      | None => None
      | Some line =>
          match build_edges node_data node_mobjects rest with
          | None => None
          | Some lines => Some (line :: lines)
          end
      end
  end.

(** [edge.set_z_index(-1)] *)
Definition set_z_index (z : Z) (l : EdgeMobject) : EdgeMobject :=
  {| shape := shape l; z_index := z |}.

(** [NetworkTemplate(nodes, edges, show_labels, layout=layout)], with
    [_build_network] inlined; the only exception is the [KeyError] of an
    edge whose end is no node. *)
Definition __init__ (nodes : list NetworkNode) (edges : list NetworkEdge)
    (show_labels : bool) (layout : string) : PyError + NetworkTemplate :=
  let node_data := node_dict nodes in
  let '(node_mobjects, label_mobjects, submobjects) :=
    fold_left (build_node show_labels) node_data ([], [], []) in
  match build_edges node_data node_mobjects edges with
  | None => inl KeyError
  | Some lines =>
      inr {| node_data := node_data; edge_data := edges;
             show_labels := show_labels; layout_type := layout;
             node_mobjects := node_mobjects;
             edge_mobjects := map (set_z_index (-1)) lines;
             label_mobjects := label_mobjects;
             submobjects := submobjects
                            ++ map LineOf (seq 0 (length lines)) |}
  end.

(** [edge_mob.animate.set_color(color).set_stroke(width=4)], for the line at
    [target_line] of [edge_mobjects]. *)
Record Recolour := { target_line : nat; to_color : Colour; to_width : Q }.

(** The first pair of [zip(self.edge_mobjects, self.edge_data)], counted
    from [k], whose edge runs from [source] to [target]. *)
Fixpoint find_edge (source target : string) (k : nat)
    (pairs : list (EdgeMobject * NetworkEdge)) : option nat :=
  match pairs with
  | [] => None
  | (_, edge_data) :: rest =>
      if String.eqb (ne_source edge_data) source
         && String.eqb (ne_target edge_data) target
      then Some k
      else find_edge source target (S k) rest
  end.

(** [highlight_path(path, color)]; [path[i]] and [path[i + 1]] are within
    the list for every [i] of the range. *)
Definition highlight_path (self : NetworkTemplate) (path : list string)
    (color : Colour) : list Recolour :=
  flat_map
    (fun i : Z =>
       match nth_error path (Z.to_nat i), nth_error path (Z.to_nat (i + 1)) with
       | Some source, Some target =>
           match find_edge source target 0
                           (combine (edge_mobjects self) (edge_data self)) with
           | Some k => [{| target_line := k; to_color := color; to_width := 4 |}]
           | None => []
           end
       | _, _ => []
       end)
    (range (Z.of_nat (length path) - 1)).

(** [MoveAlongPath(particle, Line(from, to), run_time=...)], which the
    engine refuses for a negative run time. *)
Record Flow := { flow_from : point; flow_to : point; flow_run_time : Q }.

(** [for x in xs: body], threading a state and collecting what the turns
    append. *)
Fixpoint for_in {A T S : Type} (xs : list A) (body : A -> S -> list T * S) (st : S)
  : list T * S :=
  match xs with
  | [] => ([], st)
  | x :: xs' =>
      let '(ts, st) := body x st in
      let '(ts', st) := for_in xs' body st in
      (ts ++ ts', st)
  end.

(** *** BiologicalNetwork *)

Definition plant_node (num_plants i : Z) (g : RandomState)
  : list NetworkNode * RandomState :=
  let x := (inject_Z i - inject_Z num_plants / 2) * 2 in
  let '(dy, g) := PyRandom.uniform (- (3 # 10)) (3 # 10) g in
  let y := 2 + dy in
  ([{| nn_id := ("plant_" ++ str_of_int i)%string; nn_position := xy0 x y;
       nn_label := ("P" ++ str_of_int (i + 1))%string;
       nn_color := Hex "#2d7f3e"; nn_radius := 2 # 10;
       nn_properties := [] |}], g).

Definition fungus_node (num_fungi i : Z) (g : RandomState)
  : list NetworkNode * RandomState :=
  let x := (inject_Z i - inject_Z num_fungi / 2) * (25 # 10) in
  let '(dy, g) := PyRandom.uniform (- (3 # 10)) (3 # 10) g in
  let y := - (15 # 10) + dy in
  ([{| nn_id := ("fungus_" ++ str_of_int i)%string; nn_position := xy0 x y;
       nn_label := ("F" ++ str_of_int (i + 1))%string;
       nn_color := Hex "#19a7a4"; nn_radius := 15 # 100;
       nn_properties := [] |}], g).

Definition plant_fungus_edge (connectivity : Q) (plant_idx fungus_idx : Z)
    (g : RandomState) : list NetworkEdge * RandomState :=
  let '(r, g) := PyRandom.random g in
  if Qltb r connectivity
  then
    let '(weight, g) := PyRandom.uniform (1 # 2) (3 # 2) g in
    ([{| ne_source := ("plant_" ++ str_of_int plant_idx)%string;
         ne_target := ("fungus_" ++ str_of_int fungus_idx)%string;
         ne_weight := weight; ne_directed := false;
         ne_color := Hex "#7fb05d"; ne_properties := [] |}], g)
  else ([], g).

Definition _generate_biological_network (num_plants num_fungi : Z)
    (connectivity : Q) (g : RandomState)
  : list NetworkNode * list NetworkEdge * RandomState :=
  let '(plants, g) := for_in (range num_plants) (plant_node num_plants) g in
  let '(fungi, g) := for_in (range num_fungi) (fungus_node num_fungi) g in
  let '(edges, g) :=
    for_in (range num_plants)
      (fun plant_idx g =>
         for_in (range num_fungi) (plant_fungus_edge connectivity plant_idx) g)
      g in
  (plants ++ fungi, edges, g).

Record BiologicalNetwork := {
  bio_template : NetworkTemplate;
  show_nutrient_flow : bool
}.

(** [BiologicalNetwork(num_plants, num_fungi, connectivity,
    show_nutrient_flow, show_labels=..., layout=...)] *)
Definition BiologicalNetwork__init__ (num_plants num_fungi : Z) (connectivity : Q)
    (show_nutrient_flow show_labels : bool) (layout : string) (g : RandomState)
  : (PyError + BiologicalNetwork) * RandomState :=
  let '(nodes, edges, g) :=
    _generate_biological_network num_plants num_fungi connectivity g in
  match __init__ nodes edges show_labels layout with
  | inl e => (inl e, g)
  | inr template =>
      (inr {| bio_template := template; show_nutrient_flow := show_nutrient_flow |},
       g)
  end.

(** One turn of the loop of [animate_nutrient_exchange]: [KeyError] when an
    end of the edge is no node, and then [ValueError], the engine's refusal
    of a negative run time. *)
Definition carbon_flow (self : NetworkTemplate) (run_time : Q) (edge : NetworkEdge)
  : PyError + Flow :=
  match get (ne_source edge) (node_mobjects self) with
  | None => inl KeyError
  | Some source =>
      match get (ne_target edge) (node_mobjects self) with
      | None => inl KeyError
      | Some target =>
          if Qltb run_time 0 then inl ValueError
          else inr {| flow_from := dot_point source; flow_to := dot_point target;
                      flow_run_time := run_time |}
      end
  end.

Fixpoint carbon_flows (self : NetworkTemplate) (run_time : Q)
    (edges : list NetworkEdge) : PyError + list Flow :=
  match edges with
  | [] => inr []
  | edge :: rest =>
      match carbon_flow self run_time edge with
      | inl e => inl e
      | inr a =>
          match carbon_flows self run_time rest with
          | inl e => inl e
          | inr anims => inr (a :: anims)
          end
      end
  end.

(** [animate_nutrient_exchange(run_time)]: over
    [self.edge_data[:min(3, len(self.edge_data))]]. *)
Definition animate_nutrient_exchange (self : BiologicalNetwork) (run_time : Q)
  : PyError + list Flow :=
  let edges := edge_data (bio_template self) in
  carbon_flows (bio_template self) run_time
    (firstn (Nat.min 3 (length edges)) edges).

(** *** NeuralNetwork *)

Definition neuron_color (layer_idx n_layers : Z) : Colour :=
  if (layer_idx =? 0)%Z then Hex "#3d5a80"
  else if (layer_idx =? n_layers - 1)%Z then Hex "#ee6c4d"
  else Hex "#98c1d9".

(** [enumerate(xs)] *)
Definition enumerate {A : Type} (xs : list A) : list (Z * A) :=
  combine (range (Z.of_nat (length xs))) xs.

(** The nodes of one layer; the state is [node_counter]. *)
Definition layer_nodes (n_layers : Z) (layer : Z * Z) (node_counter : Z)
  : list NetworkNode * Z :=
  let '(layer_idx, size) := layer in
  let x := (inject_Z layer_idx - inject_Z n_layers / 2) * 3 in
  for_in (range size)
    (fun neuron_idx node_counter =>
       let y := (inject_Z neuron_idx - inject_Z size / 2) * (8 # 10) in
       ([{| nn_id := ("neuron_" ++ str_of_int node_counter)%string;
            nn_position := xy0 x y; nn_label := "";
            nn_color := neuron_color layer_idx n_layers; nn_radius := 15 # 100;
            nn_properties := [("layer"%string, layer_idx);
                              ("index"%string, neuron_idx)] |}],
        (node_counter + 1)%Z))
    node_counter.

(** The edges out of one layer; the state is [node_idx] and the generator.
    [layer_sizes[layer_idx]] and [layer_sizes[layer_idx + 1]] are within the
    list for every [layer_idx] of the range. *)
Definition layer_edges (layer_sizes : list Z) (show_weights : bool) (layer_idx : Z)
    (st : Z * RandomState) : list NetworkEdge * (Z * RandomState) :=
  let '(node_idx, g) := st in
  let layer_size := nth (Z.to_nat layer_idx) layer_sizes 0%Z in
  let next_layer_size := nth (Z.to_nat (layer_idx + 1)) layer_sizes 0%Z in
  let '(edges, g) :=
    for_in (range layer_size)
      (fun i g =>
         for_in (range next_layer_size)
           (fun j g =>
              let source_id := ("neuron_" ++ str_of_int (node_idx + i))%string in
              let target_id :=
                ("neuron_" ++ str_of_int (node_idx + layer_size + j))%string in
              let '(weight, g) :=
                if show_weights : bool
                then PyRandom.uniform (3 # 10) 1 g
                else (1, g) in
              ([{| ne_source := source_id; ne_target := target_id;
                   ne_weight := weight; ne_directed := true;
                   ne_color := WHITE; ne_properties := [] |}], g))
           g)
      g in
  (edges, ((node_idx + layer_size)%Z, g)).

Definition _generate_neural_network (layer_sizes : list Z) (show_weights : bool)
    (g : RandomState) : list NetworkNode * list NetworkEdge * RandomState :=
  let n_layers := Z.of_nat (length layer_sizes) in
  let '(nodes, _) := for_in (enumerate layer_sizes) (layer_nodes n_layers) 0%Z in
  let '(edges, (_, g)) :=
    for_in (range (n_layers - 1)) (layer_edges layer_sizes show_weights) (0%Z, g) in
  (nodes, edges, g).

(** For the statements about the generator (not values of the program):
    the sum of the sizes, the number of neurons before layer [k], and the
    pairs of ids that the full connection of layer [k] to layer [k + 1]
    consists of. *)
Definition zsum (l : list Z) : Z := fold_right Z.add 0%Z l.
Definition layer_start (sizes : list Z) (k : nat) : Z := zsum (firstn k sizes).
Definition layer_links (sizes : list Z) (k : nat) : list (string * string) :=
  flat_map (fun i =>
              map (fun j => (("neuron_" ++ str_of_int (layer_start sizes k + i))%string,
                             ("neuron_" ++ str_of_int (layer_start sizes (S k) + j))%string))
                  (range (nth (S k) sizes 0%Z)))
           (range (nth k sizes 0%Z)).

Record NeuralNetwork := {
  neural_template : NetworkTemplate;
  layer_sizes : list Z;
  activation_function : string
}.

(** [NeuralNetwork(layer_sizes, activation_function, show_weights,
    layout=...)]; the template is built with [show_labels=False]. *)
Definition NeuralNetwork__init__ (layer_sizes : list Z) (activation_function : string)
    (show_weights : bool) (layout : string) (g : RandomState)
  : (PyError + NeuralNetwork) * RandomState :=
  let '(nodes, edges, g) := _generate_neural_network layer_sizes show_weights g in
  match __init__ nodes edges false layout with
  | inl e => (inl e, g)
  | inr template =>
      (inr {| neural_template := template; layer_sizes := layer_sizes;
              activation_function := activation_function |}, g)
  end.

(** [self.node_mobjects[node_id].animate.set_fill(YELLOW, opacity=intensity)] *)
Record Activation := { act_node : string; act_color : Colour; act_opacity : Q }.

Fixpoint activations (self : NetworkTemplate) (inputs : list (Z * Q))
  : PyError + list Activation :=
  match inputs with
  | [] => inr []
  | (i, val) :: rest =>
      let node_id := ("neuron_" ++ str_of_int i)%string in
      let intensity := Qabs val in
      match get node_id (node_mobjects self) with
      | None => inl KeyError
      | Some _ =>
          match activations self rest with
          | inl e => inl e
          | inr anims =>
              inr ({| act_node := node_id; act_color := YELLOW;
                      act_opacity := intensity |} :: anims)
          end
      end
  end.

(** [animate_forward_pass(input_values, run_time)] *)
Definition animate_forward_pass (self : NeuralNetwork) (input_values : list Q)
    (run_time : Q) : PyError + list Activation :=
  activations (neural_template self) (enumerate input_values).

(** *** SocialNetwork *)

(** [range(a, b)] *)
Definition range_from (a b : Z) : list Z :=
  map (fun k => (a + Z.of_nat k)%Z) (seq 0 (Z.to_nat (b - a))).

(** [np.linspace(start, stop, num, endpoint=False)]: [ValueError] (here
    [None]) for a negative [num]; the samples are [i * step + start] with
    [step = (stop - start) / num]. *)
Definition linspace_open (start stop : Q) (num : Z) : option (list Q) :=
  if (num <? 0)%Z then None
  else Some (map (fun i => inject_Z i * ((stop - start) / inject_Z num) + start)
                 (range num)).

Definition community_colors : list Colour :=
  [Hex "#e76f51"; Hex "#2a9d8f"; Hex "#e9c46a"].

Definition person_edge (clustering : Q) (i j : Z) (g : RandomState)
  : list NetworkEdge * RandomState :=
  let same_community := (i mod 3 =? j mod 3)%Z in
  let prob := if same_community then clustering else clustering * (2 # 10) in
  let '(r, g) := PyRandom.random g in
  if Qltb r prob
  then ([{| ne_source := ("person_" ++ str_of_int i)%string;
            ne_target := ("person_" ++ str_of_int j)%string;
            ne_weight := 1 # 2; ne_directed := false;
            ne_color := GRAY; ne_properties := [] |}], g)
  else ([], g).

Section Social.
(** [np.cos], [np.sin] and [np.pi] are the engine's. *)
Variables (cos sin : Q -> Q) (pi : Q).

Definition person_node (angles : list Q) (i : Z) (g : RandomState)
  : list NetworkNode * RandomState :=
  let community := (i mod 3)%Z in
  let '(da, g) := PyRandom.uniform (- (1 # 10)) (1 # 10) g in
  let angle := nth (Z.to_nat i) angles 0 + da in
  let '(dr, g) := PyRandom.uniform (- (1 # 2)) (1 # 2) g in
  let r := 3 + dr in
  let x := r * cos angle in
  let y := r * sin angle in
  ([{| nn_id := ("person_" ++ str_of_int i)%string; nn_position := xy0 x y;
       nn_label := ""; nn_color := nth (Z.to_nat community) community_colors BLUE;
       nn_radius := 12 # 100;
       nn_properties := [("community"%string, community)] |}], g).

Definition _generate_social_network (num_nodes : Z) (clustering : Q)
    (g : RandomState)
  : PyError + (list NetworkNode * list NetworkEdge * RandomState) :=
  match linspace_open 0 (2 * pi) num_nodes with
  | None => inl ValueError
  | Some angles =>
      let '(nodes, g) := for_in (range num_nodes) (person_node angles) g in
      let '(edges, g) :=
        for_in (range num_nodes)
          (fun i g =>
             for_in (range_from (i + 1) num_nodes) (person_edge clustering i) g)
          g in
      inr (nodes, edges, g)
  end.

Record SocialNetwork := {
  social_template : NetworkTemplate;
  show_communities : bool
}.

(** [SocialNetwork(num_nodes, clustering, show_communities,
    show_labels=..., layout=...)]; the generator's state after a
    [ValueError] is the one before the call. *)
Definition SocialNetwork__init__ (num_nodes : Z) (clustering : Q)
    (show_communities show_labels : bool) (layout : string) (g : RandomState)
  : (PyError + SocialNetwork) * RandomState :=
  match _generate_social_network num_nodes clustering g with
  | inl e => (inl e, g)
  | inr (nodes, edges, g) =>
      match __init__ nodes edges show_labels layout with
      | inl e => (inl e, g)
      | inr template =>
          (inr {| social_template := template;
                  show_communities := show_communities |}, g)
      end
  end.

End Social.

End Networks.

(** ** Recursive branch drawings *)

Module Branches.
Import PyNum ProceduralHyphae.
Local Open Scope Q_scope.

(** The engine's [ORANGE], or a colour of the palette. *)
Inductive Colour := ORANGE | Palette (code : string).

(** [Line(start, end, color=..., stroke_width=...)] *)
Record Line := {
  line_start : vec3;
  line_end : vec3;
  line_color : Colour;
  line_stroke_width : Q
}.

#[local] Set Warnings "-register-all".

(** A [VGroup] as the two functions build it: empty, or a line followed by
    the groups of its branches. *)
Inductive VGroup :=
| Empty
| Group (line : Line) (branches : list VGroup).

Section Drawing.
(** [np.cos], [np.sin] and [PI] are the engine's. *)
Variables (cos sin : Q -> Q) (PI : Q).

(** [create_branch(start, angle, depth, max_depth)] of
    [segment_03_colonization] (manim-documentary.py).  [None] only when
    [fuel] runs out. *)
Fixpoint create_branch (fuel : nat) (start : vec3) (angle : Q) (depth max_depth : Z)
  {struct fuel} : option (PyError + VGroup) :=
  match fuel with
  | O => None
  | S fuel' =>
      if (max_depth <? depth)%Z then Some (inr Empty) else
      match DataVisualization.truediv (4 # 10) (inject_Z (depth + 1)) with
      | None => Some (inl ZeroDivisionError)
      | Some length =>
          let end_ := vadd start (vmul (direction cos sin angle) length) in
          let line := {| line_start := start; line_end := end_;
                         line_color := ORANGE;
                         line_stroke_width := inject_Z (6 - depth) |} in
          if (depth <? max_depth)%Z
          then
            match create_branch fuel' end_ (angle - (1 # 2)) (depth + 1) max_depth with
            | None => None
            | Some (inl e) => Some (inl e)
            | Some (inr first) =>
                match create_branch fuel' end_ (angle + (1 # 2)) (depth + 1)
                                    max_depth with
                | None => None
                | Some (inl e) => Some (inl e)
                | Some (inr second) => Some (inr (Group line [first; second]))
                end
            end
          else Some (inr (Group line []))
      end
  end.

(** [create_arbuscule_branch(start, angle, depth, length)] of
    [ArchitectureScene.construct] (advanced_manim_doc.py); [3 / depth] is
    computed for a positive [depth] only.  [None] only when [fuel] runs
    out. *)
Fixpoint create_arbuscule_branch (fuel : nat) (start : vec3) (angle : Q) (depth : Z)
    (length : Q) {struct fuel} : option VGroup :=
  match fuel with
  | O => None
  | S fuel' =>
      if (depth <=? 0)%Z then Some Empty else
      let end_ := vadd start (smul length (direction cos sin angle)) in
      let branch := {| line_start := start; line_end := end_;
                       line_color := Palette "#ffcb47";
                       line_stroke_width := 3 / inject_Z depth |} in
      if (1 <? depth)%Z
      then
        match create_arbuscule_branch fuel' end_ (angle - PI / 6) (depth - 1)
                                      (length * (7 # 10)) with
        | None => None
        | Some left_branch =>
            match create_arbuscule_branch fuel' end_ (angle + PI / 6) (depth - 1)
                                          (length * (7 # 10)) with
            | None => None
            | Some right_branch =>
                Some (Group branch [left_branch; right_branch])
            end
        end
      else Some (Group branch [])
  end.

End Drawing.

(** The lines of a group, the line of the group first. *)
Fixpoint lines (g : VGroup) : list Line :=
  match g with
  | Empty => []
  | Group line branches => line :: flat_map lines branches
  end.

(** For the statements (not values of the program): [shaped P n g] says that
    [g] is a full binary tree of [n] levels in which the line of level [k]
    (the root is level 0) satisfies [P k], and every branch starts where
    the line it grows from ends. *)
Fixpoint shaped (P : nat -> Line -> Prop) (n : nat) (g : VGroup) : Prop :=
  match n with
  | O => g = Empty
  | S n' =>
      match g with
      | Empty => False
      | Group line branches =>
          P 0%nat line
          /\ match n' with
             | O => branches = []
             | S _ =>
                 exists first second,
                   branches = [first; second]
                   /\ shaped (fun k => P (S k)) n' first
                   /\ shaped (fun k => P (S k)) n' second
                   /\ (forall l, hd_error (lines first) = Some l ->
                                 line_start l = line_end line)
                   /\ (forall l, hd_error (lines second) = Some l ->
                                 line_start l = line_end line)
             end
      end
  end.

End Branches.

(** ** advanced_manim_doc.py: VisualEffects *)

Module VisualEffects.
Import PyNum.
Local Open Scope Q_scope.

(** A copy of the mobject after [set_stroke(color, width=..., opacity=...)],
    [set_fill(opacity=0)] and [set_z_index(...)]. *)
Record GlowLayer := {
  stroke_color : string;
  stroke_width : Q;
  stroke_opacity : Q;
  fill_opacity : Q;
  z_index : Z
}.

(** The members of the returned group: copies, and the mobject itself. *)
Inductive Member (Copy : Type) :=
| CopyOf (c : Copy)
| Original.
Arguments CopyOf {Copy} c.
Arguments Original {Copy}.

(** [add_glow(mobject, color, intensity, layers, scale_factor)] for a
    mobject whose stroke is [mobject_stroke_width] wide, at
    [mobject_z_index]. *)
Definition add_glow (mobject_stroke_width : Q) (mobject_z_index : Z) (color : string)
    (intensity : Q) (layers : Z) (scale_factor : Q) : list (Member GlowLayer) :=
  map (fun i : Z =>
         let opacity := intensity * (1 - inject_Z i / inject_Z layers) in
         let width := mobject_stroke_width * scale_factor ^ (i + 1) in
         CopyOf {| stroke_color := color; stroke_width := width;
                   stroke_opacity := opacity; fill_opacity := 0;
                   z_index := mobject_z_index - i - 1 |})
      (range layers)
  ++ [Original].

(** A copy after [shift(offset)] and [set_opacity(...)]. *)
Record BlurCopy := { blur_offset : ProceduralHyphae.vec3; blur_opacity : Q }.

(** [add_motion_blur(mobject, direction, intensity, samples)] *)
Definition add_motion_blur (direction : ProceduralHyphae.vec3) (intensity : Q)
    (samples : Z) : list (Member BlurCopy) :=
  map (fun i : Z =>
         let offset :=
           ProceduralHyphae.vmul
             (ProceduralHyphae.vmul direction (inject_Z i / inject_Z samples))
             intensity in
         CopyOf {| blur_offset := offset;
                   blur_opacity := intensity / inject_Z samples |})
      (range samples)
  ++ [Original].

(** The copies among the members. *)
Definition copies {Copy : Type} (members : list (Member Copy)) : list Copy :=
  flat_map (fun m => match m with CopyOf c => [c] | Original => [] end) members.

End VisualEffects.

(** ** advanced_manim_doc.py: create_stylized_tree *)

Module StylizedTree.
Import PyNum NumpyRandom ProceduralHyphae.
Local Open Scope Q_scope.

(** [Rectangle(width=..., height=...)] after [move_to(DOWN * height / 2)]:
    the width and the height it was asked for, and its centre.  The
    rectangle drawn has their absolute values as width and height. *)
Record Trunk := { trunk_width : Q; trunk_height : Q; trunk_center : vec3 }.

(** [trunk.get_top()]: the middle of the upper side, half the height drawn
    above the centre. *)
Definition get_top (t : Trunk) : vec3 :=
  vadd (trunk_center t) {| vx := 0; vy := Qabs (trunk_height t) / 2; vz := 0 |}.

(** The foliage, each shape by the arguments it is made with (a circle's
    centre after its [shift]). *)
Inductive Shape :=
| Circle (radius : Q) (fill : string) (center : vec3)
| Line (line_start line_end : vec3)
| Polygon (vertices : list vec3) (fill : string).

Definition UP (k : Q) : vec3 := {| vx := 0; vy := k; vz := 0 |}.
Definition LEFT (k : Q) : vec3 := {| vx := - k; vy := 0; vz := 0 |}.
Definition RIGHT (k : Q) : vec3 := {| vx := k; vy := 0; vz := 0 |}.

(** The [colors] dict of the deciduous style. *)
Definition colors : PyDict.dict (list string) :=
  [("spring", ["#86ce9e"; "#b8e6a3"]); ("summer", ["#2d7a4a"; "#86ce9e"]);
   ("autumn", ["#d4a574"; "#c98547"]); ("winter", [])]%string.

(** One canopy circle: [colors[season][i % 2]] raises [KeyError] for a
    season that is not in the dict, and [IndexError] for an empty list. *)
Definition canopy_circle (season : string) (i : Z) (r y : Q) : PyError + Shape :=
  match PyDict.get season colors with
  | None => inl KeyError
  | Some cs =>
      match getitem cs (i mod 2) with
      | None => inl IndexError
      | Some c => inr (Circle r c (UP y))
      end
  end.

Fixpoint canopy (season : string) (items : list (Z * (Q * Q)))
  : PyError + list Shape :=
  match items with
  | [] => inr []
  | (i, (r, y)) :: rest =>
      match canopy_circle season i r y with
      | inl e => inl e
      | inr c =>
          match canopy season rest with
          | inl e => inl e
          | inr cs => inr (c :: cs)
          end
      end
  end.

(** One winter branch: [np.random.uniform(-1, 1, 3)] draws three numbers. *)
Definition winter_branch (size : Q) (top : vec3) (g : RandomState)
  : Shape * RandomState :=
  let '(u0, g) := uniform (- 1) 1 g in
  let '(u1, g) := uniform (- 1) 1 g in
  let '(u2, g) := uniform (- 1) 1 g in
  (Line top
     (vadd (vadd top (UP (size * (6 # 10))))
           {| vx := u0 * (size * (4 # 10)); vy := u1 * (size * (2 # 10));
              vz := u2 * 0 |}),
   g).

Fixpoint winter_branches (n : nat) (size : Q) (top : vec3) (g : RandomState)
  : list Shape * RandomState :=
  match n with
  | O => ([], g)
  | S n' =>
      let '(b, g) := winter_branch size top g in
      let '(bs, g) := winter_branches n' size top g in
      (b :: bs, g)
  end.

(** One layer of the conifer. *)
Definition conifer_layer (size : Q) (top : vec3) (i : Z) : Shape :=
  let layer_height := size * ((12 # 10) - inject_Z i * (3 # 10)) in
  let layer_width := size * ((9 # 10) - inject_Z i * (2 # 10)) in
  Polygon
    [vadd top (UP (inject_Z i * size * (3 # 10)));
     vadd (vadd top (UP layer_height)) (UP (inject_Z i * size * (3 # 10)));
     vadd (vadd top (LEFT layer_width))
          (UP (size * (2 # 10) + inject_Z i * size * (3 # 10)));
     vadd (vadd top (RIGHT layer_width))
          (UP (size * (2 # 10) + inject_Z i * size * (3 # 10)))]
    (if (i mod 2 =? 0)%Z then "#2d7a4a" else "#1a4d2e")%string.

(** [create_stylized_tree(size, style, season, detail_level)]: the trunk
    and the foliage; [detail_level] is not read. *)
Definition create_stylized_tree (size : Q) (style season : string) (detail_level : Z)
    (g : RandomState) : (PyError + Trunk * list Shape) * RandomState :=
  let trunk_width := (15 # 100) * size in
  let trunk_height := (8 # 10) * size in
  let trunk := {| trunk_width := trunk_width; trunk_height := trunk_height;
                  trunk_center := {| vx := 0; vy := - (trunk_height / 2); vz := 0 |} |} in
  if String.eqb style "deciduous"
  then
    if negb (String.eqb season "winter")
    then
      let radii := [size * 1; size * (75 # 100); size * (5 # 10)] in
      let y_offsets := [size * (2 # 10); size * (5 # 10); size * (75 # 100)] in
      match canopy season (Networks.enumerate (combine radii y_offsets)) with
      | inl e => (inl e, g)
      | inr foliage => (inr (trunk, foliage), g)
      end
    else
      let '(foliage, g) := winter_branches 5 size (get_top trunk) g in
      (inr (trunk, foliage), g)
  else if String.eqb style "conifer"
  then (inr (trunk, map (conifer_layer size (get_top trunk)) (range 3)), g)
  else (inr (trunk, []), g).

End StylizedTree.

Section WordWrap.
Import PyStr AdaptiveSubtitle.

Lemma join_snoc sep (xs : list str) (w : str) :
  join sep (xs ++ [w]) =
  match xs with [] => w | _ :: _ => join sep xs ++ sep ++ w end.
Proof.
  induction xs as [|x xs IH]; [reflexivity|].
  destruct xs as [|y xs]; [reflexivity|].
  change (join sep ((x :: y :: xs) ++ [w]))
    with (x ++ sep ++ join sep ((y :: xs) ++ [w])).
  rewrite IH. change (join sep (x :: y :: xs)) with (x ++ sep ++ join sep (y :: xs)).
  now rewrite <- !app_assoc.
Qed.

Lemma split_from_words (s cur : str) :
  Forall (fun c => isspace c = false) cur ->
  Forall is_word (split_from cur s).
Proof.
  revert cur. induction s as [|c s IH]; intros cur Hcur; simpl.
  - destruct cur; constructor; [|constructor]. split; [discriminate|assumption].
  - destruct (isspace c) eqn:Hc.
    + destruct cur as [|a cur].
      * apply IH. constructor.
      * constructor; [split; [discriminate|assumption]|]. apply IH. constructor.
    + apply IH. apply Forall_app. split; [assumption|]. constructor; [assumption|constructor].
Qed.

Lemma split_words (s : str) : Forall is_word (split s).
Proof. apply split_from_words. constructor. Qed.

Lemma split_from_run (w cur s : str) :
  Forall (fun c => isspace c = false) w ->
  split_from cur (w ++ s) = split_from (cur ++ w) s.
Proof.
  revert cur. induction w as [|c w IH]; intros cur Hw; simpl.
  - now rewrite app_nil_r.
  - inversion Hw as [|? ? Hc Hw']; subst. rewrite Hc, IH by assumption.
    now rewrite <- app_assoc.
Qed.

Lemma split_from_space (cur s : str) :
  split_from cur (space ++ s) =
  match cur with [] => split_from [] s | _ :: _ => cur :: split_from [] s end.
Proof. reflexivity. Qed.

Lemma split_join (ws : list str) :
  Forall is_word ws -> split (join space ws) = ws.
Proof.
  unfold split. induction ws as [|w ws IH]; intros Hws; [reflexivity|].
  inversion Hws as [|? ? [Hne Hw] Hws']; subst.
  destruct ws as [|w' ws].
  - simpl. rewrite <- (app_nil_r w) at 1. rewrite split_from_run by assumption.
    simpl. destruct w; [contradiction|reflexivity].
  - change (join space (w :: w' :: ws)) with (w ++ space ++ join space (w' :: ws)).
    rewrite split_from_run, split_from_space by assumption.
    destruct w; [contradiction|]. simpl app. now rewrite IH.
Qed.

Lemma create_subtitle_text (t : str) (max_width : Q) (fs : Z) :
  map text (create_subtitle t max_width fs) = wrap_lines t max_width.
Proof.
  unfold create_subtitle. rewrite map_map. simpl. apply map_id.
Qed.

Lemma wrap_word_budget budget words lines cur w :
  In w words ->
  Forall (fits_or_single_word budget words) lines ->
  cur = [] \/ fits_or_single_word budget words (join space cur) ->
  Forall (fits_or_single_word budget words) (fst (wrap_word budget (lines, cur) w))
  /\ fits_or_single_word budget words (join space (snd (wrap_word budget (lines, cur) w))).
Proof.
  intros Hw Hl Hc. unfold wrap_word.
  destruct (len (join space (cur ++ [w])) <=? budget)%Z eqn:E; simpl.
  - split; [assumption|]. left. now apply Z.leb_le.
  - split.
    + destruct cur as [|x cur]; [assumption|].
      apply Forall_app. split; [assumption|].
      constructor; [|constructor]. destruct Hc as [Hc|Hc]; [discriminate|assumption].
    + destruct (Z_le_gt_dec (len w) budget) as [H|H]; [now left|right].
      split; [assumption|lia].
Qed.

Lemma wrap_fold_budget budget words ws : forall lines cur,
  (forall w, In w ws -> In w words) ->
  Forall (fits_or_single_word budget words) lines ->
  cur = [] \/ fits_or_single_word budget words (join space cur) ->
  Forall (fits_or_single_word budget words)
         (fst (fold_left (wrap_word budget) ws (lines, cur)))
  /\ (snd (fold_left (wrap_word budget) ws (lines, cur)) = []
      \/ fits_or_single_word budget words
           (join space (snd (fold_left (wrap_word budget) ws (lines, cur))))).
Proof.
  induction ws as [|w ws IH]; intros lines cur Hin Hl Hc; cbn [fold_left].
  - now split.
  - destruct (wrap_word_budget budget words lines cur w) as [H1 H2]; auto.
    { apply Hin. now left. }
    destruct (wrap_word budget (lines, cur) w) as [lines' cur'] eqn:E.
    apply IH; auto. intros w' Hw'. apply Hin. now right.
Qed.

Lemma wrap_lines_budget (t : str) (max_width : Q) :
  Forall (fits_or_single_word (chars_per_line max_width) (split t))
         (wrap_lines t max_width).
Proof.
  unfold wrap_lines.
  destruct (wrap_fold_budget (chars_per_line max_width) (split t) (split t) [] [])
    as [H1 H2]; auto.
  destruct (fold_left _ _ _) as [lines cur]. simpl in *.
  destruct cur as [|x cur]; [assumption|].
  apply Forall_app. split; [assumption|].
  constructor; [|constructor]. destruct H2 as [H2|H2]; [discriminate|assumption].
Qed.

(** The words of the lines, while the loop runs: those of the finished
    lines, then the line being filled, then the words still to come. *)
Lemma wrap_word_words budget lines cur w :
  Forall is_word cur -> is_word w ->
  let r := wrap_word budget (lines, cur) w in
  Forall is_word (snd r)
  /\ List.concat (map split (fst r)) ++ snd r
     = List.concat (map split lines) ++ cur ++ [w].
Proof.
  intros Hc Hw. unfold wrap_word.
  destruct (len (join space (cur ++ [w])) <=? budget)%Z; simpl.
  - split; [|reflexivity]. apply Forall_app. split; [assumption|]. now constructor.
  - split; [now constructor|].
    destruct cur as [|x cur]; [reflexivity|].
    rewrite map_app, concat_app. cbn [map List.concat].
    rewrite split_join by assumption.
    rewrite app_nil_r. now rewrite <- !app_assoc.
Qed.

Lemma wrap_fold_words budget ws : forall lines cur,
  Forall is_word cur -> Forall is_word ws ->
  let r := fold_left (wrap_word budget) ws (lines, cur) in
  Forall is_word (snd r)
  /\ List.concat (map split (fst r)) ++ snd r
     = List.concat (map split lines) ++ cur ++ ws.
Proof.
  induction ws as [|w ws IH]; intros lines cur Hc Hws; cbn [fold_left].
  - split; [assumption|]. now rewrite app_nil_r.
  - inversion Hws as [|? ? Hw Hws']; subst.
    destruct (wrap_word_words budget lines cur w Hc Hw) as [H1 H2].
    destruct (wrap_word budget (lines, cur) w) as [lines' cur'].
    cbn [fst snd] in *.
    destruct (IH lines' cur' H1 Hws') as [H3 H4].
    split; [exact H3|]. cbv zeta in *. rewrite H4.
    rewrite app_assoc, H2. now rewrite <- !app_assoc.
Qed.

Lemma wrap_lines_words (t : str) (max_width : Q) :
  List.concat (map split (wrap_lines t max_width)) = split t.
Proof.
  unfold wrap_lines.
  destruct (wrap_fold_words (chars_per_line max_width) (split t) [] [])
    as [H1 H2]; [constructor|apply split_words|].
  destruct (fold_left _ _ _) as [lines cur]. simpl in *.
  destruct cur as [|x cur].
  - now rewrite app_nil_r in H2.
  - rewrite map_app, concat_app. cbn [map List.concat].
    rewrite split_join by assumption. now rewrite app_nil_r.
Qed.

Example default_budget : chars_per_line 12 = 102%Z.
Proof. reflexivity. Qed.

Example wrap_two_lines :
  wrap_lines (lit "  the quick  brown fox jumps ") 2
  = [lit "the quick brown"; lit "fox jumps"].
Proof. vm_compute. reflexivity. Qed.

(** C1, as stated, fails: a word longer than the budget is put on a line of
    its own.  With [max_width = 1.0] the budget is 8, and the only line of the
    ten-letter text has 10 characters. *)
Lemma long_word_exceeds_budget :
  ~ Forall (fun line => (len (text line) <= chars_per_line 1)%Z)
           (create_subtitle (lit "abcdefghij") 1 28).
Proof.
  intros H. inversion H as [|line rest Hlen _]; subst.
  vm_compute in Hlen. apply Hlen. reflexivity.
Qed.

(** C1 (amended). For every text and every [max_width], each line produced
    holds at most [int(max_width * 8.5)] characters, unless it consists of a
    single word of the text that is itself longer than that budget. *)
Theorem lines_fit_budget_or_are_single_words (t : str) (max_width : Q) (fs : Z) :
  Forall (fun line =>
            fits_or_single_word (chars_per_line max_width) (split t) (text line))
         (create_subtitle t max_width fs).
Proof.
  rewrite <- (Forall_map text
                (fits_or_single_word (chars_per_line max_width) (split t))).
  rewrite create_subtitle_text. apply wrap_lines_budget.
Qed.

(** C8. For every text, the words of the produced lines, taken line by line
    in order, are exactly the words of the text: none is dropped,
    duplicated, reordered or split. *)
Theorem lines_keep_the_words (t : str) (max_width : Q) (fs : Z) :
  List.concat (map (fun line => split (text line)) (create_subtitle t max_width fs))
  = split t.
Proof.
  rewrite <- (map_map text split), create_subtitle_text.
  apply wrap_lines_words.
Qed.
End WordWrap.


(** ** The random generator *)

Section RandomFacts.
Import NumpyRandom.
Local Open Scope Q_scope.

Lemma random_sample_range g :
  0 <= fst (random_sample g) /\ fst (random_sample g) < 1.
Proof.
  unfold random_sample. cbn [fst].
  set (n := (draws g (cursor g) mod 2 ^ 53)%N).
  assert (Hn : (0 <= Z.of_N n < 2 ^ 53)%Z).
  { split; [lia|]. subst n.
    change (2 ^ 53)%Z with (Z.of_N (2 ^ 53)%N). apply N2Z.inj_lt.
    apply N.mod_lt. discriminate. }
  split.
  - apply Qle_shift_div_l; [reflexivity|]. rewrite Qmult_0_l.
    rewrite <- (Zle_Qle 0). lia.
  - apply Qlt_shift_div_r; [reflexivity|]. rewrite Qmult_1_l.
    rewrite <- Zlt_Qlt. lia.
Qed.

Lemma uniform_range low high g :
  low < high ->
  low <= fst (uniform low high g) /\ fst (uniform low high g) < high.
Proof.
  intros Hlh. unfold uniform.
  destruct (random_sample_range g) as [H0 H1].
  destruct (random_sample g) as [u g']. cbn [fst] in *.
  split; nra.
Qed.

(** A draw between two bounds is no larger in absolute value than they. *)
Lemma uniform_abs low high b g :
  Qabs low <= b -> Qabs high <= b -> Qabs (fst (uniform low high g)) <= b.
Proof.
  intros Hl Hh. apply Qabs_Qle_condition in Hl, Hh. apply Qabs_Qle_condition.
  unfold uniform. destruct (random_sample_range g) as [H0 H1].
  destruct (random_sample g) as [u g']. cbn [fst] in *.
  assert (Ha : 0 <= (b - low) * (1 - u)) by (apply Qmult_le_0_compat; lra).
  assert (Hb : 0 <= (b - high) * u) by (apply Qmult_le_0_compat; lra).
  assert (Hc : 0 <= (low + b) * (1 - u)) by (apply Qmult_le_0_compat; lra).
  assert (Hd : 0 <= (high + b) * u) by (apply Qmult_le_0_compat; lra).
  split; lra.
Qed.

Lemma Qabs_bounds (x : Q) : - Qabs x <= x /\ x <= Qabs x.
Proof. apply Qabs_Qle_condition, Qle_refl. Qed.

Lemma choice_branches g :
  In (fst (choice [1; 2; 3]%Z [3 # 10; 55 # 100; 15 # 100] g)) [1; 2; 3]%Z.
Proof.
  unfold choice.
  destruct (random_sample_range g) as [_ H1].
  destruct (random_sample g) as [u g']. cbn [fst] in *.
  cbn [cumsum_from map List.last].
  cbn [List.filter].
  assert (Hlast : forall x, x == 1 -> Qle_bool x u = false).
  { intros x Hx. destruct (Qle_bool x u) eqn:E; [|reflexivity].
    apply Qle_bool_iff in E. rewrite Hx in E. lra. }
  set (total := 0 + (3 # 10) + (55 # 100) + (15 # 100)).
  rewrite (Hlast (total / total)) by reflexivity.
  destruct (Qle_bool ((0 + (3 # 10)) / total) u),
           (Qle_bool ((0 + (3 # 10) + (55 # 100)) / total) u);
    cbn; auto.
Qed.
End RandomFacts.


(** ** The loop combinator *)

Section ForRange.
Import ProceduralHyphae.
Context {S T : Type}.
Implicit Types (body : S -> option (S * T)) (n : nat).

Lemma for_range_length body n : forall st st' ts,
  for_range n body st = Some (st', ts) -> length ts = n.
Proof.
  induction n as [|n IH]; intros st st' ts H; simpl in H.
  - now inversion H.
  - destruct (body st) as [[s1 t]|]; [|discriminate].
    destruct (for_range n body s1) as [[s2 ts']|] eqn:E; [|discriminate].
    inversion H; subst. simpl. f_equal. eapply IH, E.
Qed.

Lemma for_range_Forall body (P : T -> Prop) n : forall st st' ts,
  (forall s s' t, body s = Some (s', t) -> P t) ->
  for_range n body st = Some (st', ts) -> Forall P ts.
Proof.
  induction n as [|n IH]; intros st st' ts HP H; simpl in H.
  - inversion H. constructor.
  - destruct (body st) as [[s1 t]|] eqn:Eb; [|discriminate].
    destruct (for_range n body s1) as [[s2 ts']|] eqn:E; [|discriminate].
    inversion H; subst. constructor; [eapply HP, Eb|eapply IH; eauto].
Qed.

Lemma for_range_appends {X : Type} body (f : S -> list X) (h : T -> list X) n :
  forall st st' ts,
  (forall s s' t, body s = Some (s', t) -> f s' = f s ++ h t) ->
  for_range n body st = Some (st', ts) -> f st' = f st ++ flat_map h ts.
Proof.
  induction n as [|n IH]; intros st st' ts Hf H; simpl in H.
  - inversion H; subst. simpl. now rewrite app_nil_r.
  - destruct (body st) as [[s1 t]|] eqn:Eb; [|discriminate].
    destruct (for_range n body s1) as [[s2 ts']|] eqn:E; [|discriminate].
    inversion H; subst. simpl. rewrite (IH _ _ _ Hf E), (Hf _ _ _ Eb).
    now rewrite app_assoc.
Qed.

Lemma for_range_total body n :
  (forall s, exists r, body s = Some r) ->
  forall st, exists r, for_range n body st = Some r.
Proof.
  intros Hb. induction n as [|n IH]; intros st; simpl.
  - eauto.
  - destruct (Hb st) as [[s1 t] ->]. destruct (IH s1) as [[s2 ts] ->]. eauto.
Qed.

Lemma for_range_mono body body' n :
  (forall s r, body s = Some r -> body' s = Some r) ->
  forall st r, for_range n body st = Some r -> for_range n body' st = Some r.
Proof.
  intros Hb. induction n as [|n IH]; intros st r H; simpl in *; [assumption|].
  destruct (body st) as [[s1 t]|] eqn:Eb; [|discriminate].
  rewrite (Hb _ _ Eb).
  destruct (for_range n body s1) as [[s2 ts']|] eqn:E; [|discriminate].
  now rewrite (IH _ _ E).
Qed.
End ForRange.

(** ** The branch generator *)

Section HyphaeFacts.
Import NumpyRandom ProceduralHyphae.
Local Open Scope Q_scope.
Variables (cos sin : Q -> Q) (PI : Q).

Local Abbreviation gen := (_generate_recursive cos sin PI).


(** Enough fuel: one unit per level, and one for the call that returns. *)
Lemma generate_recursive_total fuel : forall c st,
  (Z.to_nat (c_depth c) < fuel)%nat -> exists r, gen fuel c st = Some r.
Proof.
  induction fuel as [|fuel IH]; intros c [g self] Hf; [lia|].
  cbn [_generate_recursive]. destruct (c_depth c <=? 0)%Z eqn:Ed; [eauto|].
  apply Z.leb_gt in Ed.
  destruct (uniform _ _ g) as [jitter g1].
  destruct (uniform _ _ g1) as [da g2].
  destruct (uniform _ _ g2) as [dc g3].
  destruct (random g3) as [r g4].
  destruct (_ && _).
  - destruct (choice _ _ g4) as [nb g5].
    match goal with
    | |- context [for_range ?n ?b ?s] =>
        destruct (for_range_total b n) with (st := s) as [[st' calls] ->]
    end; [|eauto].
    intros [g' self']. destruct (uniform _ _ g') as [db g''].
    apply IH. cbn [c_depth]. lia.
  - match goal with
    | |- context [gen fuel ?c' ?s] => destruct (IH c' s) as [[st' t] ->]
    end; [cbn [c_depth]; lia|eauto].
Qed.

(** More fuel changes nothing. *)
Lemma generate_recursive_mono fuel : forall fuel' c st r,
  (fuel <= fuel')%nat -> gen fuel c st = Some r -> gen fuel' c st = Some r.
Proof.
  induction fuel as [|fuel IH]; intros fuel' c [g self] r Hle H; [discriminate|].
  destruct fuel' as [|fuel']; [lia|].
  cbn [_generate_recursive] in *. destruct (c_depth c <=? 0)%Z; [assumption|].
  destruct (uniform _ _ g) as [jitter g1].
  destruct (uniform _ _ g1) as [da g2].
  destruct (uniform _ _ g2) as [dc g3].
  destruct (random g3) as [x g4].
  destruct (_ && _).
  - destruct (choice _ _ g4) as [nb g5].
    match type of H with
    | context [for_range ?n ?b ?s] =>
        destruct (for_range n b s) as [[st' calls]|] eqn:E; [|discriminate]
    end.
    match goal with
    | |- context [for_range ?n ?b' ?s] =>
        assert (E' : for_range n b' s = Some (st', calls))
    end.
    { eapply for_range_mono; [|exact E].
      intros [g' self'] r'. destruct (uniform _ _ g') as [db g''].
      apply IH. lia. }
    rewrite E'. exact H.
  - match type of H with
    | context [gen fuel ?c' ?s] =>
        destruct (gen fuel c' s) as [[st' t]|] eqn:E; [|discriminate]
    end.
    rewrite (IH fuel' _ _ _ ltac:(lia) E). exact H.
Qed.

(** What every activation inside a tree satisfies. *)
Local Abbreviation all_nodes t :=
  (forall s, subtree s t ->
             node_depth_step s /\ node_linked s /\ node_follows_algorithm s).

Lemma subtree_inv s t :
  subtree s t ->
  s = t \/ match t with
           | Returned _ => False
           | Emitted _ _ _ _ calls => exists t', In t' calls /\ subtree s t'
           end.
Proof. intros [|c len e curve calls t' Hin Hsub]; eauto. Qed.

Lemma tree_curve_start t :
  node_linked t ->
  forall curve, tree_curve t = Some curve -> start_anchor curve = c_pos (tree_call t).
Proof.
  destruct t as [c|c len e curve calls]; intros H curve' E; [discriminate|].
  inversion E; subst. apply H.
Qed.

(** The run of one activation: its tree is rooted at its arguments, the
    curves it appended to [self.segments] and to the group's children are
    those of its tree, and each activation in the tree is as the code
    prescribes. *)
Lemma generate_recursive_spec fuel : forall c st st' t,
  gen fuel c st = Some (st', t) ->
  tree_call t = c
  /\ segments (snd st') = segments (snd st) ++ tree_curves t
  /\ submobjects (snd st') = submobjects (snd st) ++ tree_curves t
  /\ all_nodes t.
Proof.
  induction fuel as [|fuel IH]; intros c [g self] st' t H; [discriminate|].
  cbn [_generate_recursive] in H.
  destruct (c_depth c <=? 0)%Z eqn:Ed.
  { inversion H; subst. cbn [snd tree_call tree_curves]. rewrite !app_nil_r.
    repeat split; try reflexivity;
      destruct (subtree_inv _ _ H0) as [->|[]]; cbn; try apply Z.leb_le; auto. }
  apply Z.leb_gt in Ed.
  destruct (uniform _ _ g) as [jitter g1] eqn:Ej.
  destruct (uniform _ _ g1) as [da g2].
  destruct (uniform _ _ g2) as [dc g3].
  destruct (random g3) as [x g4].
  assert (Hjit : (85 # 100) <= jitter /\ jitter < (115 # 100)).
  { pose proof (uniform_range (85 # 100) (115 # 100) g ltac:(reflexivity)) as Hr.
    now rewrite Ej in Hr. }
  set (end_pos := vadd (c_pos c) _) in H.
  destruct (_ && _) eqn:Efork.
  - apply andb_true_iff in Efork. destruct Efork as [_ Efork].
    apply Z.ltb_lt in Efork.
    destruct (choice _ _ g4) as [nb g5] eqn:Ec.
    assert (Hnb : (1 <= Z.to_nat nb <= 3)%nat).
    { pose proof (choice_branches g4) as Hc. rewrite Ec in Hc. cbn in Hc.
      intuition lia. }
    match type of H with
    | context [for_range ?n ?b ?s0] =>
        destruct (for_range n b s0) as [[st'' calls]|] eqn:E; [|discriminate];
        pose proof (for_range_length _ _ _ _ _ E) as Hlen;
        assert (Hbody : forall s1 s2 t', b s1 = Some (s2, t') ->
                  (c_pos (tree_call t') = end_pos
                   /\ c_depth (tree_call t') = (c_depth c - 1)%Z
                   /\ c_length (tree_call t') = c_length c
                   /\ c_width (tree_call t') = c_width c
                   /\ c_branch_prob (tree_call t') = c_branch_prob c * (85 # 100))
                  /\ segments (snd s2) = segments (snd s1) ++ tree_curves t'
                  /\ submobjects (snd s2) = submobjects (snd s1) ++ tree_curves t'
                  /\ all_nodes t')
    end.
    { intros [g' self'] s2 t' Hb. destruct (uniform _ _ g') as [db g''].
      destruct (IH _ _ _ _ Hb) as (Hc & Hs & Hm & Hn).
      rewrite Hc. cbn [c_pos c_depth c_length c_width c_branch_prob]. auto 10. }
    inversion H; subst st' t; clear H.
    cbn [snd tree_call tree_curves].
    split; [reflexivity|].
    split.
    { rewrite (for_range_appends _ (fun s => segments (snd s)) tree_curves _ _ _ _
                 (fun s1 s2 t' Hb => proj1 (proj2 (Hbody s1 s2 t' Hb))) E).
      cbn [snd segments]. now rewrite <- app_assoc. }
    split.
    { rewrite (for_range_appends _ (fun s => submobjects (snd s)) tree_curves _ _ _ _
                 (fun s1 s2 t' Hb => proj1 (proj2 (proj2 (Hbody s1 s2 t' Hb)))) E).
      cbn [snd submobjects]. now rewrite <- app_assoc. }
    pose proof (for_range_Forall _ _ _ _ _ _
                  (fun s1 s2 t' Hb => conj (proj1 (Hbody s1 s2 t' Hb))
                                           (proj2 (proj2 (proj2 (Hbody s1 s2 t' Hb)))))
                  E) as Hcalls.
    rewrite List.Forall_forall in Hcalls.
    intros s Hs. destruct (subtree_inv _ _ Hs) as [->|(t' & Hin & Hsub)].
    + cbn [node_depth_step node_linked node_follows_algorithm
           start_anchor end_anchor stroke_width].
      repeat split; try assumption; try reflexivity; try lia.
      * apply List.Forall_forall. intros t' Hin. apply (Hcalls _ Hin).
      * apply List.Forall_forall. intros t' Hin.
        destruct (Hcalls _ Hin) as [(Hp & _) Hn]. split; [exact Hp|].
        intros curve' Ecurve. rewrite <- Hp.
        apply tree_curve_start; [|assumption]. apply Hn. constructor.
      * exists jitter. repeat split; try apply Hjit.
      * apply List.Forall_forall. intros t' Hin.
        destruct (Hcalls _ Hin) as [(_ & Hd & Hl & Hw & _) _]. auto.
      * right. split; [assumption|].
        apply List.Forall_forall. intros t' Hin.
        destruct (Hcalls _ Hin) as [(_ & _ & _ & _ & Hb) _]. exact Hb.
    + destruct (Hcalls _ Hin) as [_ Hn]. now apply Hn.
  - match type of H with
    | context [gen fuel ?c' ?s] =>
        destruct (gen fuel c' s) as [[st'' t']|] eqn:E; [|discriminate]
    end.
    destruct (IH _ _ _ _ E) as (Hc & Hs & Hm & Hn).
    inversion H; subst st' t; clear H.
    cbn [snd tree_call tree_curves flat_map]. rewrite app_nil_r.
    split; [reflexivity|].
    split; [rewrite Hs; cbn [snd segments]; now rewrite <- app_assoc|].
    split; [rewrite Hm; cbn [snd submobjects]; now rewrite <- app_assoc|].
    intros s Hsub. destruct (subtree_inv _ _ Hsub) as [->|(t'' & Hin & Hsub')].
    + cbn [node_depth_step node_linked node_follows_algorithm
           start_anchor end_anchor stroke_width length].
      rewrite !Forall_singleton, Hc. cbn [c_pos c_depth c_length c_width c_branch_prob].
      repeat split; try assumption; try reflexivity; try lia.
      * intros curve' Ecurve.
        rewrite (tree_curve_start t' (proj1 (proj2 (Hn t' (subtree_here _)))) _ Ecurve).
        now rewrite Hc.
      * exists jitter. repeat split; try apply Hjit.
      * left. split; reflexivity.
    + destruct Hin as [<-|[]]. now apply Hn.
Qed.
(** The curve of each activation of a run is drawn as the code prescribes:
    its chord has the drawn length. *)
Lemma generate_recursive_curves fuel : forall c st st' t,
  gen fuel c st = Some (st', t) ->
  forall s, subtree s t -> node_curve cos sin PI s.
Proof.
  induction fuel as [|fuel IH]; intros c [g self] st' t H; [discriminate|].
  cbn [_generate_recursive] in H.
  destruct (c_depth c <=? 0)%Z.
  { inversion H; subst. intros s Hs.
    destruct (subtree_inv _ _ Hs) as [->|[]]. exact I. }
  destruct (uniform _ _ g) as [jitter g1].
  pose proof (uniform_abs (- c_angle_var c * (3 # 10)) (c_angle_var c * (3 # 10))
                (Qabs (c_angle_var c) * (3 # 10)) g1) as Hda.
  destruct (uniform _ _ g1) as [da g2].
  pose proof (uniform_abs (- PI / 8) (PI / 8) (Qabs PI / 8) g2) as Hdc.
  destruct (uniform _ _ g2) as [dc g3].
  destruct (random g3) as [x g4].
  cbn [fst] in Hda, Hdc.
  assert (Hav := Qabs_bounds (c_angle_var c)).
  assert (Hpi := Qabs_bounds PI).
  assert (Hda' : Qabs da <= Qabs (c_angle_var c) * (3 # 10)).
  { apply Hda; apply Qabs_Qle_condition; split; lra. }
  assert (Hdc' : Qabs dc <= Qabs PI / 8).
  { assert (E1 : - PI / 8 == - PI * (1 # 8)) by reflexivity.
    assert (E2 : PI / 8 == PI * (1 # 8)) by reflexivity.
    assert (E3 : Qabs PI / 8 == Qabs PI * (1 # 8)) by reflexivity.
    apply Hdc; apply Qabs_Qle_condition; rewrite E3; [rewrite E1|rewrite E2];
      split; lra. }
  clear Hda Hdc Hav Hpi.
  assert (Hroot : forall calls,
             node_curve cos sin PI
               (Emitted c (c_length c * (8 # 10) ^ (6 - c_depth c) * jitter)
                  (vadd (c_pos c)
                     (smul (c_length c * (8 # 10) ^ (6 - c_depth c) * jitter)
                        (direction cos sin (c_angle c + da))))
                  {| start_anchor := c_pos c;
                     start_handle :=
                       vadd (vadd (c_pos c)
                               (vmul (vsub (vadd (c_pos c)
                                              (smul (c_length c * (8 # 10) ^ (6 - c_depth c) * jitter)
                                                 (direction cos sin (c_angle c + da))))
                                        (c_pos c)) (33 # 100)))
                         (smul (c_length c * (8 # 10) ^ (6 - c_depth c) * jitter * c_curvature c)
                            (direction cos sin (c_angle c + da + dc)));
                     end_handle :=
                       vadd (vadd (c_pos c)
                               (vmul (vsub (vadd (c_pos c)
                                              (smul (c_length c * (8 # 10) ^ (6 - c_depth c) * jitter)
                                                 (direction cos sin (c_angle c + da))))
                                        (c_pos c)) (67 # 100)))
                         (smul (c_length c * (8 # 10) ^ (6 - c_depth c) * jitter * c_curvature c)
                            (direction cos sin (c_angle c + da + dc + PI)));
                     end_anchor :=
                       vadd (c_pos c)
                         (smul (c_length c * (8 # 10) ^ (6 - c_depth c) * jitter)
                            (direction cos sin (c_angle c + da)));
                     stroke_color := c_color c;
                     stroke_width := c_width c * (85 # 100) ^ (6 - c_depth c);
                     stroke_opacity := 9 # 10 |} calls)).
  { intros calls. exists da, dc.
    cbn [start_anchor end_anchor start_handle end_handle stroke_color stroke_opacity].
    repeat split; assumption. }
  destruct (_ && _).
  - destruct (choice _ _ g4) as [nb g5].
    match type of H with
    | context [for_range ?n ?b ?s0] =>
        destruct (for_range n b s0) as [[st'' calls]|] eqn:E; [|discriminate];
        assert (Hbody : forall s1 s2 t', b s1 = Some (s2, t') ->
                  forall s, subtree s t' -> node_curve cos sin PI s)
    end.
    { intros [g' self'] s2 t' Hb. destruct (uniform _ _ g') as [db g''].
      eapply IH, Hb. }
    pose proof (for_range_Forall _ _ _ _ _ _ Hbody E) as Hcalls.
    rewrite List.Forall_forall in Hcalls.
    inversion H; subst st' t; clear H.
    intros s Hs. destruct (subtree_inv _ _ Hs) as [->|(t' & Hin & Hsub)].
    + apply Hroot.
    + apply (Hcalls _ Hin _ Hsub).
  - match type of H with
    | context [gen fuel ?c' ?s] =>
        destruct (gen fuel c' s) as [[st'' t']|] eqn:E; [|discriminate]
    end.
    inversion H; subst st' t; clear H.
    intros s Hs. destruct (subtree_inv _ _ Hs) as [->|(t'' & Hin & Hsub)].
    + apply Hroot.
    + destruct Hin as [<-|[]]. eapply IH; eassumption.
Qed.
End HyphaeFacts.


(** ** ProceduralHyphae: the claims *)

Section HyphaeClaims.
Import NumpyRandom ProceduralHyphae.
Local Open Scope Q_scope.
Variables (cos sin : Q -> Q) (PI : Q).

Local Abbreviation gen := (_generate_recursive cos sin PI).

(** The run that [__init__] starts, with its fuel. *)
Lemma generate_recursive_run c st :
  exists st' t,
    (forall fuel, (Z.to_nat (c_depth c) < fuel)%nat -> gen fuel c st = Some (st', t))
    /\ tree_call t = c
    /\ segments (snd st') = segments (snd st) ++ tree_curves t
    /\ submobjects (snd st') = submobjects (snd st) ++ tree_curves t
    /\ forall s, subtree s t ->
                 node_depth_step s /\ node_linked s /\ node_follows_algorithm s.
Proof.
  destruct (generate_recursive_total cos sin PI (S (Z.to_nat (c_depth c))) c st)
    as [[st' t] E]; [lia|].
  exists st', t. split.
  - intros fuel Hf. eapply generate_recursive_mono; [|exact E]. lia.
  - eapply generate_recursive_spec, E.
Qed.

Variable mt19937 : Z -> nat -> N.

(** What [__init__] builds: unless the seed is refused, an object whose
    segments (and children) are the curves of the run from [start] at angle
    [-PI/2], numbered in [growth_order]. *)
Lemma init_spec g start depth length av bp color sw curv seed :
  match __init__ cos sin PI mt19937 g start depth length av bp color sw curv seed with
  | None => exists s, seed = Some s /\ ~ (0 <= s < 2 ^ 32)%Z
  | Some (g', h, t) =>
      c_pos (tree_call t) = start
      /\ c_depth (tree_call t) = depth
      /\ h_segments h = tree_curves t
      /\ h_submobjects h = tree_curves t
      /\ growth_order h = seq 0 (List.length (tree_curves t))
      /\ forall s, subtree s t ->
                   node_depth_step s /\ node_linked s /\ node_follows_algorithm s
  end.
Proof.
  unfold __init__.
  set (c := {| c_pos := start; c_depth := depth |}).
  assert (Hgen : forall g0,
             match _generate_recursive cos sin PI (S (Z.to_nat depth)) c (g0, empty_self) with
             | Some (g', self, t) =>
                 tree_call t = c /\ segments self = tree_curves t
                 /\ submobjects self = tree_curves t
                 /\ forall s, subtree s t ->
                     node_depth_step s /\ node_linked s /\ node_follows_algorithm s
             | None => False
             end).
  { intros g0.
    destruct (generate_recursive_run c (g0, empty_self))
      as ([g' self] & t & Hrun & Hc & Hs & Hm & Hn).
    rewrite (Hrun (S (Z.to_nat depth))) by (subst c; cbn [c_depth]; lia).
    auto. }
  assert (Hfin : forall g0,
             match
               match _generate_recursive cos sin PI (S (Z.to_nat depth)) c (g0, empty_self) with
               | Some (g', self, t) =>
                   Some (g', {| h_submobjects := submobjects self;
                                h_segments := segments self;
                                growth_order := seq 0 (List.length (segments self)) |}, t)
               | None => None
               end
             with
             | None => False
             | Some (g', h, t) =>
                 c_pos (tree_call t) = start
                 /\ c_depth (tree_call t) = depth
                 /\ h_segments h = tree_curves t
                 /\ h_submobjects h = tree_curves t
                 /\ growth_order h = seq 0 (List.length (tree_curves t))
                 /\ forall s, subtree s t ->
                     node_depth_step s /\ node_linked s /\ node_follows_algorithm s
             end).
  { intros g0. specialize (Hgen g0).
    destruct (_generate_recursive _ _ _ _ c _) as [[[g' self] t]|]; [|contradiction].
    destruct Hgen as (Hc & Hs & Hm & Hn). cbn [h_segments h_submobjects growth_order].
    rewrite Hc, Hs, Hm. subst c. cbn [c_pos c_depth]. auto 10. }
  assert (Hrun : forall g0,
             match
               match _generate_recursive cos sin PI (S (Z.to_nat depth)) c (g0, empty_self) with
               | Some (g', self, t) =>
                   Some (g', {| h_submobjects := submobjects self;
                                h_segments := segments self;
                                growth_order := seq 0 (List.length (segments self)) |}, t)
               | None => None
               end
             with
             | None => exists s, seed = Some s /\ ~ (0 <= s < 2 ^ 32)%Z
             | Some (g', h, t) =>
                 c_pos (tree_call t) = start
                 /\ c_depth (tree_call t) = depth
                 /\ h_segments h = tree_curves t
                 /\ h_submobjects h = tree_curves t
                 /\ growth_order h = seq 0 (List.length (tree_curves t))
                 /\ forall s, subtree s t ->
                     node_depth_step s /\ node_linked s /\ node_follows_algorithm s
             end).
  { intros g0. specialize (Hfin g0).
    destruct (match _generate_recursive _ _ _ _ c _ with Some _ => _ | None => _ end)
      as [[[g' h] t]|]; [exact Hfin|contradiction]. }
  destruct seed as [s|]; [|apply Hrun].
  unfold seed. destruct (_ && _) eqn:E.
  - apply Hrun.
  - exists s. split; [reflexivity|]. intros [H1 H2].
    apply andb_false_iff in E. destruct E as [E|E]; [apply Z.leb_gt in E|apply Z.ltb_ge in E]; lia.
Qed.

(** C2. [_generate_recursive] terminates for every position, angle and integer
    depth: with one unit of fuel per level above zero (and one for the last
    call) it returns, whatever the arguments and the random draws; every call
    it makes, at any level of the recursion, has [depth] one less than its
    caller's; and with [depth <= 0] it returns at once, leaving the state as
    it was. *)
Theorem generate_recursive_terminates (c : Call) (st : State) :
  exists st' t,
    (forall fuel, (Z.to_nat (c_depth c) < fuel)%nat ->
                  _generate_recursive cos sin PI fuel c st = Some (st', t))
    /\ (forall s, subtree s t -> node_depth_step s)
    /\ ((c_depth c <= 0)%Z -> st' = st /\ t = Returned c).
Proof.
  destruct (generate_recursive_run c st) as (st' & t & Hrun & _ & _ & _ & Hn).
  exists st', t. split; [exact Hrun|]. split.
  - intros s Hs. apply (Hn s Hs).
  - intros Hd. specialize (Hrun (S (Z.to_nat (c_depth c))) ltac:(lia)).
    cbn [_generate_recursive] in Hrun.
    apply Z.leb_le in Hd. rewrite Hd in Hrun. now inversion Hrun.
Qed.

(** C3 (amended). Each call with [depth > 0] emits exactly one curve: its
    stroke width is [width * 0.85 ** (6 - depth)], and its length is
    [length * 0.8 ** (6 - depth)] times a jitter drawn for that curve in
    [[0.85, 1.15)]; it then makes one to three calls, each one level lower with
    the same base length and width; a call with [depth <= 0] emits nothing.
    The length is the one the curve is drawn with: the curve ends at its start
    plus that length times [(cos a, sin a, 0)], where [a] is the call's angle
    turned by at most 0.3 of the angle variation, and its handles sit at 0.33
    and 0.67 of that chord, pushed aside by the length times the curvature.
    The curves appended to [self.segments] are exactly those of the calls, in
    order. *)
Theorem generate_recursive_follows_algorithm (c : Call) (st : State) :
  exists st' t,
    _generate_recursive cos sin PI (S (Z.to_nat (c_depth c))) c st = Some (st', t)
    /\ tree_call t = c
    /\ segments (snd st') = segments (snd st) ++ tree_curves t
    /\ (forall s, subtree s t -> node_follows_algorithm s)
    /\ (forall s, subtree s t -> node_curve cos sin PI s).
Proof.
  destruct (generate_recursive_run c st) as (st' & t & Hrun & Hc & Hs & _ & Hn).
  exists st', t.
  assert (E : _generate_recursive cos sin PI (S (Z.to_nat (c_depth c))) c st
              = Some (st', t)) by (apply Hrun; lia).
  split; [exact E|]. split; [exact Hc|]. split; [exact Hs|]. split.
  - intros s Hsub. apply (Hn s Hsub).
  - exact (generate_recursive_curves cos sin PI _ _ _ _ _ E).
Qed.

(** C4. In every structure [ProceduralHyphae] produces, each curve starts at
    the position its call was given, and each call made receives the end
    point of its caller's curve, so a child segment starts where its parent
    ends: for any run of [_generate_recursive], and for the object that
    [__init__] builds (whose segments are the curves of such a run). *)
Theorem child_segment_starts_at_parent_end :
  (forall (c : Call) (st : State),
      exists st' t,
        _generate_recursive cos sin PI (S (Z.to_nat (c_depth c))) c st = Some (st', t)
        /\ segments (snd st') = segments (snd st) ++ tree_curves t
        /\ (forall s, subtree s t -> node_linked s))
  /\ (forall g start depth length av bp color sw curv seed g' h t,
         __init__ cos sin PI mt19937 g start depth length av bp color sw curv seed
         = Some (g', h, t) ->
         h_segments h = tree_curves t
         /\ c_pos (tree_call t) = start
         /\ (forall s, subtree s t -> node_linked s)).
Proof.
  split.
  - intros c st.
    destruct (generate_recursive_run c st) as (st' & t & Hrun & Hc & Hs & _ & Hn).
    exists st', t.
    split; [apply Hrun; lia|]. split; [exact Hs|].
    intros s Hsub. apply (Hn s Hsub).
  - intros g start depth length av bp color sw curv seed g' h t E.
    pose proof (init_spec g start depth length av bp color sw curv seed) as H.
    rewrite E in H. destruct H as (Hp & _ & Hs & _ & _ & Hn).
    split; [exact Hs|]. split; [exact Hp|].
    intros s Hsub. apply (Hn s Hsub).
Qed.

End HyphaeClaims.

Section HyphaeSamples.
Import NumpyRandom ProceduralHyphae.
Local Open Scope Q_scope.

(** The sample run, whatever the trigonometry: the parent's jitter is the
    lowest (length 0.34816), the child's is 1.075 (length 0.352256). *)
Lemma straight_run_lengths (cos sin : Q -> Q) (PI : Q) :
  option_map (fun r => map Qred (tree_lengths (snd r)))
    (_generate_recursive cos sin PI 3 straight_call
       (draws_zero_but 4 (3 * 2 ^ 51), empty_self))
  = Some [1088 # 3125; 5504 # 15625].
Proof. vm_compute. reflexivity. Qed.

(** The sample pair of constructions: two curves, then three. *)
Lemma construct_twice_counts (cos sin : Q -> Q) (PI : Q) (mt : Z -> nat -> N) :
  option_map (fun p => (List.length (h_segments (fst p)),
                        List.length (h_segments (snd p))))
    (construct_twice cos sin PI mt (draws_zero_but 14 (2 ^ 52))
       ORIGIN 2 (12 # 10) 1 (7 # 10) None (25 # 10) (15 # 100))
  = Some (2%nat, 3%nat).
Proof. vm_compute. reflexivity. Qed.

(** C3, as stated, fails: lengths do not shrink by a fixed factor per level.
    In the sample run (two levels, no fork; the child's jitter draw is 0.75,
    all other draws 0) the child's curve is longer than its parent's, so no
    factor below 1 relates them. *)
Lemma segment_lengths_do_not_decay :
  ~ (forall (cos sin : Q -> Q) (PI : Q),
        exists factor, factor < 1 /\
          forall st' t,
            _generate_recursive cos sin PI 3 straight_call
              (draws_zero_but 4 (3 * 2 ^ 51), empty_self) = Some (st', t) ->
            forall s, subtree s t -> node_decays factor s).
Proof.
  intros H.
  destruct (H (fun _ => 0) (fun _ => 0) 0) as (factor & Hlt & Hall).
  destruct (_generate_recursive _ _ _ 3 straight_call _) as [[st' t]|] eqn:E;
    [|vm_compute in E; discriminate].
  specialize (Hall st' t eq_refl t (subtree_here t)).
  vm_compute in E. inversion E; subst t; clear E.
  cbn [node_decays] in Hall. rewrite Forall_singleton in Hall.
  revert Hall Hlt. unfold Qeq, Qlt. cbn [Qnum Qden Qmult].
  destruct factor as [n d]. cbn [Qnum Qden]. lia.
Qed.

(** C5, as stated, fails without a seed: constructing the same hyphae twice in
    a row (same arguments, no seed) from the sample generator gives two
    curves the first time and three the second. *)
Lemma unseeded_constructions_differ :
  ~ (forall (cos sin : Q -> Q) (PI : Q) (mt : Z -> nat -> N) first second,
        construct_twice cos sin PI mt (draws_zero_but 14 (2 ^ 52))
          ORIGIN 2 (12 # 10) 1 (7 # 10) None (25 # 10) (15 # 100)
        = Some (first, second) ->
        h_segments first = h_segments second).
Proof.
  intros H.
  pose proof (construct_twice_counts (fun _ => 0) (fun _ => 0) 0 (fun _ _ => 0%N)) as Hc.
  destruct (construct_twice _ _ _ _ _ _ _ _ _ _ _ _ _) as [[first second]|] eqn:E;
    [|discriminate].
  specialize (H _ _ _ _ _ _ E).
  cbn [option_map fst snd] in Hc. rewrite H in Hc. inversion Hc. lia.
Qed.

(** C5 (amended). With a seed, [ProceduralHyphae] is deterministic: the
    object built, the run and the generator state left behind depend on the
    arguments only, not on the generator state the constructor found.  The
    word wrap reads nothing but its arguments. *)
Theorem seeded_hyphae_and_word_wrap_deterministic :
  (forall (cos sin : Q -> Q) (PI : Q) (mt : Z -> nat -> N) (g1 g2 : RandomState)
          start depth length av bp color sw curv (s : Z),
      __init__ cos sin PI mt g1 start depth length av bp color sw curv (Some s)
      = __init__ cos sin PI mt g2 start depth length av bp color sw curv (Some s)
      /\ ((0 <= s < 2 ^ 32)%Z ->
          exists r, __init__ cos sin PI mt g1 start depth length av bp color sw curv
                             (Some s) = Some r))
  /\ (forall t1 t2 w1 w2 f1 f2,
         t1 = t2 -> w1 = w2 -> f1 = f2 ->
         AdaptiveSubtitle.create_subtitle t1 w1 f1
         = AdaptiveSubtitle.create_subtitle t2 w2 f2).
Proof.
  split.
  - intros. split.
    + unfold __init__. destruct (NumpyRandom.seed mt s); reflexivity.
    + intros Hs.
      pose proof (init_spec cos sin PI mt g1 start depth length av bp color sw curv
                    (Some s)) as H.
      destruct (__init__ _ _ _ _ _ _ _ _ _ _ _ _ _ _) as [r|]; [eauto|].
      destruct H as (s' & E & Hn). inversion E; subst. lia.
  - intros; subst; reflexivity.
Qed.
End HyphaeSamples.


(** ** generate_all_audio *)

Section Audio.
Import MycorrhizalDocumentary.
Local Open Scope string_scope.
Local Open Scope list_scope.

Local Abbreviation path_of seg := (audio_path (snd seg)).
Local Abbreviation request text :=
  {| tts_text := text; lang := "en"; tld := "co.uk"; slow := false |}.

Lemma generate_audio_hit w seg :
  exists_ w (path_of seg) = true -> generate_audio w seg = w.
Proof.
  destruct seg as [text name]. unfold generate_audio. cbv zeta. cbn [snd].
  now intros ->.
Qed.

Lemma generate_audio_miss w text name :
  exists_ w (audio_path name) = false ->
  generate_audio w (text, name)
  = save (request text) (audio_path name) (print ("Generating audio: " ++ name)%string w).
Proof. unfold generate_audio. cbv zeta. now intros ->. Qed.

Lemma exists_save tts p w q :
  exists_ (save tts p w) q = exists_ w q || bool_decide (p = q).
Proof.
  unfold exists_, save. cbn [dirs files].
  destruct (decide (p = q)) as [->|Hne].
  - rewrite lookup_insert_eq, (bool_decide_eq_true_2 (q = q)) by reflexivity.
    rewrite (bool_decide_eq_true_2 (is_Some (Some _))) by eauto.
    now rewrite !orb_true_r.
  - rewrite lookup_insert_ne by assumption.
    rewrite (bool_decide_eq_false_2 (p = q)) by assumption. now rewrite orb_false_r.
Qed.

Lemma generate_audio_other w seg p :
  p <> path_of seg ->
  exists_ (generate_audio w seg) p = exists_ w p
  /\ files (generate_audio w seg) !! p = files w !! p.
Proof.
  destruct seg as [text name]. cbn [snd]. intros Hne.
  destruct (exists_ w (audio_path name)) eqn:E.
  - now rewrite (generate_audio_hit w (text, name)).
  - rewrite generate_audio_miss by assumption. split.
    + rewrite exists_save. rewrite bool_decide_eq_false_2 by congruence.
      now rewrite orb_false_r.
    + unfold save, print. cbn [files]. apply lookup_insert_ne. congruence.
Qed.

Lemma generate_audio_keeps w seg p :
  exists_ w p = true ->
  exists_ (generate_audio w seg) p = true
  /\ files (generate_audio w seg) !! p = files w !! p.
Proof.
  intros Hp. destruct (decide (p = path_of seg)) as [->|Hne].
  - now rewrite generate_audio_hit.
  - destruct (generate_audio_other w seg p Hne) as [-> ->]. auto.
Qed.


Lemma fold_keeps segs : forall w p,
  exists_ w p = true ->
  exists_ (fold_left generate_audio segs w) p = true
  /\ files (fold_left generate_audio segs w) !! p = files w !! p.
Proof.
  induction segs as [|seg segs IH]; intros w p Hp; cbn [fold_left]; [auto|].
  destruct (generate_audio_keeps w seg p Hp) as [H1 H2].
  destruct (IH _ _ H1) as [H3 H4]. split; [assumption|congruence].
Qed.



(** After the loop every segment's file is there. *)
Lemma fold_makes_present segs : forall w seg,
  In seg segs -> exists_ (fold_left generate_audio segs w) (path_of seg) = true.
Proof.
  induction segs as [|s segs IH]; intros w seg Hin; [contradiction|].
  cbn [fold_left]. destruct Hin as [->|Hin]; [|now apply IH].
  apply fold_keeps. destruct seg as [text name]. cbn [snd].
  destruct (exists_ w (audio_path name)) eqn:E.
  - now rewrite (generate_audio_hit w (text, name)).
  - rewrite generate_audio_miss, exists_save by assumption.
    rewrite bool_decide_eq_true_2 by reflexivity. apply orb_true_r.
Qed.



Lemma fold_other segs : forall w p,
  ~ In p (map (fun seg => path_of seg) segs) ->
  exists_ (fold_left generate_audio segs w) p = exists_ w p
  /\ files (fold_left generate_audio segs w) !! p = files w !! p.
Proof.
  induction segs as [|seg segs IH]; intros w p Hp; cbn [fold_left]; [auto|].
  cbn [map In] in Hp.
  destruct (IH (generate_audio w seg) p) as [-> ->]; [tauto|].
  apply generate_audio_other. intros ->. tauto.
Qed.



Lemma exists_makedirs w w0 p :
  makedirs "audio" w = Some w0 -> p <> "audio" ->
  exists_ w0 p = exists_ w p /\ files w0 = files w
  /\ saved w0 = saved w /\ stdout w0 = stdout w.
Proof.
  unfold makedirs. destruct (files w !! "audio"); [discriminate|].
  intros E Hp. inversion E; subst w0; clear E. unfold exists_. cbn [dirs files saved stdout].
  repeat split. f_equal. apply bool_decide_ext.
  rewrite elem_of_union, elem_of_singleton. tauto.
Qed.


End Audio.


(** ** DifficultyLevel *)

Section Difficulty.
Import DifficultyLevel.

(** C9. [next] and [previous] return a level for every level (no [ValueError],
    no [IndexError]): [next] moves up one level and stays at [EXPERT],
    [previous] moves down one level and stays at [BEGINNER]; so both stay
    within the enumeration and repeat their result at their end. *)
Theorem next_previous_clamp :
  (forall l, next l = Some match l with
                           | BEGINNER => INTERMEDIATE
                           | INTERMEDIATE => ADVANCED
                           | ADVANCED => EXPERT
                           | EXPERT => EXPERT
                           end)
  /\ (forall l, previous l = Some match l with
                                  | BEGINNER => BEGINNER
                                  | INTERMEDIATE => BEGINNER
                                  | ADVANCED => INTERMEDIATE
                                  | EXPERT => ADVANCED
                                  end)
  /\ (forall l l', next l = Some l' ->
                   In l' members
                   /\ value l' = Z.min (value l + 1) 4
                   /\ (l = EXPERT -> next l' = Some l'))
  /\ (forall l l', previous l = Some l' ->
                   In l' members
                   /\ value l' = Z.max (value l - 1) 1
                   /\ (l = BEGINNER -> previous l' = Some l')).
Proof.
  split; [intros []; reflexivity|].
  split; [intros []; reflexivity|].
  split; intros [] l' E; vm_compute in E; inversion E; subst l';
    (split; [cbn; tauto|split; [reflexivity|]]);
    first [discriminate | reflexivity].
Qed.
End Difficulty.

(** ** EducationalScene *)

Section SceneFrame.
Import Edu.
Variables (Engine Mobject : Type).

Local Abbreviation scene := (EducationalScene Engine Mobject).

(** C7. Each metadata add operation appends its argument to its own list and
    changes nothing else in the scene: [add_objective] appends to
    [objectives] and returns the objective, [add_concept] appends to
    [concepts] and returns the concept, [add_prerequisite] appends to
    [prerequisites] (and returns nothing); in each case the two other lists
    and every other field are as before. *)
Theorem add_operations_only_append (s : scene) :
  (forall o,
      snd (add_objective _ _ s o) = o
      /\ objectives _ _ (fst (add_objective _ _ s o)) = objectives _ _ s ++ [o]
      /\ concepts _ _ (fst (add_objective _ _ s o)) = concepts _ _ s
      /\ prerequisites _ _ (fst (add_objective _ _ s o)) = prerequisites _ _ s
      /\ same_elsewhere _ _ s (fst (add_objective _ _ s o)))
  /\ (forall c,
         snd (add_concept _ _ s c) = c
         /\ concepts _ _ (fst (add_concept _ _ s c)) = concepts _ _ s ++ [c]
         /\ objectives _ _ (fst (add_concept _ _ s c)) = objectives _ _ s
         /\ prerequisites _ _ (fst (add_concept _ _ s c)) = prerequisites _ _ s
         /\ same_elsewhere _ _ s (fst (add_concept _ _ s c)))
  /\ (forall p,
         prerequisites _ _ (fst (add_prerequisite _ _ s p)) = prerequisites _ _ s ++ [p]
         /\ objectives _ _ (fst (add_prerequisite _ _ s p)) = objectives _ _ s
         /\ concepts _ _ (fst (add_prerequisite _ _ s p)) = concepts _ _ s
         /\ same_elsewhere _ _ s (fst (add_prerequisite _ _ s p))).
Proof.
  unfold same_elsewhere. repeat split.
Qed.

(** Any script of additions: each list grows by what was added to it, in
    order, and nothing else changes. *)
Lemma add_script_only_appends (ops : list (AddOp)) : forall s : scene,
  let s' := fold_left (run_add _ _) ops s in
  objectives _ _ s' = objectives _ _ s ++ added_objectives ops
  /\ concepts _ _ s' = concepts _ _ s ++ added_concepts ops
  /\ prerequisites _ _ s' = prerequisites _ _ s ++ added_prerequisites ops
  /\ same_elsewhere _ _ s s'.
Proof.
  induction ops as [|op ops IH]; intros s; cbn [fold_left].
  - cbn. rewrite !app_nil_r. unfold same_elsewhere. repeat split.
  - destruct (IH (run_add _ _ s op)) as (Ho & Hc & Hp & He).
    cbv zeta. rewrite Ho, Hc, Hp. unfold same_elsewhere in *.
    destruct op; cbn [run_add fst add_objective add_concept add_prerequisite
                      objectives concepts prerequisites
                      added_objectives added_concepts added_prerequisites flat_map
                      engine scene_id title description duration difficulty
                      interactions interactive_state assessments quiz_results
                      narrative current_subtitle export_data] in *;
      rewrite <- ?app_assoc; cbn [app]; intuition congruence.
Qed.
End SceneFrame.

(** ** create_network_stats *)

Section NetworkStats.
Import DataVisualization.
Local Open Scope Q_scope.

Lemma divisor_value (n : Z) :
  divisor n = Some (inject_Z (n * (n - 1)) / 2).
Proof. reflexivity. Qed.

Lemma divisor_zero_iff (n : Z) :
  inject_Z (n * (n - 1)) / 2 == 0 <-> n = 0%Z \/ n = 1%Z.
Proof.
  unfold Qeq, Qdiv, Qmult, Qinv, inject_Z. cbn [Qnum Qden]. nia.
Qed.

(** C10. The efficiency is [edge_count] over [node_count * (node_count - 1) / 2],
    times 100.  That divisor is zero exactly when [node_count] is 0 or 1 (then
    the division raises); so for [node_count >= 2] it is not zero and the
    efficiency is computed. *)
Theorem efficiency_defined_iff_divisor_nonzero (node_count edge_count : Z) :
  divisor node_count = Some (inject_Z (node_count * (node_count - 1)) / 2)
  /\ (inject_Z (node_count * (node_count - 1)) / 2 == 0
      <-> node_count = 0%Z \/ node_count = 1%Z)
  /\ (efficiency node_count edge_count = None
      <-> node_count = 0%Z \/ node_count = 1%Z)
  /\ ((2 <= node_count)%Z ->
      ~ inject_Z (node_count * (node_count - 1)) / 2 == 0
      /\ efficiency node_count edge_count
         = Some (inject_Z edge_count / (inject_Z (node_count * (node_count - 1)) / 2)
                 * 100)
      /\ create_network_stats node_count edge_count
         = Some (node_count, edge_count,
                 inject_Z edge_count / (inject_Z (node_count * (node_count - 1)) / 2)
                 * 100)).
Proof.
  pose proof (divisor_zero_iff node_count) as Hz.
  split; [reflexivity|]. split; [exact Hz|].
  assert (He : efficiency node_count edge_count
               = if Qeq_bool (inject_Z (node_count * (node_count - 1)) / 2) 0
                 then None
                 else Some (inject_Z edge_count
                            / (inject_Z (node_count * (node_count - 1)) / 2) * 100)).
  { unfold efficiency, divisor, truediv. cbn [Qeq_bool].
    change (Qeq_bool 2 0) with false. cbv iota.
    now destruct (Qeq_bool _ 0). }
  split.
  - rewrite He. destruct (Qeq_bool _ 0) eqn:E.
    + apply Qeq_bool_iff in E. tauto.
    + split; [discriminate|]. intros H. apply Hz in H.
      apply Qeq_bool_iff in H. congruence.
  - intros Hn.
    assert (Hnz : ~ inject_Z (node_count * (node_count - 1)) / 2 == 0).
    { rewrite Hz. lia. }
    split; [exact Hnz|].
    assert (E : Qeq_bool (inject_Z (node_count * (node_count - 1)) / 2) 0 = false).
    { destruct (Qeq_bool _ 0) eqn:E; [|reflexivity]. apply Qeq_bool_iff in E. tauto. }
    unfold create_network_stats. rewrite He, E. auto.
Qed.

(** C10 at three nodes and two edges: two thirds of the possible edges. *)
Lemma efficiency_three_nodes_two_edges :
  ~ inject_Z (3 * (3 - 1)) / 2 == 0
  /\ efficiency 3 2 = Some (inject_Z 2 / (inject_Z (3 * (3 - 1)) / 2) * 100)
  /\ create_network_stats 3 2
     = Some (3%Z, 2%Z, inject_Z 2 / (inject_Z (3 * (3 - 1)) / 2) * 100).
Proof.
  apply (proj2 (proj2 (proj2 (efficiency_defined_iff_divisor_nonzero 3 2)))). lia.
Defined.
End NetworkStats.


(** ** More on the word wrap *)

Section WordWrapShape.
Import PyStr AdaptiveSubtitle.

(** A line made of words joined by single spaces. *)
Local Abbreviation line_of_words l :=
  (exists g, g <> [] /\ Forall is_word g /\ l = join space g).

Lemma greedy_lines_snoc budget (l' : str) : forall ls,
  greedy_lines budget (ls ++ [l'])
  <-> greedy_lines budget ls
      /\ (forall l, last ls = Some l ->
                    forall w ws, split l' = w :: ws ->
                                 (budget < len (l ++ space ++ w))%Z).
Proof.
  induction ls as [|l1 ls IH].
  - cbn. split; [intros _; split; [exact I|discriminate]|auto].
  - destruct ls as [|l2 ls].
    + cbn. split.
      * intros [H _]. split; [exact I|]. intros l [= <-]. exact H.
      * intros [_ H]. split; [|exact I]. apply H. reflexivity.
    + change (greedy_lines budget ((l1 :: l2 :: ls) ++ [l']))
        with ((forall w ws, split l2 = w :: ws -> (budget < len (l1 ++ space ++ w))%Z)
              /\ greedy_lines budget ((l2 :: ls) ++ [l'])).
      change (greedy_lines budget (l1 :: l2 :: ls))
        with ((forall w ws, split l2 = w :: ws -> (budget < len (l1 ++ space ++ w))%Z)
              /\ greedy_lines budget (l2 :: ls)).
      change (last (l1 :: l2 :: ls)) with (last (l2 :: ls)).
      rewrite IH. tauto.
Qed.

Lemma split_from_nil_iff (s : str) : forall cur,
  split_from cur s = [] <-> cur = [] /\ Forall (fun c => isspace c = true) s.
Proof.
  induction s as [|c s IH]; intros cur; simpl.
  - destruct cur; split; try discriminate; try tauto.
    + intros _. split; [reflexivity|constructor].
    + intros [H _]. discriminate.
  - destruct (isspace c) eqn:Hc.
    + destruct cur as [|a cur].
      * rewrite IH. split; intros [H1 H2]; split; auto.
        now inversion H2.
      * split; [discriminate|]. intros [H _]. discriminate.
    + rewrite IH. split.
      * intros [H _]. destruct cur; discriminate.
      * intros [_ H]. inversion H; congruence.
Qed.

(** The loop keeps: finished lines are lines of words, greedily full, and
    the first word of the line being filled did not fit on the last
    finished line. *)
Lemma wrap_fold_shape budget ws : forall lines cur,
  Forall is_word ws -> Forall is_word cur ->
  (cur = [] -> lines = []) ->
  Forall (fun l => line_of_words l) lines ->
  greedy_lines budget lines ->
  (forall l w, last lines = Some l -> head cur = Some w ->
               (budget < len (l ++ space ++ w))%Z) ->
  let r := fold_left (wrap_word budget) ws (lines, cur) in
  Forall is_word (snd r)
  /\ (snd r = [] -> fst r = [])
  /\ Forall (fun l => line_of_words l) (fst r)
  /\ greedy_lines budget (fst r)
  /\ (forall l w, last (fst r) = Some l -> head (snd r) = Some w ->
                  (budget < len (l ++ space ++ w))%Z).
Proof.
  induction ws as [|w ws IH]; intros lines cur Hws Hcur Hnil Hlines Hg Hlast;
    cbn [fold_left].
  - cbv zeta. cbn [fst snd]. auto.
  - inversion Hws as [|? ? Hw Hws']; subst.
    destruct (wrap_word budget (lines, cur) w) as [lines' cur'] eqn:Est.
    unfold wrap_word in Est.
    destruct (len (join space (cur ++ [w])) <=? budget)%Z eqn:E.
    + apply pair_equal_spec in Est; destruct Est as [<- <-].
      apply IH; [assumption| | |assumption|assumption|].
      * apply Forall_app. split; [assumption|]. now constructor.
      * intros H. destruct cur; discriminate.
      * intros l w' Hl Hh. destruct cur as [|x cur].
        -- rewrite (Hnil eq_refl) in Hl. discriminate.
        -- apply (Hlast l w' Hl). exact Hh.
    + apply Z.leb_gt in E. destruct cur as [|x cur].
      * apply pair_equal_spec in Est; destruct Est as [<- <-].
        apply IH; [assumption| | |assumption|assumption|].
        -- now constructor.
        -- discriminate.
        -- intros l w' Hl. rewrite (Hnil eq_refl) in Hl. discriminate.
      * apply pair_equal_spec in Est; destruct Est as [<- <-].
        apply IH; [assumption| | | | |].
        -- now constructor.
        -- discriminate.
        -- apply Forall_app. split; [assumption|]. constructor; [|constructor].
           exists (x :: cur). split; [discriminate|]. auto.
        -- apply greedy_lines_snoc. split; [assumption|].
           intros l Hl w' ws' Hs. rewrite split_join in Hs by assumption.
           inversion Hs; subst. apply (Hlast l w' Hl). reflexivity.
        -- intros l w' Hl Hh. rewrite last_snoc in Hl. inversion Hl; subst.
           cbn in Hh. inversion Hh; subst.
           rewrite join_snoc in E. exact E.
Qed.

Lemma wrap_lines_shape (t : str) (max_width : Q) :
  Forall (fun l => line_of_words l) (wrap_lines t max_width)
  /\ greedy_lines (chars_per_line max_width) (wrap_lines t max_width).
Proof.
  unfold wrap_lines.
  destruct (wrap_fold_shape (chars_per_line max_width) (split t) [] [])
    as (Hc & Hn & Hl & Hg & Hlast);
    [apply split_words|constructor|reflexivity|constructor|exact I|discriminate|].
  destruct (fold_left _ _ _) as [lines cur]. cbn [fst snd] in *.
  destruct cur as [|x cur]; [auto|]. split.
  - apply Forall_app. split; [assumption|]. constructor; [|constructor].
    exists (x :: cur). split; [discriminate|]. auto.
  - apply greedy_lines_snoc. split; [assumption|].
    intros l Hl' w ws Hs. rewrite split_join in Hs by assumption.
    inversion Hs; subst. apply (Hlast l w Hl'). reflexivity.
Qed.

(** X1. Every line [create_subtitle] produces is its own words joined by
    single spaces (so it is not empty and has no space at either end), and
    the lines are greedily full: the first word of each line after the
    first did not fit, with a space, at the end of the line before. *)
Theorem lines_are_normal_and_greedy (t : str) (max_width : Q) (fs : Z) :
  let lines := map text (create_subtitle t max_width fs) in
  Forall (fun l => l <> [] /\ split l <> [] /\ join space (split l) = l) lines
  /\ greedy_lines (chars_per_line max_width) lines
  /\ (length lines <= length (split t))%nat.
Proof.
  cbv zeta. rewrite create_subtitle_text.
  destruct (wrap_lines_shape t max_width) as [Hl Hg].
  split; [|split; [exact Hg|]].
  - eapply Forall_impl; [exact Hl|]. intros l (g & Hne & Hw & ->).
    rewrite split_join by assumption.
    split; [|split; [assumption|reflexivity]].
    destruct g as [|w g]; [contradiction|].
    inversion Hw as [|? ? [Hwne _] _]; subst.
    destruct g; cbn; [assumption|]. destruct w; [contradiction|discriminate].
  - rewrite <- (wrap_lines_words t max_width).
    clear Hg. induction (wrap_lines t max_width) as [|l ls IH]; [cbn; lia|].
    inversion Hl as [|? ? (g & Hne & Hw & ->) Hl']; subst.
    cbn [map List.concat length]. rewrite split_join by assumption.
    rewrite length_app. specialize (IH Hl').
    destruct g; [contradiction|]. cbn [length]. lia.
Qed.

(** X2. [create_subtitle] produces no line at all exactly when the text has
    no word: it is empty or consists of whitespace only. *)
Theorem no_lines_iff_no_words (t : str) (max_width : Q) (fs : Z) :
  create_subtitle t max_width fs = []
  <-> Forall (fun c => isspace c = true) t.
Proof.
  assert (H : create_subtitle t max_width fs = [] <-> split t = []).
  { split; intros E.
    - rewrite <- (wrap_lines_words t max_width).
      rewrite <- (create_subtitle_text t max_width fs), E. reflexivity.
    - unfold create_subtitle, wrap_lines. rewrite E. reflexivity. }
  rewrite H. unfold split. rewrite split_from_nil_iff. tauto.
Qed.
End WordWrapShape.


(** ** display_subtitles *)

Section DisplaySubtitles.
Import PyStr PyNum AdaptiveSubtitle.
Local Open Scope Q_scope.








Local Abbreviation subtitle_of line := (create_subtitle line 12 28).




End DisplaySubtitles.


(** ** PerformanceOptimizer *)

Section ParticleCount.
Import PerformanceOptimizer.
Local Open Scope Z_scope.

(** X5. [get_particle_count] never goes below 5 at low and 8 at medium
    density, and is the identity at any other setting; it is monotone in
    [base_count]; and from [base_count = 16] on, a lower density never
    gives more particles (below that the floors 5 and 8 can exceed the
    count asked for). *)
Theorem particle_count_floors_and_order (base_count : Z) :
  let low := get_particle_count "low" base_count in
  let medium := get_particle_count "medium" base_count in
  (5 <= low /\ (15 <= base_count -> low = base_count / 3))
  /\ (8 <= medium /\ (16 <= base_count -> medium = base_count / 2))
  /\ (forall density, density <> "low"%string -> density <> "medium"%string ->
                      get_particle_count density base_count = base_count)
  /\ (forall density b', base_count <= b' ->
                         get_particle_count density base_count
                         <= get_particle_count density b')
  /\ (16 <= base_count -> low <= medium <= base_count).
Proof.
  cbv zeta. unfold get_particle_count. cbn [String.eqb Ascii.eqb Bool.eqb].
  split; [split; [lia|]|split; [split; [lia|]|split; [|split]]].
  - intros H. pose proof (Z.div_le_lower_bound base_count 3 5). lia.
  - intros H. pose proof (Z.div_le_lower_bound base_count 2 8). lia.
  - intros density H1 H2.
    destruct (String.eqb_spec density "low"); [contradiction|].
    destruct (String.eqb_spec density "medium"); [contradiction|reflexivity].
  - intros density b' Hle.
    pose proof (Z.div_le_mono base_count b' 3 ltac:(lia) Hle).
    pose proof (Z.div_le_mono base_count b' 2 ltac:(lia) Hle).
    destruct (String.eqb density "low"); [lia|].
    destruct (String.eqb density "medium"); lia.
  - intros H.
    pose proof (Z.div_le_lower_bound base_count 2 8 ltac:(lia) ltac:(lia)).
    assert (base_count / 3 <= base_count / 2).
    { apply Z.div_le_lower_bound; [lia|].
      pose proof (Z.mul_div_le base_count 3 ltac:(lia)).
      pose proof (Z.mod_pos_bound base_count 2 ltac:(lia)).
      pose proof (Z.div_mod base_count 2 ltac:(lia)).
      pose proof (Z.mod_pos_bound base_count 3 ltac:(lia)).
      pose proof (Z.div_mod base_count 3 ltac:(lia)). lia. }
    assert (base_count / 2 <= base_count).
    { pose proof (Z.mod_pos_bound base_count 2 ltac:(lia)).
      pose proof (Z.div_mod base_count 2 ltac:(lia)). lia. }
    lia.
Qed.
End ParticleCount.


(** ** create_animated_chart *)

Section Chart.
Import PyNum DataVisualization.
Local Open Scope Q_scope.



Lemma pymax_list_none (values : list Q) : pymax_list values = None <-> values = [].
Proof.
  destruct values as [|v values]; cbn; [tauto|].
  destruct (pymax_list values); split; discriminate.
Qed.

Lemma truediv_some (a b : Q) : ~ b == 0 -> truediv a b = Some (a / b).
Proof.
  intros H. unfold truediv. destruct (Qeq_bool b 0) eqn:E; [|reflexivity].
  apply Qeq_bool_iff in E. contradiction.
Qed.

Lemma truediv_none (a b : Q) : b == 0 -> truediv a b = None.
Proof. intros H. unfold truediv. apply Qeq_bool_iff in H. now rewrite H. Qed.

(** The bars of a chart whose divisor is not zero and that has colours. *)
Lemma chart_bars_ok (max_val : Q) (c0 : string) (colors : list string) (n : nat)
    (items : list (string * Q)) : forall i,
  ~ max_val == 0 ->
  exists bars,
    chart_bars max_val (c0 :: colors) n i items = inr bars
    /\ map bar_label bars = map fst items
    /\ map bar_value bars = map snd items
    /\ Forall (fun b => bar_height b = bar_value b / max_val * 3) bars
    /\ (forall k b, nth_error bars k = Some b ->
                    bar_color b = nth ((i + k) mod length (c0 :: colors))%nat
                                      (c0 :: colors) c0
                    /\ bar_shift b
                       == inject_Z (Z.of_nat (i + k)) - inject_Z (Z.of_nat n) / 2).
Proof.
  intros i Hm. revert i. induction items as [|[label value] items IH]; intros i.
  - exists []. split; [reflexivity|]. split; [reflexivity|]. split; [reflexivity|].
    split; [constructor|]. intros [|k] b0 H; discriminate.
  - destruct (IH (S i)) as (bars & E & Hl & Hv & Hh & Hc).
    cbn [chart_bars chart_bar]. rewrite truediv_some by assumption. rewrite E.
    eexists. split; [reflexivity|]. cbn [map bar_label bar_value fst snd].
    rewrite Hl, Hv. split; [reflexivity|]. split; [reflexivity|].
    split; [constructor; [reflexivity|assumption]|].
    intros [|k] b H; cbn [nth_error] in H.
    + inversion H; subst b. cbn [bar_color bar_shift]. rewrite Nat.add_0_r.
      split; [reflexivity|ring].
    + rewrite Nat.add_succ_r. apply (Hc k b H).
Qed.

(** X6. The errors of [create_animated_chart]: a chart type other than
    ["bar"] gives an empty chart whatever the data; a bar chart of no data
    raises [ValueError] (the [max] of nothing); one whose largest value is
    zero, or one with data and an empty colour list, raises
    [ZeroDivisionError]; otherwise there is one bar per entry, with the
    entries' labels and values in order. *)
Theorem chart_errors (data : list (string * Q)) (chart_type : string)
    (colors : option (list string)) :
  (chart_type <> "bar"%string ->
   create_animated_chart data chart_type colors = inr [])
  /\ create_animated_chart [] "bar" colors = inl ValueError
  /\ (forall max_val, data <> [] -> pymax_list (map snd data) = Some max_val ->
        (max_val == 0 \/ colors = Some [] ->
         create_animated_chart data "bar" colors = inl ZeroDivisionError)
        /\ (~ max_val == 0 -> colors <> Some [] ->
            exists bars, create_animated_chart data "bar" colors = inr bars
                         /\ map bar_label bars = map fst data
                         /\ map bar_value bars = map snd data)).
Proof.
  split; [|split].
  - intros H. unfold create_animated_chart.
    destruct (String.eqb_spec chart_type "bar"); [contradiction|reflexivity].
  - reflexivity.
  - intros max_val Hne Hmax. unfold create_animated_chart.
    cbn [String.eqb Ascii.eqb Bool.eqb]. rewrite Hmax.
    destruct data as [|[label value] data]; [contradiction|]. split.
    + intros [Hz| ->].
      * cbn [chart_bars chart_bar]. now rewrite truediv_none.
      * cbn [chart_bars chart_bar]. now destruct (truediv value max_val).
    + intros Hnz Hcol.
      set (cs := match colors with Some cs => cs | None => _ end).
      assert (Hcs : exists c0 cs', cs = c0 :: cs').
      { subst cs. destruct colors as [[|c0 cs']|]; [contradiction|eauto|eauto]. }
      destruct Hcs as (c0 & cs' & ->).
      destruct (chart_bars_ok max_val c0 cs' (length ((label, value) :: data))
                  ((label, value) :: data) 0%nat Hnz)
        as (bars & E & Hl & Hv & _).
      exists bars. auto.
Qed.



End Chart.


(** ** TimeIndicator *)

Section TimeIndicatorFacts.
Import PyNum TimeIndicator.
Local Open Scope Q_scope.

Lemma Qfloor_unique (x : Q) (k : Z) :
  inject_Z k <= x -> x < inject_Z (k + 1) -> Qfloor x = k.
Proof.
  intros Hle Hlt.
  pose proof (Qfloor_le x) as H1. pose proof (Qlt_floor x) as H2.
  assert (Ha : (k < Qfloor x + 1)%Z).
  { rewrite Zlt_Qlt. eapply Qle_lt_trans; eassumption. }
  assert (Hb : (Qfloor x < k + 1)%Z).
  { rewrite Zlt_Qlt. eapply Qle_lt_trans; eassumption. }
  lia.
Qed.

Lemma int_of_inject_Z (z : Z) : PyStr.int (inject_Z z) = z.
Proof. unfold PyStr.int, inject_Z. cbn [Qnum Qden]. apply Z.quot_1_r. Qed.

Lemma int_nonneg (x : Q) : 0 <= x -> PyStr.int x = Qfloor x.
Proof.
  destruct x as [n d]. unfold Qle, PyStr.int, Qfloor. cbn [Qnum Qden].
  intros H. apply Z.quot_div_nonneg; lia.
Qed.

Lemma floordiv_bounds (t : Q) :
  60 * floordiv t 60 <= t /\ t < 60 * floordiv t 60 + 60.
Proof.
  unfold floordiv.
  pose proof (Qfloor_le (t / 60)) as H1. pose proof (Qlt_floor (t / 60)) as H2.
  rewrite inject_Z_plus in H2. change (inject_Z 1) with 1 in H2.
  set (m := inject_Z (Qfloor (t / 60))) in *.
  assert (Ht : t == 60 * (t / 60)) by field.
  set (q := t / 60) in *. split; lra.
Qed.

(** X8. The clock of [update_progress]: for a time [t] that is not
    negative, the seconds [int(t % 60)] are between 0 and 59, the minutes
    [int(t // 60)] are not negative, and together they give back the whole
    seconds of [t]: [60 * minutes + seconds] is the floor of [t]. *)
Theorem clock_decomposes (t : Q) :
  0 <= t ->
  (0 <= snd (clock t) <= 59)%Z
  /\ (0 <= fst (clock t))%Z
  /\ (60 * fst (clock t) + snd (clock t))%Z = Qfloor t.
Proof.
  intros Hnonneg. unfold clock. cbn [fst snd].
  destruct (floordiv_bounds t) as [Hlo Hhi].
  assert (Hm : PyStr.int (floordiv t 60) = Qfloor (t / 60)).
  { unfold floordiv. apply int_of_inject_Z. }
  rewrite Hm.
  assert (Hr : 0 <= pymod t 60 /\ pymod t 60 < 60).
  { unfold pymod. split; lra. }
  rewrite (int_nonneg _ (proj1 Hr)).
  set (m := Qfloor (t / 60)) in *.
  assert (Hs : Qfloor (pymod t 60) = (Qfloor t - 60 * m)%Z).
  { symmetry.
    assert (Hk : Qfloor t = (Qfloor (pymod t 60) + 60 * m)%Z).
    { apply Qfloor_unique.
      - pose proof (Qfloor_le (pymod t 60)) as H.
        rewrite inject_Z_plus, inject_Z_mult. change (inject_Z 60) with 60.
        unfold pymod, floordiv in *. fold m in H |- *. lra.
      - pose proof (Qlt_floor (pymod t 60)) as H.
        rewrite !inject_Z_plus, inject_Z_mult in *. change (inject_Z 60) with 60.
        change (inject_Z 1) with 1 in *.
        unfold pymod, floordiv in *. fold m in H |- *. lra. }
    lia. }
  rewrite Hs.
  assert (Hm0 : (0 <= m)%Z).
  { subst m. change 0%Z with (Qfloor 0). apply Qfloor_resp_le.
    apply Qle_shift_div_l; [reflexivity|]. lra. }
  split; [|split; [exact Hm0|lia]].
  assert (H0 : (0 <= Qfloor (pymod t 60))%Z).
  { change 0%Z with (Qfloor 0). apply Qfloor_resp_le. apply Hr. }
  assert (H60 : (Qfloor (pymod t 60) < 60)%Z).
  { rewrite Zlt_Qlt. eapply Qle_lt_trans; [apply Qfloor_le|]. apply Hr. }
  lia.
Qed.

(** X8 at 125 seconds: 2 minutes and 5 seconds. *)
Lemma clock_of_125_seconds :
  (0 <= snd (clock 125) <= 59)%Z
  /\ (0 <= fst (clock 125))%Z
  /\ (60 * fst (clock 125) + snd (clock 125))%Z = Qfloor 125.
Proof. apply clock_decomposes. discriminate. Defined.

Lemma pymin_spec (a b : Q) :
  (pymin a b = a /\ a <= b) \/ (pymin a b = b /\ b < a).
Proof.
  unfold pymin, Qltb. destruct (Qle_bool a b) eqn:E; cbn [negb].
  - left. split; [reflexivity|]. now apply Qle_bool_iff.
  - right. split; [reflexivity|]. apply Qnot_le_lt. intros H.
    apply Qle_bool_iff in H. congruence.
Qed.

(** X9. [update_progress] on an indicator whose total duration is zero
    raises [ZeroDivisionError] after storing the new time, with bar and text
    untouched.  Otherwise it succeeds, keeps total duration and background
    bar and shows both clocks in the text.  The filled bar is set through
    the engine's width setter, which rescales and so leaves a bar of width 0
    as it is: the bar that [__init__] creates, of width 0, stays empty
    whatever the time.  A bar of positive width gets the width
    [|bar_bg.width * min(current_time / total_duration, 1)|]: for a positive
    total, a time and a background width that are not negative, between
    nothing and the whole background bar, and the whole bar once the time
    reaches the total. *)
Theorem update_progress_outcome (self : TimeIndicator) (t : Q) :
  (total_duration self == 0 ->
   update_progress self t
   = Raised ZeroDivisionError
       {| total_duration := total_duration self; current_time := t;
          bar_bg_width := bar_bg_width self;
          bar_fill_width := bar_fill_width self;
          bar_fill_height := bar_fill_height self;
          time_text := time_text self |})
  /\ (~ total_duration self == 0 ->
      exists self',
        update_progress self t = Done self'
        /\ total_duration self' = total_duration self
        /\ current_time self' = t
        /\ bar_bg_width self' = bar_bg_width self
        /\ time_text self'
           = (clock_text (clock t) ++ " / "
              ++ clock_text (clock (total_duration self)))%string
        /\ (bar_fill_width self == 0 ->
            bar_fill_width self' = bar_fill_width self
            /\ bar_fill_height self' = bar_fill_height self)
        /\ (0 < bar_fill_width self ->
            bar_fill_width self'
            == Qabs (bar_bg_width self * pymin (t / total_duration self) 1)
            /\ (0 < total_duration self -> 0 <= t -> 0 <= bar_bg_width self ->
                0 <= bar_fill_width self' <= bar_bg_width self
                /\ (total_duration self <= t ->
                    bar_fill_width self' == bar_bg_width self)
                /\ (t < total_duration self ->
                    bar_fill_width self'
                    == bar_bg_width self * (t / total_duration self)))))
  /\ (forall total t' self',
         update_progress (__init__ total) t' = Done self' ->
         bar_fill_width self' = 0 /\ bar_fill_height self' = 15 # 100).
Proof.
  split; [|split].
  - unfold update_progress.
    cbn [total_duration bar_bg_width bar_fill_width bar_fill_height time_text].
    intros H. apply Qeq_bool_iff in H. now rewrite H.
  - unfold update_progress.
    cbn [total_duration bar_bg_width bar_fill_width bar_fill_height time_text].
    intros H. destruct (Qeq_bool (total_duration self) 0) eqn:E.
    { apply Qeq_bool_iff in E. contradiction. }
    eexists. split; [reflexivity|].
    cbn [total_duration current_time bar_bg_width bar_fill_width bar_fill_height
         time_text].
    repeat (split; [reflexivity|]).
    unfold set_width. split.
    { intros Hz. apply Qeq_bool_iff in Hz. rewrite Hz. split; reflexivity. }
    intros Hw.
    destruct (Qeq_bool (bar_fill_width self) 0) eqn:Ew.
    { apply Qeq_bool_iff in Ew. lra. }
    cbn [fst snd].
    set (T := total_duration self) in *. set (W := bar_bg_width self) in *.
    set (F := bar_fill_width self) in *.
    assert (Hset : forall v, F * Qabs (v / F) == Qabs v).
    { intros v. unfold Qdiv. rewrite Qabs_Qmult.
      rewrite (Qabs_pos (/ F)) by (apply Qlt_le_weak, Qinv_lt_0_compat, Hw).
      field. lra. }
    split; [apply Hset|]. rewrite Hset.
    intros Hpos Ht Hbg.
    assert (Hq : 0 <= t / T).
    { apply Qle_shift_div_l; [exact Hpos|]. lra. }
    assert (Hfull : T <= t <-> 1 <= t / T).
    { split; intros H1.
      - apply Qle_shift_div_l; [exact Hpos|]. lra.
      - apply (Qmult_le_compat_r _ _ T) in H1; [|lra].
        assert (Hc : t / T * T == t) by (field; exact H). lra. }
    assert (Hp : 0 <= W * pymin (t / T) 1).
    { destruct (pymin_spec (t / T) 1) as [[-> _]|[-> _]];
        apply Qmult_le_0_compat; lra. }
    rewrite (Qabs_pos _ Hp).
    destruct (pymin_spec (t / T) 1) as [[-> Hle]|[-> Hlt]].
    + split; [split; [nra|nra]|]. split.
      * intros H1. apply Hfull in H1. assert (t / T == 1) by lra.
        rewrite H0. ring.
      * intros _. reflexivity.
    + split; [split; lra|]. split.
      * intros _. ring.
      * intros H1. exfalso. assert (~ T <= t) by lra. apply H0, Hfull. lra.
  - intros total t' self'. unfold update_progress, __init__, set_width.
    cbn [total_duration bar_bg_width bar_fill_width bar_fill_height time_text].
    destruct (Qeq_bool total 0); [discriminate|].
    change (Qeq_bool 0 0) with true. cbn [fst snd].
    intros E. inversion E. cbn [bar_fill_width bar_fill_height]. split; reflexivity.
Qed.
End TimeIndicatorFacts.


(** ** AdvancedParticleSystem *)

Section Particles.
Import NumpyRandom PyNum AdvancedParticleSystem.
Local Open Scope Q_scope.

Lemma draw_speeds_spec (n : nat) (v : Q) : forall g,
  length (fst (draw_speeds n v g)) = n
  /\ cursor (snd (draw_speeds n v g)) = (cursor g + n)%nat
  /\ (0 < v -> Forall (fun s => 1 - v <= s /\ s < 1 + v) (fst (draw_speeds n v g))).
Proof.
  induction n as [|n IH]; intros g; cbn [draw_speeds].
  - cbn. split; [reflexivity|]. split; [lia|]. constructor.
  - pose proof (uniform_range (- v) v g) as Hu.
    assert (Hcur : cursor (snd (uniform (- v) v g)) = S (cursor g)) by reflexivity.
    destruct (uniform (- v) v g) as [d g1]. cbn [fst snd] in *.
    destruct (IH g1) as (Hl & Hc & Hr).
    destruct (draw_speeds n v g1) as [rest g2]. cbn [fst snd length] in *.
    split; [now rewrite Hl|]. split; [lia|].
    intros Hv. constructor; [|auto].
    destruct Hu as [H1 H2]; [lra|]. split; lra.
Qed.

Lemma range_spec (n : Z) :
  length (range n) = Z.to_nat n
  /\ forall k, (k < Z.to_nat n)%nat -> nth_error (range n) k = Some (Z.of_nat k).
Proof.
  unfold range. rewrite length_map, length_seq. split; [reflexivity|].
  intros k Hk. rewrite nth_error_map, nth_error_seq.
  destruct (Nat.ltb_spec k (Z.to_nat n)); [reflexivity|lia].
Qed.

(** X10. A particle system of [count] particles has [max(count, 0)]
    particles and as many speeds.  Particle [k] starts at
    [(k / count) * 0.3] of the path, so the particles start in order within
    the first 30% of it; and for a positive [speed_variance] every speed is
    within [1 - speed_variance] and [1 + speed_variance]. *)
Theorem particle_system_layout (g : RandomState) (count : Z) (color : option string)
    (radius speed_variance : Q) (glow : bool) :
  let self := fst (__init__ g count color radius speed_variance glow) in
  length (particles self) = Z.to_nat count
  /\ length (speeds self) = Z.to_nat count
  /\ (forall k p, nth_error (particles self) k = Some p ->
                  alpha p == (inject_Z (Z.of_nat k) / inject_Z count) * (3 # 10)
                  /\ 0 <= alpha p /\ alpha p < 3 # 10
                  /\ p_glow p = glow /\ p_radius p = radius)
  /\ (forall k p p', nth_error (particles self) k = Some p ->
                     nth_error (particles self) (S k) = Some p' ->
                     alpha p < alpha p')
  /\ (0 < speed_variance ->
      Forall (fun s => 1 - speed_variance <= s /\ s < 1 + speed_variance)
             (speeds self)).
Proof.
  cbv zeta. unfold __init__.
  destruct (draw_speeds_spec (Z.to_nat count) speed_variance g) as (Hl & _ & Hr).
  destruct (draw_speeds _ _ g) as [ss g']. cbn [fst snd particles speeds] in *.
  destruct (range_spec count) as [Hrl Hrn].
  assert (Hnth : forall k p,
             nth_error (map (fun i : Z =>
                               {| alpha := inject_Z i / inject_Z count * (3 # 10);
                                  p_radius := radius;
                                  p_color := match color with
                                             | Some c => c
                                             | None => "#ffcb47"%string
                                             end;
                                  p_glow := glow |}) (range count)) k = Some p ->
             (k < Z.to_nat count)%nat
             /\ p = {| alpha := inject_Z (Z.of_nat k) / inject_Z count * (3 # 10);
                       p_radius := radius;
                       p_color := match color with
                                  | Some c => c
                                  | None => "#ffcb47"%string
                                  end;
                       p_glow := glow |}).
  { intros k p H. rewrite nth_error_map in H.
    destruct (nth_error (range count) k) as [i|] eqn:E; [|discriminate].
    assert (Hk : (k < Z.to_nat count)%nat).
    { rewrite <- Hrl. apply nth_error_Some. congruence. }
    rewrite (Hrn k Hk) in E. inversion E; subst i. inversion H. auto. }
  split; [now rewrite length_map|]. split; [exact Hl|]. split; [|split; [|exact Hr]].
  - intros k p H. destruct (Hnth k p H) as [Hk ->]. cbn [alpha p_glow p_radius].
    assert (Hc : 0 < inject_Z count) by (rewrite <- (Zlt_Qlt 0); lia).
    assert (Hq : 0 <= inject_Z (Z.of_nat k) / inject_Z count
                 /\ inject_Z (Z.of_nat k) / inject_Z count < 1).
    { split.
      - apply Qle_shift_div_l; [exact Hc|]. rewrite Qmult_0_l.
        rewrite <- (Zle_Qle 0). lia.
      - apply Qlt_shift_div_r; [exact Hc|]. rewrite Qmult_1_l.
        rewrite <- Zlt_Qlt. lia. }
    set (q := inject_Z (Z.of_nat k) / inject_Z count) in *.
    split; [reflexivity|]. split; [lra|]. split; [lra|]. auto.
  - intros k p p' H H'. destruct (Hnth k p H) as [Hk ->].
    destruct (Hnth (S k) p' H') as [Hk' ->]. cbn [alpha].
    assert (Hc : 0 < inject_Z count) by (rewrite <- (Zlt_Qlt 0); lia).
    apply Qmult_lt_compat_r; [reflexivity|].
    apply Qmult_lt_compat_r; [now apply Qinv_lt_0_compat|].
    rewrite <- Zlt_Qlt. lia.
Qed.

Lemma particle_system_layout_aux (g : RandomState) (count : Z) (color : option string)
    (radius speed_variance : Q) (glow : bool) :
  let self := fst (__init__ g count color radius speed_variance glow) in
  length (particles self) = Z.to_nat count
  /\ length (speeds self) = Z.to_nat count
  /\ (forall k p, nth_error (particles self) k = Some p -> p_glow p = glow)
  /\ (0 < speed_variance ->
      Forall (fun s => 1 - speed_variance <= s /\ s < 1 + speed_variance)
             (speeds self)).
Proof.
  cbv zeta. unfold __init__.
  destruct (draw_speeds_spec (Z.to_nat count) speed_variance g) as (Hl & _ & Hr).
  destruct (draw_speeds _ _ g) as [ss g']. cbn [fst snd particles speeds] in *.
  split; [rewrite length_map; apply range_spec|]. split; [exact Hl|].
  split; [|exact Hr].
  intros k p H. rewrite nth_error_map in H.
  destruct (nth_error (range count) k); [|discriminate]. now inversion H.
Qed.

Lemma draw_speeds_within (n : nat) (v : Q) : forall g,
  0 <= v ->
  Forall (fun s => 1 - v <= s /\ s <= 1 + v) (fst (draw_speeds n v g)).
Proof.
  induction n as [|n IH]; intros g Hv; cbn [draw_speeds]; [constructor|].
  pose proof (uniform_abs (- v) v v g) as Hu.
  destruct (uniform (- v) v g) as [d g1]. cbn [fst] in Hu.
  specialize (IH g1 Hv).
  destruct (draw_speeds n v g1) as [rest g2]. cbn [fst] in *.
  constructor; [|exact IH].
  assert (Hd : Qabs d <= v).
  { apply Hu; apply Qabs_Qle_condition; split; lra. }
  apply Qabs_Qle_condition in Hd. split; lra.
Qed.

Lemma Qltb_true (x y : Q) : Qltb x y = true <-> x < y.
Proof.
  unfold Qltb. rewrite negb_true_iff. split.
  - intros E. apply Qnot_le_lt. intros H. apply Qle_bool_iff in H. congruence.
  - intros H. destruct (Qle_bool y x) eqn:E; [|reflexivity].
    apply Qle_bool_iff in E. lra.
Qed.

Lemma Qltb_false (x y : Q) : Qltb x y = false <-> y <= x.
Proof.
  unfold Qltb. rewrite negb_false_iff. apply Qle_bool_iff.
Qed.

(** One particle: [ValueError] for a negative run time, otherwise its
    animations, all of that run time. *)
Lemma particle_animations_spec (i : nat) (p : Particle) (x : Q) :
  match particle_animations i p x with
  | inl e => e = ValueError /\ x < 0
  | inr anims =>
      0 <= x
      /\ anims = (if p_glow p
                  then [ {| particle_index := i; part := GlowCircle; run_time := x |} ]
                  else [])
                 ++ [ {| particle_index := i; part := Dot; run_time := x |} ]
  end.
Proof.
  unfold particle_animations, move_along_path.
  destruct (Qltb x 0) eqn:E.
  - apply Qltb_true in E. destruct (p_glow p); auto.
  - apply Qltb_false in E. destruct (p_glow p); auto.
Qed.

Lemma flow_from_spec (rt : Q) (ps : list Particle) : forall (ss : list Q) (i : nat),
  length ss = length ps ->
  match flow_from i rt ps ss with
  | inl e => e = ValueError /\ Exists (fun s => rt * s < 0) ss
  | inr anims =>
      Forall (fun s => 0 <= rt * s) ss
      /\ length anims = (length (List.filter p_glow ps) + length ps)%nat
      /\ Forall (fun a => exists k p s,
                            particle_index a = (i + k)%nat
                            /\ nth_error ps k = Some p
                            /\ nth_error ss k = Some s
                            /\ run_time a = rt * s
                            /\ (part a = GlowCircle -> p_glow p = true))
                anims
  end.
Proof.
  induction ps as [|p ps IH]; intros ss i Hlen.
  - destruct ss; [|discriminate]. cbn. repeat split; constructor.
  - destruct ss as [|s ss]; [discriminate|]. cbn [length] in Hlen.
    specialize (IH ss (S i) ltac:(lia)).
    cbn [flow_from List.filter].
    pose proof (particle_animations_spec i p (rt * s)) as Hp.
    destruct (particle_animations i p (rt * s)) as [e|anims].
    { destruct Hp as [-> Hneg]. split; [reflexivity|]. now constructor. }
    destruct Hp as [Hpos ->].
    destruct (flow_from (S i) rt ps ss) as [e|rest].
    { destruct IH as [-> Hex]. split; [reflexivity|]. now apply Exists_cons_tl. }
    destruct IH as (Hall0 & Hn & Hall).
    split; [now constructor|].
    assert (Htail : Forall (fun a => exists k p0 s0,
                        particle_index a = (i + k)%nat
                        /\ nth_error (p :: ps) k = Some p0
                        /\ nth_error (s :: ss) k = Some s0
                        /\ run_time a = rt * s0
                        /\ (part a = GlowCircle -> p_glow p0 = true))
                      rest).
    { eapply Forall_impl; [exact Hall|]. intros a (k & p0 & s0 & Hi & Hp & Hs & Hr & Hg).
      exists (S k), p0, s0. cbn [nth_error]. repeat split; auto. lia. }
    assert (Hhead : forall pt, (pt = GlowCircle -> p_glow p = true) ->
                exists k p0 s0,
                  particle_index {| particle_index := i; part := pt; run_time := rt * s |}
                  = (i + k)%nat
                  /\ nth_error (p :: ps) k = Some p0
                  /\ nth_error (s :: ss) k = Some s0
                  /\ run_time {| particle_index := i; part := pt; run_time := rt * s |}
                     = rt * s0
                  /\ (part {| particle_index := i; part := pt; run_time := rt * s |}
                      = GlowCircle -> p_glow p0 = true)).
    { intros pt Hpt. exists 0%nat, p, s. cbn. repeat split; auto. }
    destruct (p_glow p) eqn:Eg; cbn [app length]; rewrite Hn.
    + split; [lia|]. constructor; [apply Hhead; auto|].
      constructor; [apply Hhead; discriminate|exact Htail].
    + split; [lia|]. constructor; [apply Hhead; discriminate|exact Htail].
Qed.

(** X11. [create_flow_animation] raises [ValueError], the engine's refusal
    of a negative run time, exactly when [run_time] times the speed of some
    particle is negative, and raises nothing else.  Otherwise every
    particle gets one animation, and a second one for its glow circle when
    it has one: [2 * n] animations with glow and [n] without, each running
    for [run_time] times the speed of its particle, the same for a dot and
    its glow circle.  With a [speed_variance] in [[0, 1)] every speed is
    positive: a positive [run_time] then succeeds, with all run times
    within [run_time * (1 -/+ speed_variance)], and a negative one raises
    as soon as there is a particle. *)
Theorem flow_animation_run_times (g : RandomState) (count : Z) (color : option string)
    (radius speed_variance : Q) (glow : bool) (rt : Q) :
  let self := fst (__init__ g count color radius speed_variance glow) in
  match create_flow_animation self rt with
  | inl e => e = ValueError /\ Exists (fun s => rt * s < 0) (speeds self)
  | inr anims =>
      Forall (fun s => 0 <= rt * s) (speeds self)
      /\ length anims = ((if glow then 2 else 1) * Z.to_nat count)%nat
      /\ Forall (fun a => exists s, nth_error (speeds self) (particle_index a) = Some s
                                    /\ run_time a = rt * s
                                    /\ 0 <= run_time a
                                    /\ (part a = GlowCircle -> glow = true)) anims
  end
  /\ (0 <= speed_variance -> speed_variance < 1 -> 0 < rt ->
      exists anims,
        create_flow_animation self rt = inr anims
        /\ Forall (fun a => rt * (1 - speed_variance) <= run_time a
                            /\ run_time a <= rt * (1 + speed_variance)) anims)
  /\ (0 <= speed_variance -> speed_variance < 1 -> rt < 0 -> (0 < count)%Z ->
      create_flow_animation self rt = inl ValueError).
Proof.
  cbv zeta.
  destruct (particle_system_layout_aux g count color radius speed_variance glow)
    as (Hlp & Hls & Hp & _).
  assert (Hr : 0 <= speed_variance ->
               Forall (fun s => 1 - speed_variance <= s /\ s <= 1 + speed_variance)
                 (speeds (fst (__init__ g count color radius speed_variance glow)))).
  { intros Hv. unfold __init__.
    pose proof (draw_speeds_within (Z.to_nat count) speed_variance g Hv) as Hw.
    destruct (draw_speeds _ _ g) as [ss g']. exact Hw. }
  unfold create_flow_animation.
  set (self := fst (__init__ g count color radius speed_variance glow)) in *.
  pose proof (flow_from_spec rt (particles self) (speeds self) 0%nat
                ltac:(congruence)) as Hflow.
  assert (Hglow : Forall (fun p => p_glow p = glow) (particles self)).
  { apply List.Forall_forall. intros p Hin. apply In_nth_error in Hin.
    destruct Hin as [k Hk]. apply (Hp k p Hk). }
  assert (Hf : length (List.filter p_glow (particles self))
               = if glow then length (particles self) else 0%nat).
  { clear -Hglow. induction (particles self) as [|p ps IH]; [now destruct glow|].
    apply List.Forall_cons_iff in Hglow. destruct Hglow as [Hp0 Hps].
    cbn [List.filter]. rewrite Hp0. specialize (IH Hps).
    destruct glow; cbn [length]; [now rewrite IH|exact IH]. }
  destruct (flow_from 0 rt (particles self) (speeds self)) as [e|anims].
  - split; [exact Hflow|]. destruct Hflow as [-> Hex]. split.
    + intros Hv Hv1 Hrt. exfalso. specialize (Hr Hv).
      apply List.Exists_exists in Hex. destruct Hex as (s & Hin & Hneg).
      destruct (proj1 (List.Forall_forall _ _) Hr s Hin) as [H1 _].
      assert (0 <= rt * s) by (apply Qmult_le_0_compat; lra). lra.
    + reflexivity.
  - destruct Hflow as (Hall0 & Hn & Hall).
    assert (Hall' : Forall (fun a => exists s,
                       nth_error (speeds self) (particle_index a) = Some s
                       /\ run_time a = rt * s
                       /\ 0 <= run_time a
                       /\ (part a = GlowCircle -> glow = true)) anims).
    { eapply Forall_impl; [exact Hall|].
      intros a (k & p & s & Hi & Hpk & Hs & Hrt & Hg). exists s.
      cbn [Nat.add] in Hi. rewrite Hi. split; [exact Hs|]. split; [exact Hrt|].
      split.
      - rewrite Hrt. apply (proj1 (List.Forall_forall _ _) Hall0 s).
        eapply nth_error_In, Hs.
      - intros Hpart. rewrite <- (Hg Hpart). symmetry.
        apply (proj1 (List.Forall_forall _ _) Hglow p). eapply nth_error_In, Hpk. }
    split; [split; [exact Hall0|split; [|exact Hall']]|split].
    + rewrite Hn, Hf, Hlp. destruct glow; lia.
    + intros Hv Hv1 Hrt. exists anims. split; [reflexivity|]. specialize (Hr Hv).
      eapply Forall_impl; [exact Hall'|]. intros a (s & Hs & -> & _).
      apply nth_error_In in Hs.
      destruct (proj1 (List.Forall_forall _ _) Hr s Hs) as [H1 H2]. split; nra.
    + intros Hv Hv1 Hrt Hc. exfalso. specialize (Hr Hv).
      destruct (speeds self) as [|s ss] eqn:Es; [cbn in Hls; lia|].
      apply List.Forall_cons_iff in Hr, Hall0.
      destruct Hr as [[H1 _] _]. destruct Hall0 as [H0 _]. nra.
Qed.
End Particles.


(** ** ProceduralHyphae: how many segments *)

Section HyphaeCount.
Import NumpyRandom ProceduralHyphae.
Local Open Scope Q_scope.
Variables (cos sin : Q -> Q) (PI : Q).

Local Abbreviation gen := (_generate_recursive cos sin PI).

Lemma flat_map_length_bounds {A B : Type} (f : A -> list B) (lo hi : nat) (l : list A) :
  Forall (fun x => (lo <= length (f x) <= hi)%nat) l ->
  (length l * lo <= length (flat_map f l) <= length l * hi)%nat.
Proof.
  induction 1 as [|x l Hx Hl IH]; cbn [flat_map length]; [lia|].
  rewrite length_app. lia.
Qed.

(** A tree whose activations all follow the algorithm, rooted at level [n]:
    at least [n] curves (one per level along any descent) and at most
    [1 + 3 + ... + 3^(n-1)]. *)
Lemma tree_count_bounds (n : nat) : forall t,
  (forall s, subtree s t -> node_follows_algorithm s) ->
  Z.to_nat (c_depth (tree_call t)) = n ->
  (n <= length (tree_curves t))%nat
  /\ (2 * length (tree_curves t) + 1 <= 3 ^ n)%nat.
Proof.
  induction n as [|n IH]; intros t Hall Hd.
  - destruct t as [c|c len e curve calls]; cbn [tree_curves length Nat.pow]; [lia|].
    pose proof (Hall _ (subtree_here _)) as H. cbn in H, Hd. lia.
  - pose proof (Hall _ (subtree_here _)) as H.
    destruct t as [c|c len e curve calls]; cbn [tree_call] in Hd;
      cbn [node_follows_algorithm] in H; [lia|].
    destruct H as (Hpos & _ & _ & Hlen & Hcalls & _).
    assert (Hb : Forall (fun t' => (n <= length (tree_curves t') <= (3 ^ n - 1) / 2)%nat)
                        calls).
    { apply List.Forall_forall. intros t' Hin.
      pose proof (proj1 (List.Forall_forall _ _) Hcalls t' Hin) as (Hd' & _).
      destruct (IH t') as [H1 H2].
      - intros s Hs. apply Hall. eapply subtree_below; eauto.
      - rewrite Hd'. lia.
      - split; [exact H1|]. apply Nat.div_le_lower_bound; lia. }
    apply flat_map_length_bounds in Hb.
    cbn [tree_curves length]. rewrite Nat.pow_succ_r'.
    assert (Hodd : (2 * ((3 ^ n - 1) / 2) <= 3 ^ n - 1)%nat)
      by (apply Nat.Div0.mul_div_le).
    assert (H3 : (1 <= 3 ^ n)%nat) by (apply Nat.neq_0_lt_0, Nat.pow_nonzero; lia).
    split; [nia|nia].
Qed.

(** With a branching probability that is not positive no fork is made: one
    curve per level. *)
Lemma straight_count fuel : forall c st st' t,
  c_branch_prob c <= 0 ->
  gen fuel c st = Some (st', t) ->
  length (tree_curves t) = Z.to_nat (c_depth c).
Proof.
  induction fuel as [|fuel IH]; intros c [g self] st' t Hbp H; [discriminate|].
  cbn [_generate_recursive] in H.
  destruct (c_depth c <=? 0)%Z eqn:Ed.
  { apply Z.leb_le in Ed. inversion H; subst. cbn. lia. }
  apply Z.leb_gt in Ed.
  destruct (uniform _ _ g) as [jitter g1].
  destruct (uniform _ _ g1) as [da g2].
  destruct (uniform _ _ g2) as [dc g3].
  pose proof (random_sample_range g3) as [Hr _]. fold (random g3) in Hr.
  destruct (random g3) as [x g4]. cbn [fst] in Hr.
  assert (Hno : Qltb x (c_branch_prob c) = false).
  { unfold Qltb. apply Bool.negb_false_iff, Qle_bool_iff. lra. }
  rewrite Hno in H. cbn [andb] in H.
  match type of H with
  | context [gen fuel ?c' ?s] =>
      destruct (gen fuel c' s) as [[st'' t']|] eqn:E; [|discriminate];
      apply IH in E; [|exact Hbp]
  end.
  inversion H; subst. cbn [tree_curves flat_map length c_depth] in *.
  rewrite app_nil_r, E. lia.
Qed.

Variable mt19937 : Z -> nat -> N.

(** X12. Unless the seed is refused, [ProceduralHyphae(depth=d)] has at
    least [d] and at most [(3^d - 1) / 2] segments (none for [d <= 0]); the
    group's children are exactly the segments; [growth_order] numbers them
    [0 .. n-1]; and with a branching probability that is not positive there
    are exactly [d] segments. *)
Theorem hyphae_segment_count (g : RandomState) (start : vec3) (depth : Z) (length : Q)
    (angle_variance branch_probability : Q) (color : option string)
    (stroke_width curvature : Q) (seed : option Z) :
  match __init__ cos sin PI mt19937 g start depth length angle_variance
                 branch_probability color stroke_width curvature seed with
  | None => exists s, seed = Some s /\ ~ (0 <= s < 2 ^ 32)%Z
  | Some (_, h, _) =>
      let n := List.length (h_segments h) in
      (Z.to_nat depth <= n)%nat
      /\ (2 * n + 1 <= 3 ^ Z.to_nat depth)%nat
      /\ h_submobjects h = h_segments h
      /\ growth_order h = seq 0 n
      /\ (branch_probability <= 0 -> n = Z.to_nat depth)
  end.
Proof.
  pose proof (init_spec cos sin PI mt19937 g start depth length angle_variance
                branch_probability color stroke_width curvature seed) as Hspec.
  unfold __init__ in *.
  destruct (match seed with Some s => NumpyRandom.seed mt19937 s | None => Some g end)
    as [g0|]; [|exact Hspec].
  destruct (_generate_recursive _ _ _ _ _ _) as [[[g' self] t]|] eqn:E; [|exact Hspec].
  cbn [h_segments h_submobjects growth_order] in *.
  destruct Hspec as (_ & Hd & Hs & Hm & Hg & Hall).
  destruct (tree_count_bounds (Z.to_nat depth) t) as [H1 H2].
  { intros s Hsub. apply Hall, Hsub. }
  { now rewrite Hd. }
  rewrite Hs, Hm. repeat split; auto.
  intros Hbp. eapply straight_count in E; [exact E|exact Hbp].
Qed.
End HyphaeCount.


(** ** create_network_stats: the range of the efficiency *)

Section EfficiencyRange.
Import DataVisualization.
Local Open Scope Q_scope.

(** X13. For at least two nodes the efficiency is a percentage of the
    [n * (n - 1) / 2] possible edges, and it is not clamped: it is negative
    exactly for a negative edge count, at most 100 exactly when there are no
    more edges than possible, and 100 exactly for the complete graph. *)
Theorem efficiency_is_share_of_possible_edges (node_count edge_count : Z) :
  (2 <= node_count)%Z ->
  exists e, efficiency node_count edge_count = Some e
            /\ e * inject_Z (node_count * (node_count - 1)) == inject_Z (200 * edge_count)
            /\ (0 <= e <-> (0 <= edge_count)%Z)
            /\ (e <= 100 <-> (2 * edge_count <= node_count * (node_count - 1))%Z)
            /\ (e == 100 <-> (2 * edge_count = node_count * (node_count - 1))%Z).
Proof.
  intros Hn.
  assert (Hm : (0 < node_count * (node_count - 1))%Z) by nia.
  set (m := (node_count * (node_count - 1))%Z) in *.
  assert (HM : 0 < inject_Z m) by (rewrite <- (Zlt_Qlt 0); exact Hm).
  assert (Hd : Qeq_bool (inject_Z m / 2) 0 = false).
  { destruct (Qeq_bool _ 0) eqn:E; [|reflexivity]. apply Qeq_bool_iff in E.
    assert (inject_Z m == 0) by (rewrite <- (Qmult_div_r (inject_Z m) 2), E by discriminate; ring).
    lra. }
  exists (inject_Z edge_count / (inject_Z m / 2) * 100).
  split.
  { unfold efficiency, divisor, truediv. fold m.
    change (Qeq_bool 2 0) with false. cbv iota. now rewrite Hd. }
  assert (He : inject_Z edge_count / (inject_Z m / 2) * 100 * inject_Z m
               == inject_Z (200 * edge_count)).
  { rewrite inject_Z_mult. field. lra. }
  set (e := inject_Z edge_count / (inject_Z m / 2) * 100) in *.
  rewrite inject_Z_mult in He. change (inject_Z 200) with 200 in He.
  split; [rewrite inject_Z_mult; exact He|].
  set (x := inject_Z edge_count) in *.
  assert (Hx0 : 0 <= x <-> (0 <= edge_count)%Z) by (subst x; rewrite (Zle_Qle 0); tauto).
  assert (Hx1 : 2 * x <= inject_Z m <-> (2 * edge_count <= m)%Z).
  { subst x. rewrite Zle_Qle, inject_Z_mult. tauto. }
  assert (Hx2 : 2 * x == inject_Z m <-> (2 * edge_count = m)%Z).
  { subst x. rewrite <- inject_Z_injective, inject_Z_mult. tauto. }
  rewrite <- Hx0, <- Hx1, <- Hx2.
  clearbody e x. clear - He HM. set (M := inject_Z m) in *. clearbody M.
  repeat split; intros H; nra.
Qed.

(** A ring of six nodes: six of the fifteen possible edges, 40 percent. *)
Lemma efficiency_of_a_ring :
  exists e, efficiency 6 6 = Some e
            /\ e * inject_Z (6 * (6 - 1)) == inject_Z (200 * 6)
            /\ (0 <= e <-> (0 <= 6)%Z)
            /\ (e <= 100 <-> (2 * 6 <= 6 * (6 - 1))%Z)
            /\ (e == 100 <-> (2 * 6 = 6 * (6 - 1))%Z).
Proof. apply (efficiency_is_share_of_possible_edges 6 6). lia. Defined.
End EfficiencyRange.


(** ** Strings *)

Section StringFacts.
Local Open Scope string_scope.

Lemma length_append (a b : string) :
  String.length (a ++ b) = (String.length a + String.length b)%nat.
Proof.
  induction a as [|c a IH]; [reflexivity|].
  change (String c a ++ b)%string with (String c (a ++ b)%string).
  cbn [String.length Nat.add]. now rewrite IH.
Qed.

Lemma append_inj_r (s a b : string) : (a ++ s = b ++ s)%string -> a = b.
Proof.
  intros H.
  assert (Hlen : String.length a = String.length b).
  { apply (f_equal String.length) in H. rewrite !length_append in H. lia. }
  revert b H Hlen. induction a as [|c a IH]; intros [|d b] H Hlen;
    try discriminate; [reflexivity|].
  change (String c a ++ s)%string with (String c (a ++ s)%string) in H.
  change (String d b ++ s)%string with (String d (b ++ s)%string) in H.
  cbn [String.length] in Hlen. injection H as -> H. f_equal. apply IH; [exact H|lia].
Qed.

Lemma append_inj_l (s a b : string) : (s ++ a = s ++ b)%string -> a = b.
Proof.
  induction s as [|c s IH]; intros H; [exact H|].
  change (String c s ++ a)%string with (String c (s ++ a)%string) in H.
  change (String c s ++ b)%string with (String c (s ++ b)%string) in H.
  injection H as H. now apply IH.
Qed.

Lemma str_of_int_inj (a b : Z) : PyNum.str_of_int a = PyNum.str_of_int b -> a = b.
Proof.
  unfold PyNum.str_of_int. intros H.
  assert (Hok : forall z, Z.to_int z <> Decimal.Pos Decimal.Nil
                          /\ Z.to_int z <> Decimal.Neg Decimal.Nil).
  { intros [|p|p]; cbn; split; try discriminate; intros E; injection E as E;
      now apply DecimalPos.Unsigned.to_uint_nonnil in E. }
  apply DecimalZ.to_int_inj.
  pose proof (NilZero.isi (Z.to_int a) (proj1 (Hok a)) (proj2 (Hok a))) as Ha.
  pose proof (NilZero.isi (Z.to_int b) (proj1 (Hok b)) (proj2 (Hok b))) as Hb.
  rewrite H in Ha. congruence.
Qed.
End StringFacts.


(** ** add_voiceover *)

Section Voiceover.
Import MycorrhizalDocumentary.
Local Open Scope string_scope.
Local Open Scope list_scope.

Lemma audio_path_inj (a b : string) : audio_path a = audio_path b -> a = b.
Proof.
  unfold audio_path. intros H. apply append_inj_l in H. now apply append_inj_r in H.
Qed.

Lemma audio_path_not_dir (a : string) : audio_path a <> "audio".
Proof.
  unfold audio_path. intros H.
  apply (f_equal String.length) in H. rewrite !length_append in H.
  cbn [String.length] in H. lia.
Qed.

Lemma path_in_table (segs : list (string * string)) (name : string) :
  In (audio_path name) (map (fun seg => audio_path (snd seg)) segs)
  <-> In name (map snd segs).
Proof.
  rewrite !in_map_iff. split; intros (seg & E & Hin); exists seg; split; auto.
  - now apply audio_path_inj.
  - now rewrite E.
Qed.

(** X14. A file named [audio] makes [generate_all_audio] fail.  After a
    call that returned, [add_voiceover(name)] adds the sound
    [audio/segment_<name>.mp3] for each of the narration table's names, and
    for any other name exactly when that file was there before the call;
    otherwise it adds nothing (a missing file is skipped silently). *)
Theorem voiceover_after_generation (w : World) :
  (is_Some (files w !! "audio") -> generate_all_audio w = None)
  /\ forall w1, generate_all_audio w = Some w1 ->
     forall (sounds : list string) (name : string),
       (In name (map snd segments) \/ exists_ w (audio_path name) = true ->
        add_voiceover w1 sounds name = sounds ++ [audio_path name])
       /\ (~ In name (map snd segments) -> exists_ w (audio_path name) = false ->
           add_voiceover w1 sounds name = sounds).
Proof.
  unfold generate_all_audio.
  destruct (makedirs "audio" w) as [w0|] eqn:Em.
  - split.
    { unfold makedirs in Em. intros [x Hx]. rewrite Hx in Em. discriminate. }
    intros w1 E sounds name.
    pose proof (f_equal (fun o => match o with Some x => x | None => w1 end) E) as E'.
    cbv beta iota in E'. subst w1. clear E.
    destruct (exists_makedirs w w0 (audio_path name) Em (audio_path_not_dir name))
      as (Hex & _).
    unfold add_voiceover. cbv zeta. split.
    + intros [Hin|Hw].
      * apply in_map_iff in Hin. destruct Hin as ([text n] & Hn & Hin).
        cbn [snd] in Hn. subst n.
        pose proof (fold_makes_present segments w0 (text, name) Hin) as Hp.
        cbn [snd] in Hp. now rewrite Hp.
      * rewrite <- Hex in Hw.
        now rewrite (proj1 (fold_keeps segments w0 _ Hw)).
    + intros Hnot Hw.
      destruct (fold_other segments w0 (audio_path name)) as [-> _].
      * rewrite path_in_table. exact Hnot.
      * now rewrite Hex, Hw.
  - split; [reflexivity|discriminate].
Qed.

(** X14 from nothing: after the first call in an empty world, the opening
    segment's sound is added. *)
Lemma voiceover_from_nothing :
  add_voiceover
    (fold_left generate_audio segments
       {| dirs := {[ "audio" ]} ∪ ∅; files := ∅; stdout := []; saved := [] |})
    [] "01_opening"
  = [] ++ [audio_path "01_opening"].
Proof.
  refine (proj1 (proj2 (voiceover_after_generation
                          {| dirs := ∅; files := ∅; stdout := []; saved := [] |})
                   (fold_left generate_audio segments
                      {| dirs := {[ "audio" ]} ∪ ∅; files := ∅; stdout := [];
                         saved := [] |})
                   _ [] "01_opening") _).
  - reflexivity.
  - left. cbn. auto.
Defined.
End Voiceover.


(** ** EducationalScene: controls and checkpoints *)

Section SceneControls.
Import Edu.
Variables (Engine Mobject : Type).
Local Open Scope string_scope.
Local Open Scope list_scope.

Local Abbreviation scene := (EducationalScene Engine Mobject).
Local Abbreviation element_of := (returned_element Engine Mobject).
Local Abbreviation keeps_value e name := (has_state e && String.eqb (ie_target e) name).

Lemma returned_element_any (s1 s2 : scene) op : element_of s1 op = element_of s2 op.
Proof. now destruct op. Qed.

Lemma last_default_cons name e els :
  last_default name (e :: els)
  = match last_default name els with
    | Some v => Some v
    | None => if keeps_value e name then Some (ie_default e) else None
    end.
Proof.
  unfold last_default. cbn [rev]. rewrite List.filter_app. cbn [List.filter].
  destruct (List.filter _ (rev els)) as [|e' rest]; cbn [app]; [|reflexivity].
  now destruct (keeps_value e name).
Qed.

Lemma run_control_step (s : scene) op :
  interactions _ _ (run_control _ _ s op) = interactions _ _ s ++ [element_of s op]
  /\ (forall name,
        interactive_state _ _ (run_control _ _ s op) !! name
        = if keeps_value (element_of s op) name
          then Some (ie_default (element_of s op))
          else interactive_state _ _ s !! name)
  /\ objectives _ _ (run_control _ _ s op) = objectives _ _ s
  /\ concepts _ _ (run_control _ _ s op) = concepts _ _ s
  /\ prerequisites _ _ (run_control _ _ s op) = prerequisites _ _ s
  /\ assessments _ _ (run_control _ _ s op) = assessments _ _ s
  /\ difficulty _ _ (run_control _ _ s op) = difficulty _ _ s.
Proof.
  destruct op as [name0 range default callback label description hook
                 |name0 callback label description
                 |name0 default callback label description];
    cbn; (split; [reflexivity|]); (split; [|repeat split]); intros name;
    try reflexivity;
    destruct (String.eqb_spec name0 name) as [->|Hne];
    [now rewrite lookup_insert_eq|now rewrite lookup_insert_ne
    |now rewrite lookup_insert_eq|now rewrite lookup_insert_ne].
Qed.

(** X15. Any sequence of [add_slider], [add_button] and [add_toggle] calls
    appends the returned elements to [interactions], in order and without
    looking for an earlier control of the same name; afterwards
    [interactive_state] maps a name to the default of the last slider or
    toggle added for it, and is as before for every other name (a button
    never writes it).  The metadata lists, the checkpoints and the
    difficulty are untouched.  So in a scene that got its controls this way
    since [__init__], the names with a state are exactly the targets of its
    sliders and toggles. *)
Theorem control_script_state (ops : list ControlOp) :
  (forall s : scene,
      let s' := fold_left (run_control _ _) ops s in
      let added := map (element_of s) ops in
      interactions _ _ s' = interactions _ _ s ++ added
      /\ (forall name,
            interactive_state _ _ s' !! name
            = match last_default name added with
              | Some v => Some v
              | None => interactive_state _ _ s !! name
              end)
      /\ objectives _ _ s' = objectives _ _ s
      /\ concepts _ _ s' = concepts _ _ s
      /\ prerequisites _ _ s' = prerequisites _ _ s
      /\ assessments _ _ s' = assessments _ _ s
      /\ difficulty _ _ s' = difficulty _ _ s)
  /\ (forall (base : Engine) class_name name,
        let s' := fold_left (run_control _ _) ops (__init__ _ Mobject base class_name) in
        interactive_state _ _ s' !! name = last_default name (interactions _ _ s')
        /\ (is_Some (interactive_state _ _ s' !! name)
            <-> exists e, In e (interactions _ _ s')
                          /\ has_state e = true /\ ie_target e = name)).
Proof.
  assert (Hgen : forall s : scene,
      let s' := fold_left (run_control _ _) ops s in
      let added := map (element_of s) ops in
      interactions _ _ s' = interactions _ _ s ++ added
      /\ (forall name,
            interactive_state _ _ s' !! name
            = match last_default name added with
              | Some v => Some v
              | None => interactive_state _ _ s !! name
              end)
      /\ objectives _ _ s' = objectives _ _ s
      /\ concepts _ _ s' = concepts _ _ s
      /\ prerequisites _ _ s' = prerequisites _ _ s
      /\ assessments _ _ s' = assessments _ _ s
      /\ difficulty _ _ s' = difficulty _ _ s).
  { induction ops as [|op ops' IH]; intros s; cbv zeta; cbn [fold_left map].
    - rewrite app_nil_r. repeat split.
    - destruct (IH (run_control _ _ s op)) as (Hi & Hs & Ho & Hc & Hp & Ha & Hd).
      destruct (run_control_step s op) as (Hi1 & Hs1 & Ho1 & Hc1 & Hp1 & Ha1 & Hd1).
      assert (Hmap : map (element_of (run_control _ _ s op)) ops'
                     = map (element_of s) ops').
      { apply map_ext. intros op'. apply returned_element_any. }
      rewrite Hmap in Hi, Hs.
      split; [rewrite Hi, Hi1, <- app_assoc; reflexivity|].
      split; [|repeat split; congruence].
      intros name. rewrite Hs, last_default_cons, Hs1.
      destruct (last_default name (map (element_of s) ops')); [reflexivity|].
      now destruct (keeps_value (element_of s op) name). }
  split; [exact Hgen|].
  intros base class_name name. cbv zeta.
  destruct (Hgen (__init__ _ Mobject base class_name)) as (Hi & Hs & _).
  cbn [interactions interactive_state __init__ app] in Hi, Hs.
  rewrite Hi, Hs, lookup_empty.
  set (els := map _ ops) in *. clearbody els.
  split; [now destruct (last_default name els)|].
  unfold last_default.
  destruct (List.filter _ (rev els)) as [|e rest] eqn:Ef.
  - split; [intros [x Hx]; discriminate|].
    intros (e & Hin & Hst & Ht). exfalso.
    assert (Hin' : In e (List.filter (fun e => keeps_value e name) (rev els))).
    { apply List.filter_In. split; [now apply in_rev in Hin|].
      rewrite Hst, Ht. now rewrite String.eqb_refl. }
    rewrite Ef in Hin'. contradiction.
  - split; [intros _|eauto].
    assert (Hin : In e (List.filter (fun e => keeps_value e name) (rev els)))
      by (rewrite Ef; now left).
    apply List.filter_In in Hin. destruct Hin as [Hin Hk].
    apply andb_true_iff in Hk. destruct Hk as [Hst Ht].
    apply String.eqb_eq in Ht. exists e. split; [now apply in_rev|auto].
Qed.

Local Abbreviation question_id k := ("q_" ++ PyNum.str_of_int (Z.of_nat k))%string.
Local Abbreviation id_of c := (q_id (ac_question c)).

Lemma question_ids_distinct (n : nat) : forall start,
  List.NoDup (map (fun k => question_id k) (seq start n)).
Proof.
  assert (Hinj : forall a b, question_id a = question_id b -> a = b).
  { intros a b H. apply append_inj_l in H. apply str_of_int_inj in H. lia. }
  induction n as [|n IH]; intros start; cbn [seq map]; [apply List.NoDup_nil|].
  apply List.NoDup_cons_iff. split; [|apply IH].
  rewrite in_map_iff. intros (k & Hk & Hin). apply Hinj in Hk.
  apply in_seq in Hin. lia.
Qed.

(** X16. Any sequence of [add_checkpoint] calls appends one checkpoint per
    call to [assessments], in order, each with the call's timestamp,
    question text and answer, one point, and [hints] and
    [related_concepts] that are lists (empty when [None] was passed).
    The question ids count on from the number of checkpoints already
    there: [q_<n>], [q_<n+1>], ..., all different.  The controls and their
    state are untouched. *)
Theorem checkpoint_script_ids (calls : list (CheckpointArgs)) (s : scene) :
  let s' := fold_left (run_checkpoint _ _) calls s in
  exists new,
    assessments _ _ s' = assessments _ _ s ++ new
    /\ map (fun c => id_of c) new
       = map (fun k => question_id k) (seq (length (assessments _ _ s)) (length calls))
    /\ List.NoDup (map (fun c => id_of c) new)
    /\ map ac_timestamp new = map ca_timestamp calls
    /\ map (fun c => q_text (ac_question c)) new = map ca_question calls
    /\ map (fun c => q_correct_answer (ac_question c)) new = map ca_correct calls
    /\ map ac_hints new = map (fun a => list_or_empty (ca_hints a)) calls
    /\ map ac_related_concepts new
       = map (fun a => list_or_empty (ca_related_concepts a)) calls
    /\ Forall (fun c => q_points (ac_question c) = 1%Z) new
    /\ interactions _ _ s' = interactions _ _ s
    /\ interactive_state _ _ s' = interactive_state _ _ s.
Proof.
  cbv zeta.
  assert (Hgen : exists new,
    assessments _ _ (fold_left (run_checkpoint _ _) calls s) = assessments _ _ s ++ new
    /\ map (fun c => id_of c) new
       = map (fun k => question_id k) (seq (length (assessments _ _ s)) (length calls))
    /\ map ac_timestamp new = map ca_timestamp calls
    /\ map (fun c => q_text (ac_question c)) new = map ca_question calls
    /\ map (fun c => q_correct_answer (ac_question c)) new = map ca_correct calls
    /\ map ac_hints new = map (fun a => list_or_empty (ca_hints a)) calls
    /\ map ac_related_concepts new
       = map (fun a => list_or_empty (ca_related_concepts a)) calls
    /\ Forall (fun c => q_points (ac_question c) = 1%Z) new
    /\ interactions _ _ (fold_left (run_checkpoint _ _) calls s) = interactions _ _ s
    /\ interactive_state _ _ (fold_left (run_checkpoint _ _) calls s)
       = interactive_state _ _ s).
  { revert s. induction calls as [|a calls' IH]; intros s; cbn [fold_left].
    - exists []. rewrite app_nil_r. cbn. repeat split; constructor.
    - destruct (IH (run_checkpoint _ _ s a))
        as (new & Ha & Hid & Ht & Hq & Hc & Hh & Hr & Hp & Hi & Hs).
      set (c := snd (add_checkpoint _ _ s (ca_timestamp a) (ca_question a) (ca_correct a)
                       (ca_question_type a) (ca_options a) (ca_feedback_correct a)
                       (ca_feedback_incorrect a) (ca_hints a) (ca_related_concepts a)
                       (ca_explanation a))).
      assert (Hstep : assessments _ _ (run_checkpoint _ _ s a) = assessments _ _ s ++ [c])
        by reflexivity.
      rewrite Hstep in Ha, Hid. rewrite length_app in Hid. cbn [length] in Hid.
      exists (c :: new).
      split; [rewrite Ha, <- app_assoc; reflexivity|].
      cbn [map length seq].
      split; [rewrite Hid; f_equal; f_equal; f_equal; lia|].
      rewrite Ht, Hq, Hc, Hh, Hr, Hi, Hs.
      repeat split. constructor; [reflexivity|exact Hp]. }
  destruct Hgen as (new & Ha & Hid & Hrest).
  exists new. split; [exact Ha|]. split; [exact Hid|].
  split; [rewrite Hid; apply question_ids_distinct|exact Hrest].
Qed.
End SceneControls.


(** ** Dicts *)

Section DictFacts.
Import PyDict.
Context {V : Type}.
Implicit Types (d : dict V) (k : string).

Lemma get_setitem_eq k (v : V) d : get k (setitem k v d) = Some v.
Proof.
  induction d as [|[k' v'] d IH]; cbn [setitem get].
  - now rewrite String.eqb_refl.
  - destruct (String.eqb k' k) eqn:E; cbn [get]; now rewrite E.
Qed.

Lemma get_setitem_ne k k' (v : V) d : k <> k' -> get k' (setitem k v d) = get k' d.
Proof.
  intros Hne. induction d as [|[k0 v0] d IH]; cbn [setitem get].
  - destruct (String.eqb_spec k k'); [contradiction|reflexivity].
  - destruct (String.eqb_spec k0 k) as [->|Hk]; cbn [get].
    + destruct (String.eqb_spec k k'); [contradiction|reflexivity].
    + now rewrite IH.
Qed.

Lemma get_setitem k k' (v : V) d :
  get k' (setitem k v d) = if String.eqb k k' then Some v else get k' d.
Proof.
  destruct (String.eqb_spec k k') as [->|Hne];
    [apply get_setitem_eq|now apply get_setitem_ne].
Qed.

Lemma keys_get k d : In k (keys d) <-> is_Some (get k d).
Proof.
  induction d as [|[k' v'] d IH]; cbn [keys map fst In get].
  - split; [contradiction|intros [x Hx]; discriminate].
  - destruct (String.eqb_spec k' k) as [->|Hne].
    + split; eauto.
    + fold (keys d). rewrite <- IH. tauto.
Qed.

Lemma keys_setitem k (v : V) d :
  forall k', In k' (keys (setitem k v d)) <-> k' = k \/ In k' (keys d).
Proof.
  intros k'. rewrite !keys_get, get_setitem.
  destruct (String.eqb_spec k k') as [->|Hne].
  - split; eauto.
  - split; [tauto|]. intros [->|H]; [contradiction|exact H].
Qed.

Lemma setitem_NoDup k (v : V) d :
  List.NoDup (keys d) -> List.NoDup (keys (setitem k v d)).
Proof.
  induction d as [|[k' v'] d IH]; cbn [setitem keys map fst]; intros Hnd.
  - apply List.NoDup_cons; [intros []|apply List.NoDup_nil].
  - apply List.NoDup_cons_iff in Hnd. destruct Hnd as [Hnot Hnd].
    destruct (String.eqb_spec k' k) as [->|Hne]; cbn [map fst].
    + apply List.NoDup_cons; assumption.
    + apply List.NoDup_cons; [|now apply IH].
      fold (keys (setitem k v d)). rewrite keys_setitem.
      intros [E|Hin]; [congruence|contradiction].
Qed.

Lemma setitem_length k (v : V) d :
  length (setitem k v d) = match get k d with
                           | Some _ => length d
                           | None => S (length d)
                           end.
Proof.
  induction d as [|[k' v'] d IH]; cbn [setitem get length]; [reflexivity|].
  destruct (String.eqb k' k); cbn [length]; [reflexivity|].
  rewrite IH. now destruct (get k d).
Qed.

Lemma get_In k (v : V) d : get k d = Some v -> In (k, v) d.
Proof.
  induction d as [|[k' v'] d IH]; cbn [get]; [discriminate|].
  destruct (String.eqb_spec k' k) as [->|Hne].
  - intros E. left. congruence.
  - intros E. right. now apply IH.
Qed.
End DictFacts.

Section DictKeys.
Import PyDict.
(** A list that covers a duplicate-free list of its length has no
    duplicates either. *)
Lemma NoDup_incl_NoDup_keys {A B : Type} (d1 : dict A) (d2 : dict B) :
  List.NoDup (keys d2) ->
  (length (keys d1) <= length (keys d2))%nat ->
  (forall k, In k (keys d1) <-> In k (keys d2)) ->
  List.NoDup (keys d1).
Proof.
  intros Hnd Hlen Hin.
  apply (NoDup_incl_NoDup Hnd); [exact Hlen|].
  intros k Hk. now apply Hin.
Qed.
End DictKeys.

(** ** NetworkTemplate *)

Section TemplateFacts.
Import PyNum PyDict Networks.
Local Open Scope Q_scope.

Local Abbreviation has_id k := (fun n => String.eqb (nn_id n) k).
Local Abbreviation dot_of node :=
  {| dot_point := nn_position node; dot_radius := nn_radius node;
     dot_color := nn_color node; dot_fill_opacity := 9 # 10 |}.

Lemma find_snoc {A : Type} (f : A -> bool) (l : list A) (a : A) :
  find f (l ++ [a]) = match find f l with
                      | Some x => Some x
                      | None => if f a then Some a else None
                      end.
Proof.
  induction l as [|b l IH]; cbn [app find]; [reflexivity|].
  now destruct (f b).
Qed.

(** The node a key of [node_data] stands for: the last one of [nodes] with
    that id. *)
Lemma node_dict_fold nodes : forall d k,
  get k (fold_left (fun d n => setitem (nn_id n) n d) nodes d)
  = match find (has_id k) (rev nodes) with
    | Some n => Some n
    | None => get k d
    end.
Proof.
  induction nodes as [|n nodes IH]; intros d k; cbn [fold_left rev find];
    [reflexivity|].
  rewrite IH, get_setitem.
  pose proof (find_snoc (has_id k) (rev nodes) n) as Hf. cbv beta in Hf.
  rewrite Hf. destruct (find (has_id k) (rev nodes)); [reflexivity|].
  now destruct (String.eqb (nn_id n) k).
Qed.

Lemma node_dict_get nodes k :
  get k (node_dict nodes) = find (has_id k) (rev nodes).
Proof.
  unfold node_dict. rewrite node_dict_fold. now destruct (find _ _).
Qed.

Lemma node_dict_NoDup nodes : List.NoDup (keys (node_dict nodes)).
Proof.
  unfold node_dict.
  assert (H : forall d : dict NetworkNode, List.NoDup (keys d) ->
              List.NoDup (keys (fold_left (fun d n => setitem (nn_id n) n d) nodes d))).
  { induction nodes as [|n nodes IH]; intros d Hd; cbn [fold_left]; [exact Hd|].
    apply IH, setitem_NoDup, Hd. }
  apply H, List.NoDup_nil.
Qed.

Lemma find_has_id nodes k :
  is_Some (find (has_id k) (rev nodes)) <-> exists n, In n nodes /\ nn_id n = k.
Proof.
  split.
  - intros [n Hn]. apply find_some in Hn. destruct Hn as [Hin He].
    apply String.eqb_eq in He. exists n. split; [now apply in_rev|exact He].
  - intros (n & Hin & He). destruct (find (has_id k) (rev nodes)) eqn:Ef; [eauto|].
    exfalso. apply in_rev in Hin.
    pose proof (find_none _ _ Ef n Hin) as Hn. cbv beta in Hn.
    rewrite He, String.eqb_refl in Hn. discriminate.
Qed.

(** The loop over the nodes: a dot for every key, a label for the labelled
    ones, and as many children as dots and labels. *)
Lemma build_nodes_spec sl (items : dict NetworkNode) :
  forall nm lm subs,
  List.NoDup (keys items) ->
  (forall k, In k (keys items) -> get k nm = None /\ get k lm = None) ->
  let '(nm', lm', subs') := fold_left (build_node sl) items (nm, lm, subs) in
  (forall k, get k nm' = match get k items with
                         | Some n => Some (dot_of n)
                         | None => get k nm
                         end)
  /\ (forall k, get k lm'
                = match get k items with
                  | Some n => if sl && negb (String.eqb (nn_label n) "")
                              then Some {| label_text := nn_label n;
                                           label_font_size := 20;
                                           label_above := k |}
                              else None
                  | None => get k lm
                  end)
  /\ length nm' = (length nm + length items)%nat
  /\ (length subs' + length nm + length lm = length subs + length nm' + length lm')%nat.
Proof.
  induction items as [|[k0 n0] items IH]; intros nm lm subs Hnd Hfresh.
  - cbn [fold_left get length]. repeat split; lia.
  - cbn [keys map fst] in Hnd. apply List.NoDup_cons_iff in Hnd.
    destruct Hnd as [Hnot Hnd]. fold (keys items) in Hnot, Hnd.
    destruct (Hfresh k0 ltac:(now left)) as [Hk0 Hl0].
    assert (Hnone : get k0 items = None).
    { destruct (get k0 items) eqn:E; [|reflexivity]. exfalso. apply Hnot.
      apply keys_get. eauto. }
    cbn [fold_left]. unfold build_node at 2.
    set (cond := sl && negb (String.eqb (nn_label n0) "")).
    set (lab := {| label_text := nn_label n0; label_font_size := 20;
                   label_above := k0 |}).
    assert (Hstep : forall lm1 subs1,
               (forall k, get k lm1 = if String.eqb k0 k && cond then Some lab
                                      else get k lm) ->
               (length lm1 = if cond then S (length lm) else length lm) ->
               (length subs1 = if cond then S (S (length subs)) else S (length subs)) ->
               let '(nm', lm', subs') :=
                 fold_left (build_node sl) items (setitem k0 (dot_of n0) nm, lm1, subs1) in
               (forall k, get k nm' = match get k ((k0, n0) :: items) with
                                      | Some n => Some (dot_of n)
                                      | None => get k nm
                                      end)
               /\ (forall k, get k lm'
                   = match get k ((k0, n0) :: items) with
                     | Some n => if sl && negb (String.eqb (nn_label n) "")
                                 then Some {| label_text := nn_label n;
                                              label_font_size := 20;
                                              label_above := k |}
                                 else None
                     | None => get k lm
                     end)
               /\ length nm' = (length nm + length ((k0, n0) :: items))%nat
               /\ (length subs' + length nm + length lm
                   = length subs + length nm' + length lm')%nat).
    { intros lm1 subs1 Hlm1 Hlen1 Hsubs1.
      specialize (IH (setitem k0 (dot_of n0) nm) lm1 subs1 Hnd).
      destruct (fold_left (build_node sl) items _) as [[nm' lm'] subs'].
      destruct IH as (Hn & Hl & Hlen & Hsub).
      { intros k Hin. rewrite get_setitem_ne by (intros ->; contradiction).
        rewrite Hlm1. destruct (String.eqb_spec k0 k) as [->|]; [contradiction|].
        cbn [andb]. apply Hfresh. now right. }
      rewrite setitem_length, Hk0 in Hlen.
      split; [|split; [|split]].
      - intros k. rewrite Hn. cbn [get].
        destruct (String.eqb_spec k0 k) as [<-|Hne].
        + now rewrite Hnone, get_setitem_eq.
        + rewrite get_setitem_ne by assumption. reflexivity.
      - intros k. rewrite Hl. cbn [get]. rewrite Hlm1.
        destruct (String.eqb_spec k0 k) as [<-|Hne].
        + rewrite Hnone. cbn [andb]. fold cond. destruct cond; [reflexivity|exact Hl0].
        + reflexivity.
      - rewrite Hlen. cbn [length]. lia.
      - rewrite setitem_length, Hk0, Hlen1, Hsubs1 in Hsub. cbn [length] in *.
        destruct cond; lia. }
    destruct cond eqn:Ec.
    + apply Hstep.
      * intros k. rewrite get_setitem. now rewrite andb_true_r.
      * now rewrite setitem_length, Hl0.
      * rewrite !length_app. cbn [length]. lia.
    + apply Hstep.
      * intros k. now rewrite andb_false_r.
      * reflexivity.
      * rewrite !length_app. cbn [length]. lia.
Qed.

Lemma build_edges_spec nd nm edges :
  match build_edges nd nm edges with
  | None => exists e, In e edges /\ build_edge nd nm e = None
  | Some lines =>
      length lines = length edges
      /\ forall k e, nth_error edges k = Some e ->
           exists l, nth_error lines k = Some l /\ build_edge nd nm e = Some l
  end.
Proof.
  induction edges as [|e edges IH]; cbn [build_edges].
  - split; [reflexivity|]. intros [|k] e H; discriminate.
  - destruct (build_edge nd nm e) as [l|] eqn:El; [|exists e; split; [now left|exact El]].
    destruct (build_edges nd nm edges) as [lines|].
    + destruct IH as [Hlen Hnth]. split; [cbn; now rewrite Hlen|].
      intros [|k] e' H; cbn [nth_error] in *.
      * inversion H; subst. eauto.
      * apply Hnth, H.
    + destruct IH as (e' & Hin & He). exists e'. split; [now right|exact He].
Qed.

Local Abbreviation label_of show id n :=
  (if show && negb (String.eqb (nn_label n) "")
   then Some {| label_text := nn_label n; label_font_size := 20; label_above := id |}
   else None).

Ltac nodes_loop H :=
  match goal with
  | |- context [fold_left ?f ?l ?a] =>
      let r := fresh "r" in
      set (r := fold_left f l a); change (fold_left _ _ _) with r in H; clearbody r;
      destruct r as [[nm lm] subs]
  end.

(** The loop over the nodes, from the empty dicts. *)
Lemma template_nodes_spec (nodes : list NetworkNode) (show : bool) :
  let '(nm, lm, subs) :=
    fold_left (build_node show) (node_dict nodes) ([], [], []) in
  (forall id, get id nm
              = option_map (fun n => dot_of n) (find (has_id id) (rev nodes)))
  /\ (forall id, is_Some (get id nm) <-> exists n, In n nodes /\ nn_id n = id)
  /\ (forall id, get id lm = match find (has_id id) (rev nodes) with
                             | Some n => label_of show id n
                             | None => None
                             end)
  /\ List.NoDup (keys nm)
  /\ length subs = (length nm + length lm)%nat.
Proof.
  pose proof (build_nodes_spec show (node_dict nodes) [] [] []
                (node_dict_NoDup nodes) ltac:(intros; now split)) as Hb.
  nodes_loop Hb. destruct Hb as (Hnm & Hlm & Hlen & Hsubs).
  assert (Hget : forall id, get id nm
                 = option_map (fun n => dot_of n) (find (has_id id) (rev nodes))).
  { intros id. rewrite Hnm, node_dict_get. now destruct (find _ _). }
  split; [exact Hget|]. split; [|split; [|split]].
  - intros id. rewrite Hget, <- find_has_id.
    destruct (find _ _); cbn; split; intros [x Hx]; try discriminate; eauto.
  - intros id. rewrite Hlm, node_dict_get. now destruct (find _ _).
  - apply (NoDup_incl_NoDup_keys nm (node_dict nodes)).
    + apply node_dict_NoDup.
    + cbn [length] in Hlen. unfold keys. rewrite !length_map. lia.
    + intros k. rewrite !keys_get, Hnm. cbn [get].
      destruct (get k (node_dict nodes)); split; intros [x Hx];
        try discriminate; eauto.
  - cbn [length] in *. lia.
Qed.

Local Abbreviation edge_shape e s t' :=
  (if ne_directed e
   then ArrowOf {| arrow_start := dot_point s; arrow_end := dot_point t';
                   arrow_buff := dot_radius s;
                   arrow_stroke_width := 2 * ne_weight e;
                   arrow_color := ne_color e |}
   else PlainLine {| line_start := dot_point s; line_end := dot_point t';
                     line_stroke_width := 2 * ne_weight e;
                     line_color := ne_color e |}).

(** One edge: a line or an arrow between the two dots, or [KeyError] when
    one is missing. *)
Lemma build_edge_spec (nd : dict NetworkNode) (nm : dict Dot) (e : NetworkEdge) :
  (forall id, get id nm = option_map (fun n => dot_of n) (get id nd)) ->
  match build_edge nd nm e with
  | None => ~ (is_Some (get (ne_source e) nm) /\ is_Some (get (ne_target e) nm))
  | Some m =>
      exists s t', get (ne_source e) nm = Some s
                   /\ get (ne_target e) nm = Some t'
                   /\ shape m = edge_shape e s t'
                   /\ z_index m = 0%Z
  end.
Proof.
  intros Hnd. unfold build_edge.
  destruct (get (ne_source e) nm) as [s|] eqn:Es;
    [|intros [[x Hx] _]; discriminate].
  destruct (get (ne_target e) nm) as [t'|] eqn:Et;
    [|intros [_ [x Hx]]; discriminate].
  destruct (ne_directed e) eqn:Ed.
  - pose proof (Hnd (ne_source e)) as Hs. rewrite Es in Hs.
    destruct (get (ne_source e) nd) as [n|]; [|discriminate].
    cbn [option_map] in Hs. inversion Hs; subst s.
    eexists _, t'. cbn [shape z_index dot_radius dot_point]. repeat split; eauto.
  - exists s, t'. cbn [shape z_index]. repeat split; auto.
Qed.

Lemma nodes_in_node_dict (nodes : list NetworkNode) (nm : dict Dot) :
  (forall id, get id nm
              = option_map (fun n => dot_of n) (find (has_id id) (rev nodes))) ->
  forall id, get id nm = option_map (fun n => dot_of n) (get id (node_dict nodes)).
Proof. intros Hget id. now rewrite Hget, node_dict_get. Qed.

(** When every edge joins nodes, the constructor builds the network; for
    the generated networks. *)
Lemma template_builds (nodes : list NetworkNode) (edges : list NetworkEdge)
    (show : bool) (layout : string) :
  (forall e, In e edges ->
     (exists n, In n nodes /\ nn_id n = ne_source e)
     /\ (exists n, In n nodes /\ nn_id n = ne_target e)) ->
  exists t,
    __init__ nodes edges show layout = inr t
    /\ edge_data t = edges
    /\ List.NoDup (keys (node_mobjects t))
    /\ (forall id, In id (keys (node_mobjects t))
                   <-> exists n, In n nodes /\ nn_id n = id)
    /\ (forall id, get id (node_mobjects t)
                   = option_map (fun n => dot_of n) (find (has_id id) (rev nodes)))
    /\ (forall id, get id (label_mobjects t)
                   = match find (has_id id) (rev nodes) with
                     | Some n => label_of show id n
                     | None => None
                     end).
Proof.
  intros Hall. unfold __init__. cbv zeta.
  pose proof (template_nodes_spec nodes show) as Hn. nodes_loop Hn.
  destruct Hn as (Hget & Hknown & Hlab & Hnd & _).
  pose proof (build_edges_spec (node_dict nodes) nm edges) as He.
  destruct (build_edges (node_dict nodes) nm edges) as [lines|].
  - eexists. split; [reflexivity|].
    cbn [edge_data node_mobjects label_mobjects].
    split; [reflexivity|]. split; [exact Hnd|].
    split; [intros id; rewrite keys_get; apply Hknown|]. split; assumption.
  - exfalso. destruct He as (e & Hin & Hnone).
    pose proof (build_edge_spec (node_dict nodes) nm e
                  (nodes_in_node_dict nodes nm Hget)) as Hedge.
    rewrite Hnone in Hedge. apply Hedge. rewrite !Hknown. now apply Hall.
Qed.

(** X17. [NetworkTemplate(nodes, edges)] raises [KeyError] when an end of
    some edge is not the id of a node, and otherwise builds one mobject per
    edge, in order, all behind the nodes (z-index -1): for an undirected
    edge a line from the dot of its source to the dot of its target, twice
    the weight wide; for a directed edge an arrow, asked for between the
    same two points with the source's radius as [buff] and twice the weight
    as stroke width (what the engine draws of an arrow is shorter, and
    thinner when the arrow is short).  Nodes are kept by id: of several
    nodes with one id the last one is drawn, once; a node gets a label when
    labels are shown and its label is not empty; and the group has one
    child per dot, label and edge. *)
Theorem network_template_build (nodes : list NetworkNode) (edges : list NetworkEdge)
    (show : bool) (layout : string) :
  let known id := exists n, In n nodes /\ nn_id n = id in
  ((exists e, In e edges /\ ~ (known (ne_source e) /\ known (ne_target e))) ->
   __init__ nodes edges show layout = inl KeyError)
  /\ ((forall e, In e edges -> known (ne_source e) /\ known (ne_target e)) ->
      exists t,
        __init__ nodes edges show layout = inr t
        /\ edge_data t = edges
        /\ length (edge_mobjects t) = length edges
        /\ List.NoDup (keys (node_mobjects t))
        /\ (forall id, In id (keys (node_mobjects t)) <-> known id)
        /\ (forall id, get id (node_mobjects t)
                       = option_map (fun n => dot_of n) (find (has_id id) (rev nodes)))
        /\ (forall k e, nth_error edges k = Some e ->
              exists m s t',
                nth_error (edge_mobjects t) k = Some m
                /\ get (ne_source e) (node_mobjects t) = Some s
                /\ get (ne_target e) (node_mobjects t) = Some t'
                /\ z_index m = (-1)%Z
                /\ shape m
                   = if ne_directed e
                     then ArrowOf {| arrow_start := dot_point s;
                                     arrow_end := dot_point t';
                                     arrow_buff := dot_radius s;
                                     arrow_stroke_width := 2 * ne_weight e;
                                     arrow_color := ne_color e |}
                     else PlainLine {| line_start := dot_point s;
                                       line_end := dot_point t';
                                       line_stroke_width := 2 * ne_weight e;
                                       line_color := ne_color e |})
        /\ length (submobjects t)
           = (length (node_mobjects t) + length (label_mobjects t)
              + length edges)%nat
        /\ (forall id, get id (label_mobjects t)
                       = match find (has_id id) (rev nodes) with
                         | Some n => label_of show id n
                         | None => None
                         end)).
Proof.
  cbv zeta. unfold __init__. cbv zeta.
  pose proof (template_nodes_spec nodes show) as Hn. nodes_loop Hn.
  destruct Hn as (Hget & Hknown & Hlab & Hnd & Hsubs).
  pose proof (fun e => build_edge_spec (node_dict nodes) nm e
                         (nodes_in_node_dict nodes nm Hget)) as Hedge.
  pose proof (build_edges_spec (node_dict nodes) nm edges) as He.
  split.
  - intros (e & Hin & Hbad).
    destruct (build_edges (node_dict nodes) nm edges) as [lines|]; [|reflexivity].
    exfalso. destruct He as [_ Hnth]. apply In_nth_error in Hin.
    destruct Hin as [k Hk]. destruct (Hnth k e Hk) as (l & _ & Hl).
    specialize (Hedge e). rewrite Hl in Hedge.
    destruct Hedge as (s & t' & Hs & Ht & _). apply Hbad.
    rewrite <- !Hknown, Hs, Ht. eauto.
  - intros Hall.
    destruct (build_edges (node_dict nodes) nm edges) as [lines|].
    + destruct He as [Hl Hnth]. eexists. split; [reflexivity|].
      cbn [edge_data edge_mobjects node_mobjects label_mobjects submobjects].
      split; [reflexivity|]. split; [now rewrite length_map|].
      split; [exact Hnd|].
      split; [intros id; rewrite keys_get; apply Hknown|].
      split; [exact Hget|]. split; [|split; [|exact Hlab]].
      * intros k e Hk. destruct (Hnth k e Hk) as (l & Hlk & Hbl).
        specialize (Hedge e). rewrite Hbl in Hedge.
        destruct Hedge as (s & t' & Hs & Ht & Hshape & _).
        exists (set_z_index (-1) l), s, t'.
        rewrite nth_error_map, Hlk. cbn [option_map set_z_index shape z_index].
        repeat split; auto.
      * rewrite length_app, length_map, length_seq. lia.
    + exfalso. destruct He as (e & Hin & Hnone). specialize (Hedge e).
      rewrite Hnone in Hedge. apply Hedge. rewrite !Hknown. now apply Hall.
Qed.
End TemplateFacts.


(** ** highlight_path *)

Section HighlightPath.
Import PyNum PyDict Networks.
Local Open Scope Q_scope.

Lemma in_range (n i : Z) : In i (range n) <-> (0 <= i < n)%Z.
Proof.
  unfold range. rewrite in_map_iff. split.
  - intros (k & <- & Hk). apply in_seq in Hk. lia.
  - intros H. exists (Z.to_nat i). split; [lia|]. apply in_seq. lia.
Qed.

Lemma nth_error_combine {A B : Type} (l : list A) (l' : list B) (k : nat) a b :
  nth_error (combine l l') k = Some (a, b)
  <-> nth_error l k = Some a /\ nth_error l' k = Some b.
Proof.
  revert l' k. induction l as [|x l IH]; intros [|y l'] [|k]; cbn;
    try (split; [discriminate|intros [? ?]; discriminate]).
  - split; [intros [= -> ->]; auto|intros [[= ->] [= ->]]; reflexivity].
  - apply IH.
Qed.

Local Abbreviation runs e source target :=
  (String.eqb (ne_source e) source && String.eqb (ne_target e) target).

Lemma find_edge_spec source target pairs : forall k,
  match find_edge source target k pairs with
  | Some j =>
      (k <= j)%nat
      /\ (exists l e, nth_error pairs (j - k) = Some (l, e)
                      /\ ne_source e = source /\ ne_target e = target)
      /\ forall i l e, (i < j - k)%nat -> nth_error pairs i = Some (l, e) ->
                       ~ (ne_source e = source /\ ne_target e = target)
  | None =>
      forall l e, In (l, e) pairs -> ~ (ne_source e = source /\ ne_target e = target)
  end.
Proof.
  induction pairs as [|[l e] pairs IH]; intros k; cbn [find_edge].
  - intros l e [].
  - destruct (runs e source target) eqn:Er.
    + apply andb_true_iff in Er. destruct Er as [Hs Ht].
      apply String.eqb_eq in Hs, Ht.
      split; [lia|]. rewrite Nat.sub_diag. split; [exists l, e; cbn; auto|].
      intros i l' e' Hi. lia.
    + assert (Hno : ~ (ne_source e = source /\ ne_target e = target)).
      { intros [Hs Ht]. rewrite Hs, Ht, !String.eqb_refl in Er. discriminate. }
      specialize (IH (S k)).
      destruct (find_edge source target (S k) pairs) as [j|].
      * destruct IH as (Hle & (l' & e' & Hn & Hs & Ht) & Hfirst).
        split; [lia|].
        replace (j - k)%nat with (S (j - S k)) by lia.
        split; [exists l', e'; cbn [nth_error]; auto|].
        intros [|i] l0 e0 Hi H0; cbn [nth_error] in H0.
        -- inversion H0; subst. exact Hno.
        -- eapply Hfirst; [|exact H0]. lia.
      * intros l' e' [E|Hin]; [inversion E; subst; exact Hno|eapply IH, Hin].
Qed.

(** X18. [highlight_path] recolours at most one edge per step of the path,
    so at most [len(path) - 1] edges (none for an empty or one-node path),
    each in the given colour at width 4, in the order of the path.  The edge
    recoloured for a step from [a] to [b] is the first edge of the network
    whose source is [a] and whose target is [b]; a step that no edge runs
    along in this direction is skipped silently, also when an undirected
    edge joins the two nodes the other way round. *)
Theorem highlight_path_first_edges (self : NetworkTemplate) (path : list string)
    (color : Colour) :
  let anims := highlight_path self path color in
  let step i a b := nth_error path i = Some a /\ nth_error path (S i) = Some b in
  let edge k e := nth_error (edge_data self) k = Some e
                  /\ (k < length (edge_mobjects self))%nat in
  (length anims <= length path - 1)%nat
  /\ Forall (fun r =>
       to_color r = color /\ to_width r = 4
       /\ exists i a b e,
            step i a b /\ edge (target_line r) e
            /\ ne_source e = a /\ ne_target e = b
            /\ forall k e', (k < target_line r)%nat -> edge k e' ->
                            ~ (ne_source e' = a /\ ne_target e' = b)) anims
  /\ ((forall i a b, step i a b ->
         exists k e, edge k e /\ ne_source e = a /\ ne_target e = b) ->
      length anims = (length path - 1)%nat)
  /\ ((forall i a b k e, step i a b -> edge k e ->
                         ~ (ne_source e = a /\ ne_target e = b)) ->
      anims = []).
Proof.
  cbv zeta. unfold highlight_path.
  set (pairs := combine (edge_mobjects self) (edge_data self)).
  assert (Hpairs : forall k e,
             (exists l, nth_error pairs k = Some (l, e))
             <-> nth_error (edge_data self) k = Some e
                 /\ (k < length (edge_mobjects self))%nat).
  { intros k e. split.
    - intros (l & H). apply nth_error_combine in H. destruct H as [Hl He].
      split; [exact He|]. apply nth_error_Some. congruence.
    - intros [He Hk]. apply nth_error_Some in Hk.
      destruct (nth_error (edge_mobjects self) k) as [l|] eqn:El; [|contradiction].
      exists l. apply nth_error_combine. auto. }
  set (f := fun i : Z => match nth_error path (Z.to_nat i) with
                         | Some source =>
                             match nth_error path (Z.to_nat (i + 1)) with
                             | Some target =>
                                 match find_edge source target 0 pairs with
                                 | Some k => [{| target_line := k; to_color := color;
                                                 to_width := 4 |}]
                                 | None => []
                                 end
                             | None => []
                             end
                         | None => []
                         end).
  assert (Hrange : length (range (Z.of_nat (length path) - 1)) = (length path - 1)%nat).
  { unfold range. rewrite length_map, length_seq. lia. }
  assert (Hsucc : forall i, (0 <= i)%Z -> Z.to_nat (i + 1) = S (Z.to_nat i)) by (intros; lia).
  split; [|split; [|split]].
  - rewrite <- Hrange.
    assert (H : Forall (fun i => (0 <= length (f i) <= 1)%nat)
                       (range (Z.of_nat (length path) - 1))).
    { apply List.Forall_forall. intros i _. unfold f.
      destruct (nth_error path (Z.to_nat i)); [|cbn; lia].
      destruct (nth_error path (Z.to_nat (i + 1))); [|cbn; lia].
      destruct (find_edge _ _ 0 pairs); cbn; lia. }
    apply flat_map_length_bounds in H. fold f. lia.
  - apply List.Forall_forall. intros r Hr. apply in_flat_map in Hr.
    destruct Hr as (i & Hi & Hr). apply in_range in Hi. unfold f in Hr. revert Hr.
    destruct (nth_error path (Z.to_nat i)) as [a|] eqn:Ea; [|intros []].
    destruct (nth_error path (Z.to_nat (i + 1))) as [b|] eqn:Eb; [|intros []].
    pose proof (find_edge_spec a b pairs 0) as Hf.
    destruct (find_edge a b 0 pairs) as [k|]; [|intros []].
    intros [<-|[]]. cbn [to_color to_width target_line].
    split; [reflexivity|]. split; [reflexivity|].
    destruct Hf as (_ & (l & e & Hn & Hs & Ht) & Hfirst).
    rewrite Nat.sub_0_r in Hn, Hfirst.
    exists (Z.to_nat i), a, b, e. rewrite <- Hsucc by lia.
    split; [auto|]. split; [apply Hpairs; eauto|]. split; [exact Hs|].
    split; [exact Ht|]. intros k' e' Hk He'. apply Hpairs in He'.
    destruct He' as (l' & Hl'). eapply Hfirst; eauto.
  - intros Hall. rewrite <- Hrange. rewrite <- (Nat.mul_1_r (length (range _))).
    apply flat_map_constant_length. intros i Hi. apply in_range in Hi. unfold f.
    assert (Hlt : (S (Z.to_nat i) < length path)%nat) by lia.
    destruct (nth_error path (Z.to_nat i)) as [a|] eqn:Ea;
      [|apply nth_error_None in Ea; lia].
    rewrite Hsucc by lia.
    destruct (nth_error path (S (Z.to_nat i))) as [b|] eqn:Eb;
      [|apply nth_error_None in Eb; lia].
    pose proof (find_edge_spec a b pairs 0) as Hf.
    destruct (find_edge a b 0 pairs) as [k|]; [reflexivity|]. exfalso.
    destruct (Hall (Z.to_nat i) a b (conj Ea Eb)) as (k & e & He & Hs & Ht).
    apply Hpairs in He. destruct He as (l & Hl).
    apply (Hf l e); [eapply nth_error_In, Hl|auto].
  - intros Hnone.
    assert (H : Forall (fun i => (0 <= length (f i) <= 0)%nat)
                       (range (Z.of_nat (length path) - 1))).
    { apply List.Forall_forall. intros i Hi. apply in_range in Hi. unfold f.
      destruct (nth_error path (Z.to_nat i)) as [a|] eqn:Ea; [|cbn; lia].
      rewrite Hsucc by lia.
      destruct (nth_error path (S (Z.to_nat i))) as [b|] eqn:Eb; [|cbn; lia].
      pose proof (find_edge_spec a b pairs 0) as Hf.
      destruct (find_edge a b 0 pairs) as [k|]; [|cbn; lia]. exfalso.
      destruct Hf as (_ & (l & e & Hn & Hs & Ht) & _). rewrite Nat.sub_0_r in Hn.
      apply (Hnone (Z.to_nat i) a b k e); auto. apply Hpairs. eauto. }
    apply flat_map_length_bounds in H. fold f in H.
    apply length_zero_iff_nil. lia.
Qed.
End HighlightPath.


(** ** Loops that collect *)

Section ForIn.
Import Networks.
Context {A T S : Type}.
Implicit Types (xs : list A) (body : A -> S -> list T * S).

Lemma for_in_cons x xs body st :
  fst (for_in (x :: xs) body st)
  = fst (body x st) ++ fst (for_in xs body (snd (body x st)))
  /\ snd (for_in (x :: xs) body st) = snd (for_in xs body (snd (body x st))).
Proof.
  cbn [for_in]. destruct (body x st) as [ts st1]. cbn [fst snd].
  now destruct (for_in xs body st1).
Qed.

Lemma for_in_Forall (P : T -> Prop) xs body :
  (forall x st, In x xs -> Forall P (fst (body x st))) ->
  forall st, Forall P (fst (for_in xs body st)).
Proof.
  induction xs as [|x xs IH]; intros Hb st; [constructor|].
  rewrite (proj1 (for_in_cons x xs body st)). apply Forall_app. split.
  - apply Hb. now left.
  - apply IH. intros y st' Hy. apply Hb. now right.
Qed.

Lemma for_in_length (lo hi : nat) xs body :
  (forall x st, In x xs -> (lo <= length (fst (body x st)) <= hi)%nat) ->
  forall st, (length xs * lo <= length (fst (for_in xs body st)) <= length xs * hi)%nat.
Proof.
  induction xs as [|x xs IH]; intros Hb st; [cbn; lia|].
  rewrite (proj1 (for_in_cons x xs body st)), length_app. cbn [length].
  specialize (Hb x st (or_introl eq_refl)) as Hx.
  specialize (IH (fun y st' Hy => Hb y st' (or_intror Hy)) (snd (body x st))).
  lia.
Qed.

Lemma for_in_map {K : Type} (h : T -> K) (k : A -> list K) xs body :
  (forall x st, In x xs -> map h (fst (body x st)) = k x) ->
  forall st, map h (fst (for_in xs body st)) = flat_map k xs.
Proof.
  induction xs as [|x xs IH]; intros Hb st; [reflexivity|].
  rewrite (proj1 (for_in_cons x xs body st)), map_app. cbn [flat_map].
  rewrite (Hb x st (or_introl eq_refl)). f_equal.
  apply IH. intros y st' Hy. apply Hb. now right.
Qed.

(** Turns that produce duplicate-free keys, each key telling its turn,
    produce duplicate-free keys together. *)
Lemma for_in_NoDup {K : Type} (key : T -> K) (R : A -> K -> Prop) xs body :
  List.NoDup xs ->
  (forall x x' k, R x k -> R x' k -> x = x') ->
  (forall x st, In x xs -> List.NoDup (map key (fst (body x st)))) ->
  (forall x st, In x xs -> Forall (fun t => R x (key t)) (fst (body x st))) ->
  forall st, List.NoDup (map key (fst (for_in xs body st))).
Proof.
  intros Hnd Hfun. induction xs as [|x xs IH]; intros Hb HR st;
    [apply List.NoDup_nil|].
  apply List.NoDup_cons_iff in Hnd. destruct Hnd as [Hx Hnd].
  rewrite (proj1 (for_in_cons x xs body st)), map_app.
  apply List.NoDup_app.
  - apply Hb. now left.
  - apply IH; [exact Hnd| |].
    + intros y st' Hy. apply Hb. now right.
    + intros y st' Hy. apply HR. now right.
  - intros k Hk Hk'. apply in_map_iff in Hk, Hk'.
    destruct Hk as (t & <- & Ht). destruct Hk' as (t' & E & Ht').
    pose proof (proj1 (List.Forall_forall _ _) (HR x st (or_introl eq_refl)) t Ht) as H1.
    assert (Hgen : forall l, (forall y, In y l -> In y xs) -> forall s0,
               Forall (fun t => exists y, In y xs /\ R y (key t))
                      (fst (for_in l body s0))).
    { induction l as [|y l IHl]; intros Hl s0; [constructor|].
      rewrite (proj1 (for_in_cons y l body s0)). apply Forall_app. split.
      - eapply List.Forall_impl; [|apply (HR y s0); right; apply Hl; now left].
        intros t0 Ht0. exists y. split; [apply Hl; now left|exact Ht0].
      - apply IHl. intros z Hz. apply Hl. now right. }
    pose proof (Hgen xs (fun y Hy => Hy) (snd (body x st))) as H2.
    destruct (proj1 (List.Forall_forall _ _) H2 t' Ht') as (y & Hy & Hr).
    rewrite E in Hr. rewrite (Hfun _ _ _ H1 Hr) in Hx. contradiction.
Qed.
End ForIn.


(** ** BiologicalNetwork *)

Section Biological.
Import PyNum NumpyRandom PyDict Networks.
Local Open Scope Q_scope.

Local Abbreviation plant_id i := ("plant_" ++ str_of_int i)%string.
Local Abbreviation fungus_id i := ("fungus_" ++ str_of_int i)%string.
Local Abbreviation link e := (ne_source e, ne_target e).
Local Abbreviation height n := (ProceduralHyphae.vy (nn_position n)).

Lemma py_random_range g :
  0 <= fst (PyRandom.random g) /\ fst (PyRandom.random g) < 1.
Proof. exact (random_sample_range g). Qed.

Lemma py_uniform_range a b g :
  a < b -> a <= fst (PyRandom.uniform a b g) /\ fst (PyRandom.uniform a b g) < b.
Proof. exact (uniform_range a b g). Qed.

Lemma map_NoDup_inj {A B : Type} (f : A -> B) (l : list A) :
  (forall a b, f a = f b -> a = b) -> List.NoDup l -> List.NoDup (map f l).
Proof.
  intros Hinj. induction 1 as [|x l Hx Hl IH]; cbn [map]; [apply List.NoDup_nil|].
  apply List.NoDup_cons; [|exact IH].
  rewrite in_map_iff. intros (y & E & Hy). apply Hinj in E. now subst.
Qed.

Lemma range_NoDup (n : Z) : List.NoDup (range n).
Proof.
  unfold range. apply map_NoDup_inj; [|apply seq_NoDup].
  intros a b H. lia.
Qed.

Lemma flat_map_singleton {A B : Type} (f : A -> B) (l : list A) :
  flat_map (fun x => [f x]) l = map f l.
Proof. induction l as [|x l IH]; cbn; [reflexivity|now rewrite IH]. Qed.

Lemma id_inj (prefix : string) (a b : Z) :
  (prefix ++ str_of_int a = prefix ++ str_of_int b)%string -> a = b.
Proof. intros H. apply append_inj_l in H. now apply str_of_int_inj. Qed.

Lemma plant_is_no_fungus (a b : string) : ("plant_" ++ a <> "fungus_" ++ b)%string.
Proof.
  change ("plant_" ++ a)%string with (String "p" ("lant_" ++ a)%string).
  change ("fungus_" ++ b)%string with (String "f" ("ungus_" ++ b)%string).
  discriminate.
Qed.

Lemma plants_spec (num_plants : Z) (g : RandomState) :
  let plants := fst (for_in (range num_plants) (plant_node num_plants) g) in
  map nn_id plants = map (fun i => plant_id i) (range num_plants)
  /\ Forall (fun n => (17 # 10) <= height n /\ height n < (23 # 10)) plants.
Proof.
  cbv zeta. split.
  - rewrite <- (flat_map_singleton (fun i => plant_id i)).
    apply for_in_map. intros i st _. unfold plant_node. now destruct (PyRandom.uniform _ _ st).
  - apply for_in_Forall. intros i st _. unfold plant_node.
    pose proof (py_uniform_range (- (3 # 10)) (3 # 10) st ltac:(reflexivity)) as Hu.
    destruct (PyRandom.uniform _ _ st) as [dy g1]. cbn [fst] in *.
    constructor; [|constructor]. cbn. lra.
Qed.

Lemma fungi_spec (num_fungi : Z) (g : RandomState) :
  let fungi := fst (for_in (range num_fungi) (fungus_node num_fungi) g) in
  map nn_id fungi = map (fun i => fungus_id i) (range num_fungi)
  /\ Forall (fun n => - (18 # 10) <= height n /\ height n < - (12 # 10)) fungi.
Proof.
  cbv zeta. split.
  - rewrite <- (flat_map_singleton (fun i => fungus_id i)).
    apply for_in_map. intros i st _. unfold fungus_node. now destruct (PyRandom.uniform _ _ st).
  - apply for_in_Forall. intros i st _. unfold fungus_node.
    pose proof (py_uniform_range (- (3 # 10)) (3 # 10) st ltac:(reflexivity)) as Hu.
    destruct (PyRandom.uniform _ _ st) as [dy g1]. cbn [fst] in *.
    constructor; [|constructor]. cbn. lra.
Qed.

Lemma plant_fungus_edge_spec c p f g :
  (length (fst (plant_fungus_edge c p f g)) <= 1)%nat
  /\ Forall (fun e => link e = (plant_id p, fungus_id f)
                      /\ (1 # 2) <= ne_weight e /\ ne_weight e < (3 # 2)
                      /\ ne_directed e = false)
            (fst (plant_fungus_edge c p f g))
  /\ (1 <= c -> map (fun e => link e) (fst (plant_fungus_edge c p f g))
                = [(plant_id p, fungus_id f)])
  /\ (c <= 0 -> fst (plant_fungus_edge c p f g) = []).
Proof.
  unfold plant_fungus_edge.
  pose proof (py_random_range g) as [Hr0 Hr1].
  destruct (PyRandom.random g) as [r g1]. cbn [fst] in Hr0, Hr1.
  pose proof (py_uniform_range (1 # 2) (3 # 2) g1 ltac:(reflexivity)) as Hu.
  destruct (PyRandom.uniform _ _ g1) as [w g2]. cbn [fst] in Hu.
  unfold Qltb. destruct (Qle_bool c r) eqn:E; cbn [negb fst length map].
  - apply Qle_bool_iff in E. split; [lia|]. split; [constructor|].
    split; [intros; lra|reflexivity].
  - split; [lia|]. split; [constructor; [cbn; tauto|constructor]|].
    split; [reflexivity|]. intros Hc.
    assert (Qle_bool c r = true) by (apply Qle_bool_iff; lra). congruence.
Qed.

Lemma bio_edges_spec (num_plants num_fungi : Z) (c : Q) (g : RandomState) :
  let edges :=
    fst (for_in (range num_plants)
           (fun plant_idx g =>
              for_in (range num_fungi) (plant_fungus_edge c plant_idx) g) g) in
  (length edges <= Z.to_nat num_plants * Z.to_nat num_fungi)%nat
  /\ Forall (fun e => exists p f,
               (0 <= p < num_plants)%Z /\ (0 <= f < num_fungi)%Z
               /\ link e = (plant_id p, fungus_id f)
               /\ (1 # 2) <= ne_weight e /\ ne_weight e < (3 # 2)
               /\ ne_directed e = false) edges
  /\ List.NoDup (map (fun e => link e) edges)
  /\ (1 <= c ->
      map (fun e => link e) edges
      = flat_map (fun p => map (fun f => (plant_id p, fungus_id f)) (range num_fungi))
                 (range num_plants))
  /\ (c <= 0 -> edges = []).
Proof.
  cbv zeta.
  assert (Hlen : forall n, length (range n) = Z.to_nat n).
  { intros n. unfold range. now rewrite length_map, length_seq. }
  split; [|split; [|split; [|split]]].
  - rewrite <- (Hlen num_plants).
    apply (for_in_length 0 (Z.to_nat num_fungi)). intros p st _.
    rewrite <- (Nat.mul_1_r (Z.to_nat num_fungi)), <- (Hlen num_fungi).
    split; [lia|]. apply (for_in_length 0 1). intros f st' _.
    destruct (plant_fungus_edge_spec c p f st') as [H _]. lia.
  - apply for_in_Forall. intros p st Hp. apply in_range in Hp.
    apply for_in_Forall. intros f st' Hf. apply in_range in Hf.
    destruct (plant_fungus_edge_spec c p f st') as (_ & H & _).
    eapply List.Forall_impl; [|exact H]. intros e (H1 & H2 & H3 & H4). exists p, f.
    repeat split; auto; lia.
  - apply (for_in_NoDup (fun e => link e) (fun p k => fst k = plant_id p)).
    + apply range_NoDup.
    + intros p p' k H1 H2. rewrite H1 in H2. now apply id_inj in H2.
    + intros p st _.
      apply (for_in_NoDup (fun e => link e) (fun f k => snd k = fungus_id f)).
      * apply range_NoDup.
      * intros f f' k H1 H2. rewrite H1 in H2. now apply id_inj in H2.
      * intros f st' _. destruct (plant_fungus_edge_spec c p f st') as (Hl & _).
        destruct (fst (plant_fungus_edge c p f st')) as [|e [|e' l]];
          cbn [map length] in *; [apply List.NoDup_nil| |lia].
        apply List.NoDup_cons; [intros []|apply List.NoDup_nil].
      * intros f st' _. destruct (plant_fungus_edge_spec c p f st') as (_ & H & _).
        eapply List.Forall_impl; [|exact H]. intros e (He & _). now rewrite He.
    + intros p st _. apply for_in_Forall. intros f st' _.
      destruct (plant_fungus_edge_spec c p f st') as (_ & H & _).
      eapply List.Forall_impl; [|exact H]. intros e (He & _). now rewrite He.
  - intros Hc. apply for_in_map. intros p st _.
    rewrite <- (flat_map_singleton (fun f => (plant_id p, fungus_id f))).
    apply for_in_map. intros f st' _.
    now apply plant_fungus_edge_spec.
  - intros Hc. apply length_zero_iff_nil.
    pose proof (for_in_length 0 0 (range num_plants)
                  (fun plant_idx g =>
                     for_in (range num_fungi) (plant_fungus_edge c plant_idx) g)) as H.
    specialize (H ltac:(intros p st _;
      pose proof (for_in_length 0 0 (range num_fungi) (plant_fungus_edge c p)
                    ltac:(intros f st' _;
                          rewrite (proj2 (proj2 (proj2 (plant_fungus_edge_spec c p f st'))) Hc);
                          cbn; lia) st); lia) g).
    lia.
Qed.

Lemma bio_generate_eq (num_plants num_fungi : Z) (c : Q) (g : RandomState) :
  exists g1 g2,
    fst (_generate_biological_network num_plants num_fungi c g)
    = (fst (for_in (range num_plants) (plant_node num_plants) g)
       ++ fst (for_in (range num_fungi) (fungus_node num_fungi) g1),
       fst (for_in (range num_plants)
              (fun plant_idx g =>
                 for_in (range num_fungi) (plant_fungus_edge c plant_idx) g) g2)).
Proof.
  unfold _generate_biological_network.
  destruct (for_in (range num_plants) (plant_node num_plants) g) as [plants g1].
  destruct (for_in (range num_fungi) (fungus_node num_fungi) g1) as [fungi g2] eqn:E2.
  exists g1, g2. rewrite E2.
  now destruct (for_in (range num_plants) _ g2) as [edges g3].
Qed.

(** X19. The generated mycorrhizal network has the plants [plant_0 ..] and
    then the fungi [fungus_0 ..], all ids different; every plant lies above
    every fungus (heights within 2 +/- 0.3 and -1.5 +/- 0.3).  Its edges
    are undirected, run from a plant to a fungus, have a weight in
    [[0.5, 1.5)], and no pair is joined twice; so there are at most
    [num_plants * num_fungi] of them.  A connectivity of 1 or more joins
    every plant to every fungus, one of 0 or less joins nothing. *)
Theorem biological_network_shape (num_plants num_fungi : Z) (connectivity : Q)
    (g : RandomState) :
  exists plants fungi edges,
    fst (_generate_biological_network num_plants num_fungi connectivity g)
    = (plants ++ fungi, edges)
    /\ map nn_id plants = map (fun i => plant_id i) (range num_plants)
    /\ map nn_id fungi = map (fun i => fungus_id i) (range num_fungi)
    /\ List.NoDup (map nn_id (plants ++ fungi))
    /\ (forall p f, In p plants -> In f fungi -> height f < height p)
    /\ (length edges <= Z.to_nat num_plants * Z.to_nat num_fungi)%nat
    /\ Forall (fun e => exists p f,
                 (0 <= p < num_plants)%Z /\ (0 <= f < num_fungi)%Z
                 /\ link e = (plant_id p, fungus_id f)
                 /\ (1 # 2) <= ne_weight e /\ ne_weight e < (3 # 2)
                 /\ ne_directed e = false) edges
    /\ List.NoDup (map (fun e => link e) edges)
    /\ (1 <= connectivity ->
        map (fun e => link e) edges
        = flat_map (fun p => map (fun f => (plant_id p, fungus_id f)) (range num_fungi))
                   (range num_plants))
    /\ (connectivity <= 0 -> edges = []).
Proof.
  destruct (bio_generate_eq num_plants num_fungi connectivity g) as (g1 & g2 & E).
  destruct (plants_spec num_plants g) as [Hpid Hph].
  destruct (fungi_spec num_fungi g1) as [Hfid Hfh].
  pose proof (bio_edges_spec num_plants num_fungi connectivity g2) as He.
  cbv zeta in *.
  eexists _, _, _. split; [exact E|].
  split; [exact Hpid|]. split; [exact Hfid|]. split; [|split; [|exact He]].
  - rewrite map_app, Hpid, Hfid. apply List.NoDup_app.
    + apply map_NoDup_inj; [|apply range_NoDup].
      intros a b H. now apply id_inj in H.
    + apply map_NoDup_inj; [|apply range_NoDup].
      intros a b H. now apply id_inj in H.
    + intros k Hk Hk'. apply in_map_iff in Hk, Hk'.
      destruct Hk as (a & <- & _). destruct Hk' as (b & E' & _).
      symmetry in E'. now apply plant_is_no_fungus in E'.
  - intros p f Hp Hf.
    pose proof (proj1 (List.Forall_forall _ _) Hph p Hp) as [H1 _].
    pose proof (proj1 (List.Forall_forall _ _) Hfh f Hf) as [_ H2]. lra.
Qed.

Lemma same_elements_length {A : Type} (l l' : list A) :
  List.NoDup l -> List.NoDup l' -> (forall x, In x l <-> In x l') ->
  length l = length l'.
Proof.
  intros H1 H2 H. apply Nat.le_antisymm; apply NoDup_incl_length; auto;
    intros x Hx; now apply H.
Qed.

Lemma in_firstn {A : Type} (k : nat) (l : list A) (x : A) :
  In x (firstn k l) -> In x l.
Proof.
  intros H. rewrite <- (firstn_skipn k l). apply in_or_app. now left.
Qed.

Lemma carbon_flows_spec (t : NetworkTemplate) (rt : Q) (edges : list NetworkEdge)
    (P : Flow -> Prop) :
  (forall e, In e edges ->
     exists fl, carbon_flow t rt e = inr fl /\ P fl) ->
  exists flows, carbon_flows t rt edges = inr flows
                /\ length flows = length edges /\ Forall P flows.
Proof.
  induction edges as [|e edges IH]; intros H; cbn [carbon_flows].
  - exists []. repeat split. constructor.
  - destruct (H e (or_introl eq_refl)) as (fl & -> & Hfl).
    destruct IH as (flows & -> & Hlen & Hall).
    { intros e' He'. apply H. now right. }
    exists (fl :: flows). cbn [length]. repeat split; [now rewrite Hlen|].
    now constructor.
Qed.

Lemma Qltb_0 (x : Q) : Qltb x 0 = true <-> x < 0.
Proof.
  unfold Qltb. rewrite negb_true_iff. split.
  - intros E. apply Qnot_le_lt. intros H. apply Qle_bool_iff in H. congruence.
  - intros H. destruct (Qle_bool 0 x) eqn:E; [|reflexivity].
    apply Qle_bool_iff in E. lra.
Qed.

(** X20. [BiologicalNetwork(...)] never raises: every generated edge joins
    two generated nodes, and the network has one dot per plant and fungus.
    [animate_nutrient_exchange] with a positive run time then gives one flow
    for each of the first three edges (for each edge, when there are fewer),
    with the run time asked for, and each flow runs downwards, from a plant
    to a fungus.  With a negative run time it raises [ValueError], the
    engine's refusal, unless the network has no edge at all. *)
Theorem biological_network_builds (num_plants num_fungi : Z) (connectivity : Q)
    (show_flow show : bool) (layout : string) (g : RandomState) :
  exists net,
    fst (BiologicalNetwork__init__ num_plants num_fungi connectivity show_flow show
           layout g) = inr net
    /\ show_nutrient_flow net = show_flow
    /\ edge_data (bio_template net)
       = snd (fst (_generate_biological_network num_plants num_fungi connectivity g))
    /\ length (node_mobjects (bio_template net))
       = (Z.to_nat num_plants + Z.to_nat num_fungi)%nat
    /\ (forall run_time,
         0 < run_time ->
         exists flows,
           animate_nutrient_exchange net run_time = inr flows
           /\ length flows = Nat.min 3 (length (edge_data (bio_template net)))
           /\ Forall (fun fl => flow_run_time fl = run_time
                                /\ ProceduralHyphae.vy (flow_to fl)
                                   < ProceduralHyphae.vy (flow_from fl)) flows)
    /\ (forall run_time,
         run_time < 0 ->
         animate_nutrient_exchange net run_time
         = match edge_data (bio_template net) with
           | [] => inr []
           | _ :: _ => inl ValueError
           end).
Proof.
  destruct (bio_generate_eq num_plants num_fungi connectivity g) as (g1 & g2 & E).
  destruct (plants_spec num_plants g) as [Hpid Hph].
  destruct (fungi_spec num_fungi g1) as [Hfid Hfh].
  destruct (bio_edges_spec num_plants num_fungi connectivity g2) as (_ & Hedges & _).
  cbv zeta in *.
  set (plants := fst (for_in (range num_plants) (plant_node num_plants) g)) in *.
  set (fungi := fst (for_in (range num_fungi) (fungus_node num_fungi) g1)) in *.
  set (edges := fst (for_in (range num_plants) _ g2)) in *.
  clearbody plants fungi edges.
  unfold BiologicalNetwork__init__.
  destruct (_generate_biological_network num_plants num_fungi connectivity g)
    as [[nodes edges'] g'].
  cbn [fst snd] in E. apply pair_equal_spec in E. destruct E as [-> ->].
  assert (Hplant : forall p, (0 <= p < num_plants)%Z ->
             exists n, In n plants /\ nn_id n = plant_id p).
  { intros p Hp. assert (Hin : In (plant_id p) (map nn_id plants)).
    { rewrite Hpid. apply in_map_iff. exists p. split; [reflexivity|now apply in_range]. }
    apply in_map_iff in Hin. destruct Hin as (n & Hn & Hin). eauto. }
  assert (Hfungus : forall f, (0 <= f < num_fungi)%Z ->
             exists n, In n fungi /\ nn_id n = fungus_id f).
  { intros f Hf. assert (Hin : In (fungus_id f) (map nn_id fungi)).
    { rewrite Hfid. apply in_map_iff. exists f. split; [reflexivity|now apply in_range]. }
    apply in_map_iff in Hin. destruct Hin as (n & Hn & Hin). eauto. }
  assert (Hids : List.NoDup (map nn_id (plants ++ fungi))).
  { rewrite map_app, Hpid, Hfid. apply List.NoDup_app.
    + apply map_NoDup_inj; [|apply range_NoDup].
      intros a b H. now apply id_inj in H.
    + apply map_NoDup_inj; [|apply range_NoDup].
      intros a b H. now apply id_inj in H.
    + intros k Hk Hk'. apply in_map_iff in Hk, Hk'.
      destruct Hk as (a & <- & _). destruct Hk' as (b & E' & _).
      symmetry in E'. now apply plant_is_no_fungus in E'. }
  destruct (template_builds (plants ++ fungi) edges show layout)
    as (t & -> & Hed & Hnd & Hkeys & Hget & _).
  { intros e He.
    destruct (proj1 (List.Forall_forall _ _) Hedges e He)
      as (p & f & Hp & Hf & Hl & _).
    apply pair_equal_spec in Hl. destruct Hl as [-> ->].
    destruct (Hplant p Hp) as (n & Hn & Hnid).
    destruct (Hfungus f Hf) as (n' & Hn' & Hnid').
    split; [exists n|exists n']; (split; [apply in_or_app; auto|assumption]). }
  eexists. split; [reflexivity|]. cbn [fst snd show_nutrient_flow bio_template].
  split; [reflexivity|]. split; [exact Hed|]. split.
  - assert (Hlen : length (keys (node_mobjects t)) = length (map nn_id (plants ++ fungi))).
    { apply same_elements_length; [exact Hnd|exact Hids|].
      intros k. rewrite Hkeys, in_map_iff. split; intros (n & H1 & H2); eauto. }
    unfold keys in Hlen. rewrite !length_map, length_app in Hlen. rewrite Hlen.
    rewrite <- (length_map nn_id plants), <- (length_map nn_id fungi), Hpid, Hfid.
    unfold range. now rewrite !length_map, !length_seq.
  - assert (Hends : forall e, In e edges ->
               exists s t', get (ne_source e) (node_mobjects t) = Some s
                            /\ get (ne_target e) (node_mobjects t) = Some t'
                            /\ ProceduralHyphae.vy (dot_point t')
                               < ProceduralHyphae.vy (dot_point s)).
    { intros e He.
      destruct (proj1 (List.Forall_forall _ _) Hedges e He)
        as (p & f & Hp & Hf & Hl & _).
      apply pair_equal_spec in Hl. destruct Hl as [Hs Ht].
      rewrite Hs, Ht, !Hget.
      assert (Hfind : forall id (Q0 : NetworkNode -> Prop),
                 (exists n, In n (plants ++ fungi) /\ nn_id n = id) ->
                 (forall n, In n (plants ++ fungi) -> nn_id n = id -> Q0 n) ->
                 exists n, find (fun n => String.eqb (nn_id n) id) (rev (plants ++ fungi))
                           = Some n /\ Q0 n).
      { intros id Q0 Hex HQ. apply find_has_id in Hex. destruct Hex as [n Hn].
        exists n. split; [exact Hn|]. apply find_some in Hn. destruct Hn as [Hin Heq].
        apply String.eqb_eq in Heq. apply HQ; [now apply in_rev|exact Heq]. }
      destruct (Hfind (plant_id p) (fun n => (17 # 10) <= height n)) as (n & -> & Hn).
      { destruct (Hplant p Hp) as (n & Hn & Hnid). exists n.
        split; [apply in_or_app; auto|assumption]. }
      { intros n Hin Hid. apply in_app_or in Hin. destruct Hin as [Hin|Hin].
        - apply (proj1 (List.Forall_forall _ _) Hph n Hin).
        - exfalso. assert (Hm : In (nn_id n) (map nn_id fungi)) by now apply in_map.
          rewrite Hfid, Hid in Hm. apply in_map_iff in Hm.
          destruct Hm as (b & E' & _). symmetry in E'.
          now apply plant_is_no_fungus in E'. }
      destruct (Hfind (fungus_id f) (fun n => height n < - (12 # 10))) as (n' & -> & Hn').
      { destruct (Hfungus f Hf) as (n' & Hn' & Hnid'). exists n'.
        split; [apply in_or_app; auto|assumption]. }
      { intros n' Hin Hid. apply in_app_or in Hin. destruct Hin as [Hin|Hin].
        - exfalso. assert (Hm : In (nn_id n') (map nn_id plants)) by now apply in_map.
          rewrite Hpid, Hid in Hm. apply in_map_iff in Hm.
          destruct Hm as (b & E' & _). now apply plant_is_no_fungus in E'.
        - apply (proj1 (List.Forall_forall _ _) Hfh n' Hin). }
      cbn [option_map]. eexists _, _. split; [reflexivity|]. split; [reflexivity|].
      cbn [dot_point]. lra. }
    split.
    + intros run_time Hrt. unfold animate_nutrient_exchange. cbn [bio_template].
      rewrite Hed.
      destruct (carbon_flows_spec t run_time
                  (firstn (Nat.min 3 (length edges)) edges)
                  (fun fl => flow_run_time fl = run_time
                             /\ ProceduralHyphae.vy (flow_to fl)
                                < ProceduralHyphae.vy (flow_from fl)))
        as (flows & Hfl & Hlen & Hall).
      { intros e He. apply in_firstn in He.
        destruct (Hends e He) as (s & t' & Hs & Ht & Hdown).
        unfold carbon_flow. rewrite Hs, Ht.
        destruct (Qltb run_time 0) eqn:El; [apply Qltb_0 in El; lra|].
        eexists. split; [reflexivity|].
        cbn [flow_run_time flow_to flow_from]. split; [reflexivity|exact Hdown]. }
      exists flows. split; [exact Hfl|]. split; [|exact Hall].
      rewrite Hlen, length_firstn. lia.
    + intros run_time Hrt. unfold animate_nutrient_exchange. cbn [bio_template].
      rewrite Hed. destruct edges as [|e edges]; [reflexivity|].
      change (firstn (Nat.min 3 (length (e :: edges))) (e :: edges))
        with (e :: firstn (Nat.min 2 (length edges)) edges).
      cbn [carbon_flows]. unfold carbon_flow.
      destruct (Hends e (or_introl eq_refl)) as (s & t' & -> & -> & _).
      apply Qltb_0 in Hrt. now rewrite Hrt.
Qed.
End Biological.


(** ** NeuralNetwork *)

Section Neural.
Import PyNum NumpyRandom PyDict Networks.
Local Open Scope Q_scope.

Local Abbreviation neuron_id i := ("neuron_" ++ str_of_int i)%string.
Local Abbreviation link e := (ne_source e, ne_target e).

Lemma layer_start_S (sizes : list Z) (k : nat) :
  layer_start sizes (S k) = (layer_start sizes k + nth k sizes 0)%Z.
Proof.
  unfold layer_start, zsum. revert k. induction sizes as [|s sizes IH]; intros k.
  - destruct k; reflexivity.
  - destruct k as [|k].
    + change (firstn 1 (s :: sizes)) with [s].
      change (firstn 0 (s :: sizes)) with (@nil Z).
      cbn [fold_right nth]. lia.
    + change (firstn (S (S k)) (s :: sizes)) with (s :: firstn (S k) sizes).
      change (firstn (S k) (s :: sizes)) with (s :: firstn k sizes).
      cbn [fold_right nth]. rewrite IH. lia.
Qed.

Lemma zsum_nonneg (l : list Z) : Forall (fun s => (0 <= s)%Z) l -> (0 <= zsum l)%Z.
Proof. induction 1 as [|s l Hs Hl IH]; cbn; [lia|]. fold (zsum l). lia. Qed.

Lemma layer_start_mono (sizes : list Z) (k : nat) :
  Forall (fun s => (0 <= s)%Z) sizes ->
  (0 <= layer_start sizes k <= zsum sizes)%Z.
Proof.
  intros H. unfold layer_start. revert k.
  induction H as [|s l Hs Hl IH]; intros [|k]; cbn [firstn zsum fold_right];
    try lia.
  - fold (zsum l). pose proof (zsum_nonneg l Hl). lia.
  - fold (zsum l). fold (zsum (firstn k l)). specialize (IH k). lia.
Qed.

Lemma nth_nonneg (sizes : list Z) (k : nat) :
  Forall (fun s => (0 <= s)%Z) sizes -> (0 <= nth k sizes 0)%Z.
Proof.
  intros H. destruct (nth_in_or_default k sizes 0%Z) as [Hin| ->]; [|lia].
  apply (proj1 (List.Forall_forall _ _) H _ Hin).
Qed.

Lemma layer_start_all (sizes : list Z) (k : nat) :
  (length sizes <= k)%nat -> layer_start sizes k = zsum sizes.
Proof. intros H. unfold layer_start. now rewrite firstn_all2. Qed.

Lemma map_seq_shift {B : Type} (f : nat -> B) (a n : nat) :
  map f (seq a n) = map (fun j => f (a + j)%nat) (seq 0 n).
Proof.
  revert f a. induction n as [|n IH]; intros f a; cbn [seq map]; [reflexivity|].
  rewrite Nat.add_0_r. f_equal.
  rewrite (IH f (S a)), (IH (fun j => f (a + j)%nat) 1%nat). apply map_ext.
  intros j. f_equal. lia.
Qed.

(** *** The nodes *)

Lemma layer_nodes_ids (n_layers : Z) (layer : Z * Z) (c : Z) :
  map nn_id (fst (layer_nodes n_layers layer c))
  = map (fun j => neuron_id (c + Z.of_nat j)) (seq 0 (Z.to_nat (snd layer)))
  /\ snd (layer_nodes n_layers layer c) = (c + Z.of_nat (Z.to_nat (snd layer)))%Z
  /\ Forall (fun n => get "layer" (nn_properties n) = Some (fst layer)
                      /\ exists i, get "index" (nn_properties n) = Some i
                                   /\ (0 <= i < snd layer)%Z
                                   /\ nn_id n = neuron_id (c + i))
            (fst (layer_nodes n_layers layer c)).
Proof.
  destruct layer as [k size]. cbn [fst snd]. unfold layer_nodes, range.
  set (body := fun (neuron_idx node_counter : Z) => _).
  assert (H : forall m a c0,
             map nn_id (fst (for_in (map Z.of_nat (seq a m)) body c0))
             = map (fun j => neuron_id (c0 + Z.of_nat j)) (seq 0 m)
             /\ snd (for_in (map Z.of_nat (seq a m)) body c0) = (c0 + Z.of_nat m)%Z
             /\ Forall (fun n => get "layer" (nn_properties n) = Some k
                                 /\ exists i, get "index" (nn_properties n) = Some i
                                              /\ (Z.of_nat a <= i < Z.of_nat (a + m))%Z
                                              /\ nn_id n
                                                 = neuron_id (c0 + (i - Z.of_nat a)))
                       (fst (for_in (map Z.of_nat (seq a m)) body c0))).
  { induction m as [|m IH]; intros a c0; cbn [seq map].
    - cbn. split; [reflexivity|]. split; [f_equal; lia|constructor].
    - destruct (for_in_cons (Z.of_nat a) (map Z.of_nat (seq (S a) m)) body c0)
        as [-> ->].
      destruct (IH (S a) (c0 + 1)%Z) as (Hid & Hst & Hall).
      unfold body at 1 3 5. cbn [fst snd app map nn_id].
      rewrite Hid, Hst. split; [|split; [lia|]].
      + f_equal; [do 2 f_equal; lia|].
        rewrite (map_seq_shift _ 1 m). apply map_ext. intros j.
        do 2 f_equal. lia.
      + constructor.
        * cbn. split; [reflexivity|]. exists (Z.of_nat a).
          split; [reflexivity|]. split; [lia|]. do 2 f_equal. lia.
        * eapply List.Forall_impl; [|exact Hall].
          intros n (Hl & i & Hi & Hr & Hn). split; [exact Hl|]. exists i.
          split; [exact Hi|]. split; [lia|]. rewrite Hn. do 2 f_equal. lia. }
  destruct (H (Z.to_nat size) 0%nat c) as (Hid & Hst & Hall).
  split; [exact Hid|]. split; [exact Hst|].
  eapply List.Forall_impl; [|exact Hall].
  intros n (Hl & i & Hi & Hr & Hn). split; [exact Hl|]. exists i.
  split; [exact Hi|]. split; [lia|]. rewrite Hn. do 2 f_equal. lia.
Qed.

Lemma enumerate_cons {A : Type} (x : A) (xs : list A) :
  enumerate (x :: xs)
  = (0%Z, x) :: map (fun p => ((fst p + 1)%Z, snd p)) (enumerate xs).
Proof.
  unfold enumerate, range. cbn [length]. rewrite Nat2Z.id, Nat2Z.id.
  cbn [seq map combine]. f_equal.
  rewrite (map_seq_shift _ 1 (length xs)).
  generalize (seq 0 (length xs)). intros l. revert xs.
  induction l as [|a l IH]; intros [|y ys]; cbn [map combine fst snd];
    try reflexivity.
  f_equal; [f_equal; lia|apply IH].
Qed.

(** The neurons of the layers listed in [layers], whose indices start at
    [k0], counted on from [c]. *)
Lemma nodes_spec (n_layers : Z) (sizes : list Z) : forall (k0 : nat) (c : Z),
  let layers := map (fun p => ((fst p + Z.of_nat k0)%Z, snd p)) (enumerate sizes) in
  let nodes := fst (for_in layers (layer_nodes n_layers) c) in
  let total := list_sum (map Z.to_nat sizes) in
  map nn_id nodes = map (fun j => neuron_id (c + Z.of_nat j)) (seq 0 total)
  /\ (Forall (fun s => (0 <= s)%Z) sizes ->
      Forall (fun n => exists k i,
                get "layer" (nn_properties n) = Some (Z.of_nat (k0 + k))
                /\ get "index" (nn_properties n) = Some i
                /\ (0 <= i < nth k sizes 0)%Z
                /\ nn_id n = neuron_id (c + layer_start sizes k + i)) nodes).
Proof.
  induction sizes as [|s sizes IH]; intros k0 c; cbv zeta.
  - cbn. split; [reflexivity|constructor].
  - rewrite enumerate_cons. cbn [map fst snd].
    change (list_sum (Z.to_nat s :: map Z.to_nat sizes))
      with (Z.to_nat s + list_sum (map Z.to_nat sizes))%nat.
    rewrite map_map. cbn [fst snd].
    destruct (for_in_cons (0 + Z.of_nat k0, s)%Z
                (map (fun p => ((fst p + 1 + Z.of_nat k0)%Z, snd p)) (enumerate sizes))
                (layer_nodes n_layers) c) as [-> _].
    destruct (layer_nodes_ids n_layers (0 + Z.of_nat k0, s)%Z c) as (Hid & Hst & Hall).
    cbn [fst snd] in Hid, Hst, Hall. rewrite Hst.
    assert (Hlayers : map (fun p => ((fst p + 1 + Z.of_nat k0)%Z, snd p)) (enumerate sizes)
                      = map (fun p => ((fst p + Z.of_nat (S k0))%Z, snd p))
                            (enumerate sizes)).
    { apply map_ext. intros [k x]. cbn [fst snd]. f_equal. lia. }
    rewrite Hlayers.
    destruct (IH (S k0) (c + Z.of_nat (Z.to_nat s))%Z) as [Hid' Hall']. cbv zeta in *.
    split.
    + rewrite map_app, Hid, Hid', seq_app, map_app. f_equal.
      rewrite (map_seq_shift _ (0 + Z.to_nat s) _). apply map_ext. intros j.
      do 2 f_equal. lia.
    + intros Hnn. apply List.Forall_cons_iff in Hnn. destruct Hnn as [Hs Hnn].
      apply Forall_app. split.
      * eapply List.Forall_impl; [|exact Hall].
        intros n (Hl & i & Hi & Hr & Hn). exists 0%nat, i.
        rewrite Hl, Hi, Hn. cbn [nth]. unfold layer_start. cbn [firstn zsum fold_right].
        repeat split; try lia; do 2 f_equal; lia.
      * eapply List.Forall_impl; [|exact (Hall' Hnn)].
        intros n (k & i & Hl & Hi & Hr & Hn). exists (S k), i.
        rewrite Hl, Hi, Hn. cbn [nth]. unfold layer_start.
        cbn [firstn zsum fold_right]. fold (zsum (firstn k sizes)).
        repeat split; try lia; do 2 f_equal; lia.
Qed.

(** *** The edges *)

Local Abbreviation weight_ok shown e :=
  (if shown : bool then (3 # 10) <= ne_weight e /\ ne_weight e < 1
   else ne_weight e = 1).

Lemma layer_edges_spec (sizes : list Z) (show_weights : bool) (k : nat)
    (g : RandomState) :
  let r := layer_edges sizes show_weights (Z.of_nat k) (layer_start sizes k, g) in
  map (fun e => link e) (fst r) = layer_links sizes k
  /\ fst (snd r) = layer_start sizes (S k)
  /\ Forall (fun e => ne_directed e = true /\ ne_color e = WHITE
                      /\ weight_ok show_weights e) (fst r).
Proof.
  cbv zeta. unfold layer_edges.
  replace (Z.to_nat (Z.of_nat k + 1)) with (S k) by lia. rewrite Nat2Z.id.
  set (size := nth k sizes 0%Z). set (next := nth (S k) sizes 0%Z).
  set (inner := fun i : Z => _).
  assert (Hbody : forall i j st,
             let r := (let '(weight, g0) :=
                         if show_weights then PyRandom.uniform (3 # 10) 1 st else (1, st) in
                       ([{| ne_source := neuron_id (layer_start sizes k + i);
                            ne_target := neuron_id (layer_start sizes k + size + j);
                            ne_weight := weight; ne_directed := true;
                            ne_color := WHITE; ne_properties := [] |}], g0)) in
             map (fun e => link e) (fst r)
             = [(neuron_id (layer_start sizes k + i),
                 neuron_id (layer_start sizes (S k) + j))]
             /\ Forall (fun e => ne_directed e = true /\ ne_color e = WHITE
                                 /\ weight_ok show_weights e) (fst r)).
  { intros i j st. cbv zeta. rewrite layer_start_S. fold size.
    destruct show_weights.
    - pose proof (py_uniform_range (3 # 10) 1 st ltac:(reflexivity)) as Hu.
      destruct (PyRandom.uniform _ _ st) as [w g0]. cbn [fst] in *.
      split; [reflexivity|]. constructor; [cbn; tauto|constructor].
    - cbn. split; [reflexivity|]. constructor; [tauto|constructor]. }
  destruct (for_in (range size) inner g) as [edges g'] eqn:E.
  cbn [fst snd]. rewrite layer_start_S. fold size.
  split; [|split; [reflexivity|]].
  - change edges with (fst (edges, g')). rewrite <- E. unfold layer_links.
    fold size next. apply for_in_map. intros i st _. unfold inner.
    rewrite <- (flat_map_singleton
                  (fun j => (neuron_id (layer_start sizes k + i),
                             neuron_id (layer_start sizes (S k) + j)))).
    apply for_in_map. intros j st' _. apply (Hbody i j st').
  - change edges with (fst (edges, g')). rewrite <- E.
    apply for_in_Forall. intros i st _. unfold inner.
    apply for_in_Forall. intros j st' _. apply (Hbody i j st').
Qed.

Lemma edges_spec (sizes : list Z) (show_weights : bool) : forall (m a : nat) g,
  let edges := fst (for_in (map Z.of_nat (seq a m)) (layer_edges sizes show_weights)
                      (layer_start sizes a, g)) in
  map (fun e => link e) edges = flat_map (layer_links sizes) (seq a m)
  /\ Forall (fun e => ne_directed e = true /\ ne_color e = WHITE
                      /\ weight_ok show_weights e) edges.
Proof.
  induction m as [|m IH]; intros a g; cbv zeta; cbn [seq map flat_map].
  - cbn. split; [reflexivity|constructor].
  - destruct (for_in_cons (Z.of_nat a) (map Z.of_nat (seq (S a) m))
                (layer_edges sizes show_weights) (layer_start sizes a, g)) as [-> _].
    destruct (layer_edges_spec sizes show_weights a g) as (Hl & Hst & Hall).
    cbv zeta in *.
    destruct (layer_edges sizes show_weights (Z.of_nat a) (layer_start sizes a, g))
      as [es [idx g1]]. cbn [fst snd] in *. subst idx.
    destruct (IH (S a) g1) as [Hl' Hall']. cbv zeta in *.
    split; [now rewrite map_app, Hl, Hl'|]. apply Forall_app. auto.
Qed.

Lemma neural_generate_eq (sizes : list Z) (show_weights : bool) (g : RandomState) :
  fst (_generate_neural_network sizes show_weights g)
  = (fst (for_in (enumerate sizes) (layer_nodes (Z.of_nat (length sizes))) 0%Z),
     fst (for_in (range (Z.of_nat (length sizes) - 1))
            (layer_edges sizes show_weights) (0%Z, g))).
Proof.
  unfold _generate_neural_network. cbv zeta.
  destruct (for_in (enumerate sizes) _ 0%Z) as [nodes c].
  destruct (for_in (range _) _ (0%Z, g)) as [edges [idx g']]. reflexivity.
Qed.

Lemma layer_links_in (sizes : list Z) (k : nat) (l : string * string) :
  In l (layer_links sizes k) ->
  exists i j, (0 <= i < nth k sizes 0)%Z /\ (0 <= j < nth (S k) sizes 0)%Z
              /\ l = (neuron_id (layer_start sizes k + i),
                      neuron_id (layer_start sizes (S k) + j)).
Proof.
  unfold layer_links. intros H. apply in_flat_map in H.
  destruct H as (i & Hi & H). apply in_map_iff in H. destruct H as (j & <- & Hj).
  apply in_range in Hi, Hj. eauto.
Qed.

Lemma total_nonneg (sizes : list Z) :
  Forall (fun s => (0 <= s)%Z) sizes ->
  Z.of_nat (list_sum (map Z.to_nat sizes)) = zsum sizes.
Proof.
  induction 1 as [|s l Hs Hl IH]; [reflexivity|].
  change (zsum (s :: l)) with (s + zsum l)%Z.
  change (list_sum (map Z.to_nat (s :: l)))
    with (Z.to_nat s + list_sum (map Z.to_nat l))%nat.
  lia.
Qed.

(** X21. The generated layered network: the neurons are [neuron_0],
    [neuron_1], ... in layer order, one per unit of every positive layer
    size.  The edges are directed and white, with weight 1, or a weight in
    [[0.3, 1)] when weights are shown; they run, layer by layer, from
    [neuron_(s + i)] to [neuron_(s + size + j)] for every [i] of the layer
    and [j] of the next, [s] being the sum of the earlier sizes.  When no
    size is negative that is: from every neuron of a layer to every neuron
    of the next layer, each neuron carrying its layer and index. *)
Theorem neural_network_shape (sizes : list Z) (show_weights : bool) (g : RandomState) :
  exists nodes edges,
    fst (_generate_neural_network sizes show_weights g) = (nodes, edges)
    /\ map nn_id nodes
       = map (fun j => neuron_id (Z.of_nat j)) (seq 0 (list_sum (map Z.to_nat sizes)))
    /\ map (fun e => link e) edges
       = flat_map (layer_links sizes) (seq 0 (length sizes - 1))
    /\ Forall (fun e => ne_directed e = true /\ ne_color e = WHITE
                        /\ weight_ok show_weights e) edges
    /\ (Forall (fun s => (0 <= s)%Z) sizes ->
        Forall (fun n => exists k i,
                  get "layer" (nn_properties n) = Some (Z.of_nat k)
                  /\ get "index" (nn_properties n) = Some i
                  /\ (0 <= i < nth k sizes 0)%Z
                  /\ nn_id n = neuron_id (layer_start sizes k + i)) nodes
        /\ length edges
           = list_sum (map (fun k => (Z.to_nat (nth k sizes 0%Z)
                                      * Z.to_nat (nth (S k) sizes 0%Z))%nat)
                           (seq 0 (length sizes - 1)))).
Proof.
  eexists _, _. split; [apply neural_generate_eq|].
  pose proof (nodes_spec (Z.of_nat (length sizes)) sizes 0 0%Z) as Hn. cbv zeta in Hn.
  assert (Hlayers : map (fun p : Z * Z => ((fst p + Z.of_nat 0)%Z, snd p)) (enumerate sizes)
                    = enumerate sizes).
  { rewrite <- (map_id (enumerate sizes)) at 2. apply map_ext. intros [k x].
    cbn [fst snd]. f_equal. lia. }
  rewrite Hlayers in Hn. destruct Hn as [Hid Hall].
  pose proof (edges_spec sizes show_weights (length sizes - 1) 0 g) as He.
  cbv zeta in He. change (layer_start sizes 0) with 0%Z in He.
  assert (Hr : range (Z.of_nat (length sizes) - 1)
               = map Z.of_nat (seq 0 (length sizes - 1))).
  { unfold range. do 2 f_equal. lia. }
  rewrite Hr. destruct He as [Hl Hw].
  split; [rewrite Hid; apply map_ext; intros j; do 2 f_equal; lia|].
  split; [exact Hl|]. split; [exact Hw|].
  intros Hnn. split.
  - eapply List.Forall_impl; [|exact (Hall Hnn)].
    intros n (k & i & H1 & H2 & H3 & H4). exists k, i.
    rewrite H1, H2, H4. repeat split; lia.
  - rewrite <- (length_map (fun e => link e)), Hl, length_flat_map. f_equal.
    apply map_ext. intros k. unfold layer_links.
    rewrite (flat_map_constant_length (c := Z.to_nat (nth (S k) sizes 0%Z))).
    + unfold range. now rewrite length_map, length_seq.
    + intros i _. unfold range. now rewrite !length_map, length_seq.
Qed.

(** *** The constructor and the forward pass *)

Lemma neuron_known (total : nat) (nodes : list NetworkNode) (z : Z) :
  map nn_id nodes = map (fun j => neuron_id (Z.of_nat j)) (seq 0 total) ->
  (exists n, In n nodes /\ nn_id n = neuron_id z) <-> (0 <= z < Z.of_nat total)%Z.
Proof.
  intros Hid. split.
  - intros (n & Hin & Hn). apply (in_map nn_id) in Hin. rewrite Hid, Hn in Hin.
    apply in_map_iff in Hin. destruct Hin as (j & E & Hj).
    apply id_inj in E. apply in_seq in Hj. lia.
  - intros Hz. assert (Hin : In (neuron_id z) (map nn_id nodes)).
    { rewrite Hid. apply in_map_iff. exists (Z.to_nat z).
      split; [do 2 f_equal; lia|apply in_seq; lia]. }
    apply in_map_iff in Hin. destruct Hin as (n & Hn & Hin). eauto.
Qed.

Lemma activations_ok (t : NetworkTemplate) (inputs : list (Z * Q)) :
  (forall i v, In (i, v) inputs -> is_Some (get (neuron_id i) (node_mobjects t))) ->
  activations t inputs
  = inr (map (fun p => {| act_node := neuron_id (fst p); act_color := YELLOW;
                          act_opacity := Qabs (snd p) |}) inputs).
Proof.
  induction inputs as [|[i v] inputs IH]; intros H; cbn [activations map fst snd];
    [reflexivity|].
  destruct (H i v (or_introl eq_refl)) as [d ->].
  rewrite IH; [reflexivity|]. intros i' v' Hin. apply (H i' v'). now right.
Qed.

Lemma activations_fail (t : NetworkTemplate) (inputs : list (Z * Q)) :
  (exists i v, In (i, v) inputs /\ get (neuron_id i) (node_mobjects t) = None) ->
  activations t inputs = inl KeyError.
Proof.
  induction inputs as [|[i v] inputs IH]; intros (i0 & v0 & Hin & Hnone);
    [contradiction|].
  cbn [activations].
  destruct (get (neuron_id i) (node_mobjects t)) eqn:E; [|reflexivity].
  destruct Hin as [Heq|Hin]; [inversion Heq; subst; congruence|].
  now rewrite IH by eauto.
Qed.

Lemma enumerate_spec {A : Type} (xs : list A) :
  map snd (enumerate xs) = xs
  /\ map fst (enumerate xs) = range (Z.of_nat (length xs))
  /\ forall k x, nth_error xs k = Some x -> In (Z.of_nat k, x) (enumerate xs).
Proof.
  unfold enumerate.
  assert (Hlen : length (range (Z.of_nat (length xs))) = length xs).
  { unfold range. rewrite length_map, length_seq. lia. }
  split; [|split].
  - revert Hlen. generalize (range (Z.of_nat (length xs))). intros l. revert l.
    induction xs as [|x xs IH]; intros [|a l] Hl; try discriminate; [reflexivity|].
    cbn [combine map snd]. f_equal. apply IH. now inversion Hl.
  - revert Hlen. generalize (range (Z.of_nat (length xs))). intros l. revert l.
    induction xs as [|x xs IH]; intros [|a l] Hl; try discriminate; [reflexivity|].
    cbn [combine map fst]. f_equal. apply IH. now inversion Hl.
  - intros k x Hk. apply (nth_error_In _ k). apply nth_error_combine. split; [|exact Hk].
    apply range_spec.
    assert (Hlt : (k < length xs)%nat) by (apply nth_error_Some; congruence). lia.
Qed.

(** X22. For layer sizes that are not negative, [NeuralNetwork(...)] never
    raises: the edges join existing neurons, there is one dot per neuron
    and no label.  [animate_forward_pass] then gives one activation per
    input value, for [neuron_0], [neuron_1], ... in turn, in yellow with the
    absolute value as opacity; it does not compare the number of values
    with the size of the input layer, and raises [KeyError] exactly when
    there are more values than neurons in the whole network. *)
Theorem neural_network_builds (sizes : list Z) (activation : string)
    (show_weights : bool) (layout : string) (g : RandomState) :
  Forall (fun s => (0 <= s)%Z) sizes ->
  exists net,
    fst (NeuralNetwork__init__ sizes activation show_weights layout g) = inr net
    /\ layer_sizes net = sizes
    /\ label_mobjects (neural_template net) = []
    /\ length (node_mobjects (neural_template net)) = list_sum (map Z.to_nat sizes)
    /\ forall (input_values : list Q) (run_time : Q),
         ((length input_values <= list_sum (map Z.to_nat sizes))%nat ->
          exists acts,
            animate_forward_pass net input_values run_time = inr acts
            /\ map act_node acts
               = map (fun i => neuron_id i) (range (Z.of_nat (length input_values)))
            /\ map act_opacity acts = map Qabs input_values
            /\ Forall (fun a => act_color a = YELLOW) acts)
         /\ ((list_sum (map Z.to_nat sizes) < length input_values)%nat ->
             animate_forward_pass net input_values run_time = inl KeyError).
Proof.
  intros Hnn.
  pose proof (neural_generate_eq sizes show_weights g) as E.
  pose proof (nodes_spec (Z.of_nat (length sizes)) sizes 0 0%Z) as Hn. cbv zeta in Hn.
  assert (Hlayers : map (fun p : Z * Z => ((fst p + Z.of_nat 0)%Z, snd p)) (enumerate sizes)
                    = enumerate sizes).
  { rewrite <- (map_id (enumerate sizes)) at 2. apply map_ext. intros [k x].
    cbn [fst snd]. f_equal. lia. }
  rewrite Hlayers in Hn. destruct Hn as [Hid _].
  pose proof (edges_spec sizes show_weights (length sizes - 1) 0 g) as He.
  cbv zeta in He. change (layer_start sizes 0) with 0%Z in He.
  assert (Hr : range (Z.of_nat (length sizes) - 1)
               = map Z.of_nat (seq 0 (length sizes - 1))).
  { unfold range. do 2 f_equal. lia. }
  rewrite Hr in E. destruct He as [Hl _].
  set (total := list_sum (map Z.to_nat sizes)) in *.
  set (nodes := fst (for_in (enumerate sizes) _ 0%Z)) in *.
  set (edges := fst (for_in (map Z.of_nat _) _ (0%Z, g))) in *.
  clearbody nodes edges.
  assert (Hid' : map nn_id nodes = map (fun j => neuron_id (Z.of_nat j)) (seq 0 total)).
  { rewrite Hid. apply map_ext. intros j. do 2 f_equal. }
  pose proof (total_nonneg sizes Hnn) as Htot. fold total in Htot.
  unfold NeuralNetwork__init__.
  destruct (_generate_neural_network sizes show_weights g) as [[nodes' edges'] g'].
  cbn [fst] in E. apply pair_equal_spec in E. destruct E as [-> ->].
  destruct (template_builds nodes edges false layout)
    as (t & -> & _ & Hnd & Hkeys & Hget & Hlab).
  { intros e He. assert (Hin : In (link e) (map (fun e => link e) edges))
      by (apply in_map_iff; eauto).
    rewrite Hl in Hin. apply in_flat_map in Hin. destruct Hin as (k & Hk & Hin).
    apply layer_links_in in Hin. destruct Hin as (i & j & Hi & Hj & Hlink).
    apply pair_equal_spec in Hlink. destruct Hlink as [-> ->].
    rewrite !(neuron_known total nodes _ Hid').
    pose proof (layer_start_mono sizes k Hnn) as H0.
    pose proof (layer_start_mono sizes (S k) Hnn) as H1.
    pose proof (layer_start_mono sizes (S (S k)) Hnn) as H2.
    rewrite (layer_start_S sizes (S k)) in H2. rewrite (layer_start_S sizes k) in H1, H2 |- *.
    lia. }
  eexists. split; [reflexivity|]. cbn [fst layer_sizes neural_template].
  split; [reflexivity|]. split; [|split].
  - destruct (label_mobjects t) as [|[k0 v0] lm] eqn:El; [reflexivity|]. exfalso.
    specialize (Hlab k0). cbn [get andb] in Hlab. rewrite String.eqb_refl in Hlab.
    destruct (find _ _); discriminate.
  - assert (Hlen : length (keys (node_mobjects t))
                   = length (map (fun j => neuron_id (Z.of_nat j)) (seq 0 total))).
    { apply same_elements_length; [exact Hnd| |].
      - apply map_NoDup_inj; [|apply seq_NoDup].
        intros a b H. apply id_inj in H. lia.
      - intros k. rewrite Hkeys, <- Hid', in_map_iff.
        split; intros (n & H1 & H2); eauto. }
    unfold keys in Hlen. rewrite !length_map, length_seq in Hlen. exact Hlen.
  - intros input_values run_time. unfold animate_forward_pass. cbn [neural_template].
    destruct (enumerate_spec input_values) as (Hsnd & Hfst & Hnth).
    assert (Hsome : forall z, is_Some (get (neuron_id z) (node_mobjects t))
                              <-> (0 <= z < Z.of_nat total)%Z).
    { intros z. rewrite <- keys_get, Hkeys. apply neuron_known, Hid'. }
    split.
    + intros Hle. rewrite activations_ok.
      * eexists. split; [reflexivity|]. rewrite !map_map. cbn [act_node act_opacity].
        split; [|split].
        -- rewrite <- Hfst, map_map. reflexivity.
        -- rewrite <- Hsnd at 2. rewrite map_map. reflexivity.
        -- apply List.Forall_forall. intros a Ha. apply in_map_iff in Ha.
           now destruct Ha as (p & <- & _).
      * intros i v Hin. apply Hsome. apply in_combine_l in Hin.
        apply in_range in Hin. lia.
    + intros Hlt. apply activations_fail.
      destruct (nth_error input_values total) as [v|] eqn:Ev;
        [|apply nth_error_None in Ev; lia].
      exists (Z.of_nat total), v. split; [apply Hnth, Ev|].
      destruct (get _ (node_mobjects t)) eqn:Eg; [|reflexivity]. exfalso.
      assert (Hs : is_Some (get (neuron_id (Z.of_nat total)) (node_mobjects t)))
        by (rewrite Eg; eauto).
      apply Hsome in Hs. lia.
Qed.

(** The default network, [layer_sizes=[3, 4, 2]]. *)
Lemma neural_network_3_4_2 :
  exists net,
    fst (NeuralNetwork__init__ [3; 4; 2]%Z "relu" false "spring"
           (ProceduralHyphae.draws_zero_but 0 0)) = inr net
    /\ layer_sizes net = [3; 4; 2]%Z
    /\ label_mobjects (neural_template net) = []
    /\ length (node_mobjects (neural_template net)) = 9%nat
    /\ forall (input_values : list Q) (run_time : Q),
         ((length input_values <= 9)%nat ->
          exists acts,
            animate_forward_pass net input_values run_time = inr acts
            /\ map act_node acts
               = map (fun i => neuron_id i) (range (Z.of_nat (length input_values)))
            /\ map act_opacity acts = map Qabs input_values
            /\ Forall (fun a => act_color a = YELLOW) acts)
         /\ ((9 < length input_values)%nat ->
             animate_forward_pass net input_values run_time = inl KeyError).
Proof.
  apply (neural_network_builds [3; 4; 2]%Z "relu" false "spring"
           (ProceduralHyphae.draws_zero_but 0 0)).
  repeat constructor; lia.
Defined.
End Neural.


(** ** SocialNetwork *)

Section SocialFacts.
Import PyNum NumpyRandom PyDict Networks.
Local Open Scope Q_scope.
Variables (cos sin : Q -> Q) (pi : Q).

Local Abbreviation person_id i := ("person_" ++ str_of_int i)%string.
Local Abbreviation link e := (ne_source e, ne_target e).

Lemma in_range_from (a b i : Z) : In i (range_from a b) <-> (a <= i < b)%Z.
Proof.
  unfold range_from. rewrite in_map_iff. split.
  - intros (k & <- & Hk). apply in_seq in Hk. lia.
  - intros H. exists (Z.to_nat (i - a)). split; [lia|]. apply in_seq. lia.
Qed.

Lemma range_from_length (a b : Z) : length (range_from a b) = Z.to_nat (b - a).
Proof. unfold range_from. now rewrite length_map, length_seq. Qed.

Lemma range_from_NoDup (a b : Z) : List.NoDup (range_from a b).
Proof.
  unfold range_from. apply map_NoDup_inj; [|apply seq_NoDup].
  intros x y H. lia.
Qed.

Lemma for_in_length_sum {A T S : Type} (h : A -> nat) (xs : list A)
    (body : A -> S -> list T * S) :
  (forall x st, In x xs -> (length (fst (body x st)) <= h x)%nat) ->
  forall st, (length (fst (for_in xs body st)) <= list_sum (map h xs))%nat.
Proof.
  induction xs as [|x xs IH]; intros Hb st; [cbn; lia|].
  rewrite (proj1 (for_in_cons x xs body st)), length_app.
  change (list_sum (map h (x :: xs))) with (h x + list_sum (map h xs))%nat.
  specialize (Hb x st (or_introl eq_refl)) as Hx.
  specialize (IH (fun y st' Hy => Hb y st' (or_intror Hy)) (snd (body x st))).
  lia.
Qed.

Lemma for_in_In {A T S K : Type} (key : T -> K) (k : K) (x : A) (xs : list A)
    (body : A -> S -> list T * S) :
  In x xs -> (forall st, In k (map key (fst (body x st)))) ->
  forall st, In k (map key (fst (for_in xs body st))).
Proof.
  induction xs as [|y xs IH]; intros Hin Hb st; [contradiction|].
  rewrite (proj1 (for_in_cons y xs body st)), map_app. apply in_or_app.
  destruct Hin as [->|Hin]; [left; apply Hb|right; now apply IH].
Qed.

(** The pairs [i < j] below [m]: [m * (m - 1) / 2] of them. *)
Lemma pairs_count (m : nat) :
  (2 * list_sum (map (fun k => m - 1 - k) (seq 0 m)) = m * (m - 1))%nat.
Proof.
  induction m as [|m IH]; [reflexivity|].
  rewrite seq_S, map_app, list_sum_app. cbn [map list_sum Nat.add].
  assert (Hg : forall l, (forall k, In k l -> k < m)%nat ->
             list_sum (map (fun k => S m - 1 - k)%nat l)
             = (list_sum (map (fun k => m - 1 - k)%nat l) + length l)%nat).
  { induction l as [|a l IHl]; intros Hl; [reflexivity|].
    cbn [map length].
    change (list_sum ((S m - 1 - a)%nat :: map (fun k => (S m - 1 - k)%nat) l))
      with ((S m - 1 - a) + list_sum (map (fun k => (S m - 1 - k)%nat) l))%nat.
    change (list_sum ((m - 1 - a)%nat :: map (fun k => (m - 1 - k)%nat) l))
      with ((m - 1 - a) + list_sum (map (fun k => (m - 1 - k)%nat) l))%nat.
    rewrite IHl by (intros k Hk; apply Hl; now right).
    specialize (Hl a (or_introl eq_refl)). lia. }
  rewrite Hg, length_seq by (intros k Hk; apply in_seq in Hk; lia).
  replace (list_sum [(S m - 1 - m)%nat]) with 0%nat by (cbn; lia).
  set (total := list_sum (map (fun k => (m - 1 - k)%nat) (seq 0 m))) in *.
  clearbody total. destruct m as [|p]; [cbn in *; lia|].
  replace (S p - 1)%nat with p in IH by lia.
  replace (S (S p) - 1)%nat with (S p) by lia. nia.
Qed.

Lemma person_edge_spec c i j g :
  (length (fst (person_edge c i j g)) <= 1)%nat
  /\ Forall (fun e => link e = (person_id i, person_id j)
                      /\ ne_weight e = 1 # 2 /\ ne_directed e = false
                      /\ ne_color e = GRAY)
            (fst (person_edge c i j g))
  /\ (c <= 0 -> fst (person_edge c i j g) = [])
  /\ (1 <= c -> (i mod 3 = j mod 3)%Z \/ 5 <= c ->
      map (fun e => link e) (fst (person_edge c i j g)) = [(person_id i, person_id j)]).
Proof.
  unfold person_edge. cbv zeta.
  pose proof (py_random_range g) as [Hr0 Hr1].
  destruct (PyRandom.random g) as [r g1]. cbn [fst] in Hr0, Hr1.
  set (prob := if (i mod 3 =? j mod 3)%Z then c else c * (2 # 10)).
  unfold Qltb. destruct (Qle_bool prob r) eqn:E; cbn [negb fst length map].
  - apply Qle_bool_iff in E. split; [lia|]. split; [constructor|].
    split; [reflexivity|]. intros H1 Hs. exfalso. subst prob.
    destruct (Z.eqb_spec (i mod 3) (j mod 3)); [lra|].
    destruct Hs as [Hs|Hs]; [contradiction|lra].
  - split; [lia|]. split; [constructor; [cbn; tauto|constructor]|].
    split; [|reflexivity]. intros Hc.
    assert (Qle_bool prob r = true); [|congruence].
    apply Qle_bool_iff. subst prob. destruct (i mod 3 =? j mod 3)%Z; lra.
Qed.

Lemma social_edges_spec (n : Z) (c : Q) (g : RandomState) :
  let edges :=
    fst (for_in (range n)
           (fun i g => for_in (range_from (i + 1) n) (person_edge c i) g) g) in
  Forall (fun e => exists i j,
            (0 <= i < j)%Z /\ (j < n)%Z
            /\ link e = (person_id i, person_id j)
            /\ ne_weight e = 1 # 2 /\ ne_directed e = false
            /\ ne_color e = GRAY) edges
  /\ List.NoDup (map (fun e => link e) edges)
  /\ (2 * length edges <= Z.to_nat n * (Z.to_nat n - 1))%nat
  /\ (c <= 0 -> edges = [])
  /\ (1 <= c -> forall i j, (0 <= i < j)%Z -> (j < n)%Z -> (i mod 3 = j mod 3)%Z ->
                In (person_id i, person_id j) (map (fun e => link e) edges))
  /\ (5 <= c ->
      map (fun e => link e) edges
      = flat_map (fun i => map (fun j => (person_id i, person_id j))
                               (range_from (i + 1) n))
                 (range n)).
Proof.
  cbv zeta. split; [|split; [|split; [|split; [|split]]]].
  - apply for_in_Forall. intros i st Hi. apply in_range in Hi.
    apply for_in_Forall. intros j st' Hj. apply in_range_from in Hj.
    destruct (person_edge_spec c i j st') as (_ & H & _).
    eapply List.Forall_impl; [|exact H]. intros e (H1 & H2 & H3 & H4).
    exists i, j. repeat split; auto; lia.
  - apply (for_in_NoDup (fun e => link e) (fun i k => fst k = person_id i)).
    + apply range_NoDup.
    + intros i i' k H1 H2. rewrite H1 in H2. now apply id_inj in H2.
    + intros i st _.
      apply (for_in_NoDup (fun e => link e) (fun j k => snd k = person_id j)).
      * apply range_from_NoDup.
      * intros j j' k H1 H2. rewrite H1 in H2. now apply id_inj in H2.
      * intros j st' _. destruct (person_edge_spec c i j st') as (Hl & _).
        destruct (fst (person_edge c i j st')) as [|e [|e' l]];
          cbn [map length] in *; [apply List.NoDup_nil| |lia].
        apply List.NoDup_cons; [intros []|apply List.NoDup_nil].
      * intros j st' _. destruct (person_edge_spec c i j st') as (_ & H & _).
        eapply List.Forall_impl; [|exact H]. intros e (He & _). now rewrite He.
    + intros i st _. apply for_in_Forall. intros j st' _.
      destruct (person_edge_spec c i j st') as (_ & H & _).
      eapply List.Forall_impl; [|exact H]. intros e (He & _). now rewrite He.
  - rewrite <- pairs_count.
    assert (Hinner : forall i st, In i (range n) ->
              (length (fst (for_in (range_from (i + 1) n) (person_edge c i) st))
               <= Z.to_nat n - 1 - Z.to_nat i)%nat).
    { intros i st Hi. apply in_range in Hi.
      pose proof (for_in_length 0 1 (range_from (i + 1) n) (person_edge c i)) as Hl.
      specialize (Hl ltac:(intros j st' _;
                           pose proof (proj1 (person_edge_spec c i j st')); lia) st).
      rewrite range_from_length in Hl. lia. }
    pose proof (for_in_length_sum (fun i => Z.to_nat n - 1 - Z.to_nat i)%nat (range n)
                  (fun i g => for_in (range_from (i + 1) n) (person_edge c i) g)
                  Hinner g) as H.
    unfold range in H at 2. rewrite map_map in H.
    assert (Hm : map (fun x => (Z.to_nat n - 1 - Z.to_nat (Z.of_nat x))%nat)
                     (seq 0 (Z.to_nat n))
                 = map (fun k => (Z.to_nat n - 1 - k)%nat) (seq 0 (Z.to_nat n))).
    { apply map_ext. intros k. now rewrite Nat2Z.id. }
    rewrite Hm in H. lia.
  - intros Hc. apply length_zero_iff_nil.
    pose proof (for_in_length 0 0 (range n)
                  (fun i g => for_in (range_from (i + 1) n) (person_edge c i) g)) as H.
    specialize (H ltac:(intros i st _;
      pose proof (for_in_length 0 0 (range_from (i + 1) n) (person_edge c i)
                    ltac:(intros j st' _;
                          rewrite (proj1 (proj2 (proj2 (person_edge_spec c i j st'))) Hc);
                          cbn; lia) st); lia) g).
    lia.
  - intros Hc i j Hij Hj Hmod.
    apply (for_in_In (fun e => link e) _ i); [apply in_range; lia|]. intros st.
    apply (for_in_In (fun e => link e) _ j); [apply in_range_from; lia|]. intros st'.
    destruct (person_edge_spec c i j st') as (_ & _ & _ & H).
    rewrite H by auto. now left.
  - intros Hc. apply for_in_map. intros i st _.
    rewrite <- (flat_map_singleton (fun j => (person_id i, person_id j))).
    apply for_in_map. intros j st' _.
    destruct (person_edge_spec c i j st') as (_ & _ & _ & H).
    apply H; [lra|now right].
Qed.

Lemma social_nodes_spec (angles : list Q) (n : Z) (g : RandomState) :
  let nodes := fst (for_in (range n) (person_node cos sin angles) g) in
  map nn_id nodes = map (fun i => person_id i) (range n)
  /\ Forall (fun nd => exists i,
               (0 <= i < n)%Z /\ nn_id nd = person_id i
               /\ get "community" (nn_properties nd) = Some (i mod 3)%Z
               /\ nth_error community_colors (Z.to_nat (i mod 3)) = Some (nn_color nd))
            nodes.
Proof.
  cbv zeta. split.
  - rewrite <- (flat_map_singleton (fun i => person_id i)).
    apply for_in_map. intros i st _. unfold person_node.
    destruct (PyRandom.uniform _ _ st) as [da g1].
    now destruct (PyRandom.uniform _ _ g1).
  - apply for_in_Forall. intros i st Hi. apply in_range in Hi. unfold person_node.
    destruct (PyRandom.uniform _ _ st) as [da g1].
    destruct (PyRandom.uniform _ _ g1) as [dr g2]. cbn [fst].
    constructor; [|constructor]. exists i. cbn [nn_id nn_properties nn_color get].
    split; [exact Hi|]. split; [reflexivity|]. split; [reflexivity|].
    assert (Hm : (0 <= i mod 3 < 3)%Z) by (apply Z.mod_pos_bound; lia).
    destruct (Z.to_nat (i mod 3)) as [|[|[|k]]] eqn:E; try reflexivity. lia.
Qed.

(** X23. [SocialNetwork(num_nodes, clustering)] raises [ValueError] for a
    negative number of nodes (from [np.linspace]) and never [KeyError].
    Otherwise the people are [person_0 ..], each in community [i mod 3] and
    in that community's colour; the edges are undirected, grey, of weight
    0.5, and join [person_i] to [person_j] only for [i < j], no pair twice:
    no loop, and at most [n * (n - 1) / 2] edges.  A clustering of 0 or less
    gives no edge; one of 1 or more joins every two people of one
    community; one of 5 or more joins everybody. *)
Theorem social_network_shape (num_nodes : Z) (clustering : Q) (show_communities
    show : bool) (layout : string) (g : RandomState) :
  ((num_nodes < 0)%Z ->
   fst (SocialNetwork__init__ cos sin pi num_nodes clustering show_communities show
          layout g) = inl ValueError)
  /\ ((0 <= num_nodes)%Z ->
      exists nodes edges g' net,
        _generate_social_network cos sin pi num_nodes clustering g
        = inr (nodes, edges, g')
        /\ fst (SocialNetwork__init__ cos sin pi num_nodes clustering show_communities
                  show layout g) = inr net
        /\ edge_data (social_template net) = edges
        /\ length (node_mobjects (social_template net)) = Z.to_nat num_nodes
        /\ map nn_id nodes = map (fun i => person_id i) (range num_nodes)
        /\ Forall (fun nd => exists i,
                     (0 <= i < num_nodes)%Z /\ nn_id nd = person_id i
                     /\ get "community" (nn_properties nd) = Some (i mod 3)%Z
                     /\ nth_error community_colors (Z.to_nat (i mod 3))
                        = Some (nn_color nd)) nodes
        /\ Forall (fun e => exists i j,
                     (0 <= i < j)%Z /\ (j < num_nodes)%Z
                     /\ link e = (person_id i, person_id j)
                     /\ ne_weight e = 1 # 2 /\ ne_directed e = false
                     /\ ne_color e = GRAY) edges
        /\ List.NoDup (map (fun e => link e) edges)
        /\ (2 * length edges <= Z.to_nat num_nodes * (Z.to_nat num_nodes - 1))%nat
        /\ (clustering <= 0 -> edges = [])
        /\ (1 <= clustering ->
            forall i j, (0 <= i < j)%Z -> (j < num_nodes)%Z -> (i mod 3 = j mod 3)%Z ->
                        In (person_id i, person_id j) (map (fun e => link e) edges))
        /\ (5 <= clustering ->
            map (fun e => link e) edges
            = flat_map (fun i => map (fun j => (person_id i, person_id j))
                                     (range_from (i + 1) num_nodes))
                       (range num_nodes))).
Proof.
  unfold SocialNetwork__init__, _generate_social_network, linspace_open.
  split.
  - intros Hn. apply Z.ltb_lt in Hn. now rewrite Hn.
  - intros Hn. apply Z.ltb_ge in Hn. rewrite Hn.
    set (angles := map _ (range num_nodes)).
    pose proof (social_nodes_spec angles num_nodes g) as Hnodes. cbv zeta in Hnodes.
    destruct (for_in (range num_nodes) (person_node cos sin angles) g)
      as [nodes g1]. cbn [fst] in Hnodes. destruct Hnodes as [Hid Hnodes].
    pose proof (social_edges_spec num_nodes clustering g1) as Hedges.
    cbv zeta in Hedges.
    destruct (for_in (range num_nodes) _ g1) as [edges g2]. cbn [fst] in Hedges.
    destruct Hedges as (Hall & Hrest).
    assert (Hknown : forall i, (0 <= i < num_nodes)%Z ->
               exists nd, In nd nodes /\ nn_id nd = person_id i).
    { intros i Hi. assert (Hin : In (person_id i) (map nn_id nodes)).
      { rewrite Hid. apply in_map_iff. exists i. split; [reflexivity|now apply in_range]. }
      apply in_map_iff in Hin. destruct Hin as (nd & Hnd & Hin). eauto. }
    destruct (template_builds nodes edges show layout)
      as (t & -> & Hed & Hnd & Hkeys & _).
    { intros e He.
      destruct (proj1 (List.Forall_forall _ _) Hall e He)
        as (i & j & Hij & Hj & Hl & _).
      apply pair_equal_spec in Hl. destruct Hl as [-> ->].
      split; apply Hknown; lia. }
    eexists nodes, edges, g2, _. split; [reflexivity|]. split; [reflexivity|].
    cbn [social_template]. split; [exact Hed|]. split.
    { assert (Hlen : length (keys (node_mobjects t)) = length (map nn_id nodes)).
      { apply same_elements_length; [exact Hnd| |].
        - rewrite Hid. apply map_NoDup_inj; [|apply range_NoDup].
          intros a b H. now apply id_inj in H.
        - intros k. rewrite Hkeys, in_map_iff. split; intros (n & H1 & H2); eauto. }
      unfold keys in Hlen. rewrite Hid, !length_map in Hlen. rewrite Hlen.
      unfold range. now rewrite length_map, length_seq. }
    split; [exact Hid|]. split; [exact Hnodes|]. split; [exact Hall|exact Hrest].
Qed.
End SocialFacts.


(** ** Recursive branch drawings *)

Section BranchFacts.
Import PyNum ProceduralHyphae Branches.
Local Open Scope Q_scope.
Variables (cos sin : Q -> Q) (PI : Q).

Lemma shaped_impl (n : nat) : forall (P R : nat -> Line -> Prop) g,
  (forall k l, (k < n)%nat -> P k l -> R k l) -> shaped P n g -> shaped R n g.
Proof.
  induction n as [|n IH]; intros P R g H Hs; [exact Hs|].
  destruct g as [|line branches]; [contradiction|].
  cbn [shaped] in Hs |- *. destruct Hs as [H0 Hrest].
  split; [apply H; [lia|exact H0]|].
  destruct n as [|n']; [exact Hrest|].
  destruct Hrest as (f & s & -> & Hf & Hsd & Hl1 & Hl2).
  exists f, s. split; [reflexivity|].
  split; [eapply IH; [|exact Hf]; intros k l Hk; apply H; lia|].
  split; [eapply IH; [|exact Hsd]; intros k l Hk; apply H; lia|]. auto.
Qed.

Lemma shaped_count (n : nat) : forall (P : nat -> Line -> Prop) g,
  shaped P n g -> length (lines g) = (2 ^ n - 1)%nat.
Proof.
  induction n as [|n IH]; intros P g Hs.
  - cbn in Hs. now subst g.
  - destruct g as [|line branches]; [contradiction|].
    cbn [shaped] in Hs. destruct Hs as [_ Hrest].
    destruct n as [|n']; [now subst branches|].
    destruct Hrest as (f & s & -> & Hf & Hsd & _).
    cbn [lines flat_map length]. rewrite app_nil_r, length_app.
    rewrite (IH _ _ Hf), (IH _ _ Hsd).
    assert (H1 : (1 <= 2 ^ S n')%nat) by (apply Nat.neq_0_lt_0, Nat.pow_nonzero; lia).
    rewrite (Nat.pow_succ_r' 2 (S n')). lia.
Qed.

Local Abbreviation arbuscule_line depth length :=
  (fun (k : nat) (l : Line) =>
     line_stroke_width l == 3 / inject_Z (depth - Z.of_nat k)
     /\ line_color l = Palette "#ffcb47"
     /\ exists len a, len == length * (7 # 10) ^ Z.of_nat k
                      /\ line_end l
                         = vadd (line_start l) (smul len (direction cos sin a))).

Lemma arbuscule_spec (n : nat) : forall fuel start angle depth length,
  Z.to_nat depth = n -> (n < fuel)%nat ->
  exists g,
    create_arbuscule_branch cos sin PI fuel start angle depth length = Some g
    /\ shaped (arbuscule_line depth length) n g
    /\ forall l, hd_error (lines g) = Some l -> line_start l = start.
Proof.
  induction n as [|n IH]; intros [|fuel] start angle depth length Hd Hf; try lia;
    cbn [create_arbuscule_branch].
  - assert (E : (depth <=? 0)%Z = true) by (apply Z.leb_le; lia). rewrite E.
    exists Empty. repeat split. intros l H. discriminate.
  - assert (E : (depth <=? 0)%Z = false) by (apply Z.leb_gt; lia). rewrite E.
    set (end_ := vadd start (smul length (direction cos sin angle))).
    assert (Hroot : arbuscule_line depth length 0%nat
                      {| line_start := start; line_end := end_;
                         line_color := Palette "#ffcb47";
                         line_stroke_width := 3 / inject_Z depth |}).
    { cbn [line_stroke_width line_color line_end line_start Z.of_nat].
      rewrite Z.sub_0_r. split; [reflexivity|]. split; [reflexivity|].
      exists length, angle. split; [|reflexivity].
      change ((7 # 10) ^ Z.of_nat 0) with 1. ring. }
    destruct (1 <? depth)%Z eqn:E1.
    + apply Z.ltb_lt in E1.
      destruct (IH fuel end_ (angle - PI / 6) (depth - 1)%Z (length * (7 # 10)))
        as (g1 & -> & Hs1 & Hh1); [lia|lia|].
      destruct (IH fuel end_ (angle + PI / 6) (depth - 1)%Z (length * (7 # 10)))
        as (g2 & -> & Hs2 & Hh2); [lia|lia|].
      eexists. split; [reflexivity|]. split; [|intros l H; now inversion H].
      cbn [shaped]. split; [exact Hroot|].
      destruct n as [|n']; [lia|].
      assert (Hstep : forall k l, (k < S n')%nat ->
                 arbuscule_line (depth - 1)%Z (length * (7 # 10)) k l ->
                 arbuscule_line depth length (S k) l).
      { intros k l _ (Hw & Hc & len & a & Hlen & Hend).
        replace (depth - Z.of_nat (S k))%Z with (depth - 1 - Z.of_nat k)%Z by lia.
        split; [exact Hw|]. split; [exact Hc|]. exists len, a. split; [|exact Hend].
        rewrite Hlen, Nat2Z.inj_succ, <- Z.add_1_l.
        rewrite Qpower_plus by discriminate. change ((7 # 10) ^ 1) with (7 # 10). ring. }
      exists g1, g2. split; [reflexivity|].
      split; [eapply shaped_impl; [exact Hstep|exact Hs1]|].
      split; [eapply shaped_impl; [exact Hstep|exact Hs2]|]. auto.
    + apply Z.ltb_ge in E1. assert (n = 0%nat) by lia. subst n.
      eexists. split; [reflexivity|]. split; [|intros l H; now inversion H].
      cbn [shaped]. split; [exact Hroot|reflexivity].
Qed.

(** X24. [create_arbuscule_branch] returns for every depth: an empty group
    for a depth of 0 or less, and otherwise a full binary tree of [depth]
    levels, so [2^depth - 1] lines (15 for the depth of 4 it is called
    with).  The length of the lines does decay by a fixed factor: a line
    [k] levels below the root is the root's length times [0.7^k] long, and
    [3 / (depth - k)] wide; and every branch starts where the line it grows
    from ends, the root at [start]. *)
Theorem arbuscule_is_full_binary_tree (more : nat) (start : vec3) (angle : Q)
    (depth : Z) (length : Q) :
  exists g,
    create_arbuscule_branch cos sin PI (S (Z.to_nat depth + more)) start angle depth
                            length = Some g
    /\ ((depth <= 0)%Z -> g = Empty)
    /\ shaped (arbuscule_line depth length) (Z.to_nat depth) g
    /\ List.length (lines g) = (2 ^ Z.to_nat depth - 1)%nat
    /\ forall l, hd_error (lines g) = Some l -> line_start l = start.
Proof.
  destruct (arbuscule_spec (Z.to_nat depth) (S (Z.to_nat depth + more)) start angle
              depth length eq_refl ltac:(lia)) as (g & E & Hs & Hh).
  exists g. split; [exact E|]. split; [|split; [exact Hs|split; [|exact Hh]]].
  - intros Hd. replace (Z.to_nat depth) with 0%nat in Hs by lia. exact Hs.
  - eapply shaped_count, Hs.
Qed.

Local Abbreviation colonization_line depth :=
  (fun (k : nat) (l : Line) =>
     line_stroke_width l = inject_Z (6 - (depth + Z.of_nat k))
     /\ line_color l = ORANGE
     /\ exists len a, len == (4 # 10) / inject_Z (depth + Z.of_nat k + 1)
                      /\ line_end l
                         = vadd (line_start l) (vmul (direction cos sin a) len)).

Lemma truediv_pos (a : Q) (d : Z) :
  d <> 0%Z -> DataVisualization.truediv a (inject_Z d) = Some (a / inject_Z d).
Proof.
  intros Hd. unfold DataVisualization.truediv.
  destruct (Qeq_bool (inject_Z d) 0) eqn:E; [|reflexivity].
  apply Qeq_bool_iff in E. exfalso. apply Hd.
  unfold Qeq, inject_Z in E. cbn in E. lia.
Qed.

Lemma branch_spec (n : nat) : forall fuel start angle depth max_depth,
  (0 <= depth)%Z -> Z.to_nat (max_depth - depth + 1) = n -> (n < fuel)%nat ->
  exists g,
    create_branch cos sin fuel start angle depth max_depth = Some (inr g)
    /\ shaped (colonization_line depth) n g
    /\ forall l, hd_error (lines g) = Some l -> line_start l = start.
Proof.
  induction n as [|n IH]; intros [|fuel] start angle depth max_depth H0 Hd Hf; try lia;
    cbn [create_branch].
  - assert (E : (max_depth <? depth)%Z = true) by (apply Z.ltb_lt; lia). rewrite E.
    exists Empty. repeat split. intros l H. discriminate.
  - assert (E : (max_depth <? depth)%Z = false) by (apply Z.ltb_ge; lia). rewrite E.
    rewrite truediv_pos by lia.
    set (len0 := (4 # 10) / inject_Z (depth + 1)).
    set (end_ := vadd start (vmul (direction cos sin angle) len0)).
    assert (Hroot : colonization_line depth 0%nat
                      {| line_start := start; line_end := end_; line_color := ORANGE;
                         line_stroke_width := inject_Z (6 - depth) |}).
    { cbn [line_stroke_width line_color line_end line_start Z.of_nat].
      rewrite !Z.add_0_r. split; [reflexivity|]. split; [reflexivity|].
      exists len0, angle. split; reflexivity. }
    destruct (depth <? max_depth)%Z eqn:E1.
    + apply Z.ltb_lt in E1.
      destruct (IH fuel end_ (angle - (1 # 2)) (depth + 1)%Z max_depth)
        as (g1 & -> & Hs1 & Hh1); [lia|lia|lia|].
      destruct (IH fuel end_ (angle + (1 # 2)) (depth + 1)%Z max_depth)
        as (g2 & -> & Hs2 & Hh2); [lia|lia|lia|].
      eexists. split; [reflexivity|]. split; [|intros l H; now inversion H].
      cbn [shaped]. split; [exact Hroot|].
      destruct n as [|n']; [lia|].
      assert (Hstep : forall k l, (k < S n')%nat ->
                 colonization_line (depth + 1)%Z k l ->
                 colonization_line depth (S k) l).
      { intros k l _ (Hw & Hc & len & a & Hlen & Hend).
        replace (depth + Z.of_nat (S k))%Z with (depth + 1 + Z.of_nat k)%Z by lia.
        split; [exact Hw|]. split; [exact Hc|]. exists len, a. auto. }
      exists g1, g2. split; [reflexivity|].
      split; [eapply shaped_impl; [exact Hstep|exact Hs1]|].
      split; [eapply shaped_impl; [exact Hstep|exact Hs2]|]. auto.
    + apply Z.ltb_ge in E1. assert (n = 0%nat) by lia. subst n.
      eexists. split; [reflexivity|]. split; [|intros l H; now inversion H].
      cbn [shaped]. split; [exact Hroot|reflexivity].
Qed.

Lemma branch_error (m : nat) : forall fuel start angle depth max_depth,
  (depth <= -1 <= max_depth)%Z -> Z.to_nat (-1 - depth) = m -> (m < fuel)%nat ->
  create_branch cos sin fuel start angle depth max_depth = Some (inl ZeroDivisionError).
Proof.
  induction m as [|m IH]; intros [|fuel] start angle depth max_depth Hd Hm Hf; try lia;
    cbn [create_branch];
    (assert (E : (max_depth <? depth)%Z = false) by (apply Z.ltb_ge; lia); rewrite E).
  - replace depth with (-1)%Z by lia. reflexivity.
  - rewrite truediv_pos by lia.
    assert (E1 : (depth <? max_depth)%Z = true) by (apply Z.ltb_lt; lia). rewrite E1.
    now rewrite IH by lia.
Qed.

(** X25. [create_branch] returns for every depth.  Above [max_depth] it
    gives an empty group; from a depth between 0 and [max_depth] a full
    binary tree of [max_depth - depth + 1] levels (15 lines for the call
    from depth 0 to 3), whose line [k] levels down is [6 - (depth + k)] wide
    and [0.4 / (depth + k + 1)] long, each branch starting where the line it
    grows from ends; and from a negative depth (with [max_depth >= -1]) it
    raises [ZeroDivisionError], at the level -1. *)
Theorem create_branch_outcomes (more : nat) (start : vec3) (angle : Q)
    (depth max_depth : Z) :
  let fuel := S (Z.to_nat (max_depth - depth + 1) + more) in
  let levels := Z.to_nat (max_depth - depth + 1) in
  ((max_depth < depth)%Z ->
   create_branch cos sin fuel start angle depth max_depth = Some (inr Empty))
  /\ ((0 <= depth <= max_depth)%Z ->
      exists g,
        create_branch cos sin fuel start angle depth max_depth = Some (inr g)
        /\ shaped (colonization_line depth) levels g
        /\ List.length (lines g) = (2 ^ levels - 1)%nat
        /\ forall l, hd_error (lines g) = Some l -> line_start l = start)
  /\ ((depth <= -1 <= max_depth)%Z ->
      create_branch cos sin fuel start angle depth max_depth
      = Some (inl ZeroDivisionError)).
Proof.
  cbv zeta. split; [|split].
  - intros H. cbn [create_branch].
    assert (E : (max_depth <? depth)%Z = true) by (apply Z.ltb_lt; lia). now rewrite E.
  - intros H.
    destruct (branch_spec (Z.to_nat (max_depth - depth + 1))
                (S (Z.to_nat (max_depth - depth + 1) + more)) start angle depth
                max_depth ltac:(lia) eq_refl ltac:(lia)) as (g & E & Hs & Hh).
    exists g. split; [exact E|]. split; [exact Hs|]. split; [|exact Hh].
    eapply shaped_count, Hs.
  - intros H. apply (branch_error (Z.to_nat (-1 - depth))); lia.
Qed.
End BranchFacts.


(** ** VisualEffects *)

Section Effects.
Import PyNum ProceduralHyphae VisualEffects.
Local Open Scope Q_scope.

Lemma copies_of_map {Copy : Type} (f : Z -> Copy) (l : list Z) :
  copies (map (fun i => CopyOf (f i)) l ++ [Original]) = map f l.
Proof.
  unfold copies. rewrite flat_map_app. cbn [flat_map app]. rewrite app_nil_r.
  induction l as [|x l IH]; cbn; [reflexivity|now rewrite IH].
Qed.

Lemma nth_range_map {B : Type} (f : Z -> B) (n : Z) (k : nat) (b : B) :
  nth_error (map f (range n)) k = Some b <-> (k < Z.to_nat n)%nat /\ b = f (Z.of_nat k).
Proof.
  rewrite nth_error_map. destruct (range_spec n) as [Hlen Hnth]. split.
  - intros H. destruct (nth_error (range n) k) as [i|] eqn:E; [|discriminate].
    assert (Hk : (k < Z.to_nat n)%nat).
    { rewrite <- Hlen. apply nth_error_Some. congruence. }
    rewrite (Hnth k Hk) in E. inversion E; subst. inversion H. auto.
  - intros [Hk ->]. now rewrite (Hnth k Hk).
Qed.

(** X26. [add_glow] returns [layers] copies and then the mobject itself
    (only the mobject for [layers <= 0]).  Copy [i] lies [i + 1] levels
    behind the mobject, has no fill, and its stroke is
    [intensity * (1 - i / layers)] opaque and [scale_factor^(i + 1)] times
    as wide as the mobject's.  So for a positive intensity every layer is
    visible, the first at full intensity, and each layer further back is
    fainter; and for a scale factor above 1 and a stroke of positive width
    each is wider than the one before, and all are wider than the
    mobject. *)
Theorem glow_layers_fade_and_widen (width : Q) (z : Z) (color : string)
    (intensity : Q) (layers : Z) (scale_factor : Q) :
  let members := add_glow width z color intensity layers scale_factor in
  let glow := copies members in
  length members = S (Z.to_nat layers)
  /\ List.last members Original = Original
  /\ length glow = Z.to_nat layers
  /\ (forall k c, nth_error glow k = Some c ->
        z_index c = (z - Z.of_nat k - 1)%Z
        /\ stroke_color c = color /\ fill_opacity c = 0
        /\ stroke_opacity c
           == intensity * (inject_Z (layers - Z.of_nat k) / inject_Z layers)
        /\ stroke_width c == width * scale_factor ^ (Z.of_nat k + 1)
        /\ (0 < intensity -> 0 < stroke_opacity c /\ stroke_opacity c <= intensity)
        /\ (0 < width -> 1 < scale_factor -> width < stroke_width c))
  /\ (forall c, nth_error glow 0 = Some c -> stroke_opacity c == intensity)
  /\ (forall k c c', nth_error glow k = Some c -> nth_error glow (S k) = Some c' ->
        (z_index c' < z_index c)%Z
        /\ (0 < intensity -> stroke_opacity c' < stroke_opacity c)
        /\ (0 < width -> 1 < scale_factor -> stroke_width c < stroke_width c')).
Proof.
  cbv zeta. unfold add_glow. rewrite copies_of_map.
  set (f := fun i : Z => {| stroke_color := color;
                            stroke_width := width * scale_factor ^ (i + 1);
                            stroke_opacity := intensity * (1 - inject_Z i / inject_Z layers);
                            fill_opacity := 0; z_index := (z - i - 1)%Z |}).
  assert (Hlen : length (range layers) = Z.to_nat layers) by apply range_spec.
  assert (Hop : forall k, (k < Z.to_nat layers)%nat ->
             1 - inject_Z (Z.of_nat k) / inject_Z layers
             == inject_Z (layers - Z.of_nat k) / inject_Z layers
             /\ 0 < 1 - inject_Z (Z.of_nat k) / inject_Z layers
             /\ 1 - inject_Z (Z.of_nat k) / inject_Z layers <= 1
             /\ inject_Z (Z.of_nat k) / inject_Z layers
                < inject_Z (Z.of_nat (S k)) / inject_Z layers).
  { intros k Hk.
    assert (HL : 0 < inject_Z layers) by (rewrite <- (Zlt_Qlt 0); lia).
    assert (Hk0 : 0 <= inject_Z (Z.of_nat k)) by (rewrite <- (Zle_Qle 0); lia).
    assert (HkL : inject_Z (Z.of_nat k) < inject_Z layers) by (rewrite <- Zlt_Qlt; lia).
    assert (Hq0 : 0 <= inject_Z (Z.of_nat k) / inject_Z layers).
    { apply Qle_shift_div_l; [exact HL|]. now rewrite Qmult_0_l. }
    assert (Hq1 : inject_Z (Z.of_nat k) / inject_Z layers < 1).
    { apply Qlt_shift_div_r; [exact HL|]. now rewrite Qmult_1_l. }
    split; [|split; [lra|split; [lra|]]].
    - unfold Zminus. rewrite inject_Z_plus, inject_Z_opp. field. lra.
    - apply Qmult_lt_compat_r; [now apply Qinv_lt_0_compat|].
      rewrite <- Zlt_Qlt. lia. }
  split; [rewrite length_app, length_map, Hlen; cbn; lia|].
  split; [now rewrite List.last_last|]. split; [now rewrite length_map|].
  split; [|split].
  - intros k c Hc. apply nth_range_map in Hc. destruct Hc as [Hk ->].
    destruct (Hop k Hk) as (E & H0 & H1 & _). unfold f.
    cbn [z_index stroke_color fill_opacity stroke_opacity stroke_width].
    split; [reflexivity|]. split; [reflexivity|]. split; [reflexivity|].
    split; [now rewrite E|]. split; [reflexivity|]. split.
    + intros Hi. split; [apply Qmult_lt_0_compat; assumption|].
      rewrite <- (Qmult_1_r intensity) at 2. apply Qmult_le_l; assumption.
    + intros Hw Hs.
      pose proof (Qpower_1_lt scale_factor (Z.of_nat k + 1) Hs ltac:(lia)) as Hp.
      rewrite <- (Qmult_1_r width) at 1. apply Qmult_lt_l; assumption.
  - intros c Hc. apply nth_range_map in Hc. destruct Hc as [Hk ->]. unfold f.
    cbn [stroke_opacity Z.of_nat]. unfold Qdiv. rewrite Qmult_0_l. ring.
  - intros k c c' Hc Hc'. apply nth_range_map in Hc, Hc'.
    destruct Hc as [Hk ->]. destruct Hc' as [Hk' ->].
    destruct (Hop k Hk) as (_ & _ & _ & Hlt). unfold f.
    cbn [z_index stroke_opacity stroke_width].
    split; [lia|]. split.
    + intros Hi. apply Qmult_lt_l; [exact Hi|]. lra.
    + intros Hw Hs. apply Qmult_lt_l; [exact Hw|].
      apply Qpower_lt_compat_l; [lia|exact Hs].
Qed.

(** The sum of a list of numbers. *)
Lemma sum_of_equals (c : Q) (l : list Q) :
  Forall (fun x => x == c) l ->
  fold_right Qplus 0 l == inject_Z (Z.of_nat (length l)) * c.
Proof.
  induction 1 as [|x l Hx Hl IH]; [cbn; ring|].
  cbn [fold_right length]. rewrite IH, Hx, Nat2Z.inj_succ, <- Z.add_1_l, inject_Z_plus.
  ring.
Qed.

(** X27. [add_motion_blur] returns [samples] copies and then the mobject
    itself (only the mobject for [samples <= 0]).  Every copy has the
    opacity [intensity / samples], so together the copies are exactly
    [intensity] opaque; copy [i] is shifted by [i / samples * intensity]
    along the direction, so the first copy is not shifted at all and every
    shift is shorter than [intensity] times the direction. *)
Theorem motion_blur_copies (direction : vec3) (intensity : Q) (samples : Z) :
  let members := add_motion_blur direction intensity samples in
  let blur := copies members in
  length members = S (Z.to_nat samples)
  /\ List.last members Original = Original
  /\ length blur = Z.to_nat samples
  /\ (forall k c, nth_error blur k = Some c ->
        blur_opacity c = intensity / inject_Z samples
        /\ exists t, t == inject_Z (Z.of_nat k) / inject_Z samples
                     /\ 0 <= t /\ t < 1
                     /\ blur_offset c = vmul (vmul direction t) intensity)
  /\ ((0 < samples)%Z ->
      fold_right Qplus 0 (map blur_opacity blur) == intensity).
Proof.
  cbv zeta. unfold add_motion_blur. rewrite copies_of_map.
  assert (Hlen : length (range samples) = Z.to_nat samples) by apply range_spec.
  split; [rewrite length_app, length_map, Hlen; cbn; lia|].
  split; [now rewrite List.last_last|]. split; [now rewrite length_map|]. split.
  - intros k c Hc. apply nth_range_map in Hc. destruct Hc as [Hk ->].
    cbn [blur_opacity blur_offset]. split; [reflexivity|].
    exists (inject_Z (Z.of_nat k) / inject_Z samples).
    assert (HL : 0 < inject_Z samples) by (rewrite <- (Zlt_Qlt 0); lia).
    split; [reflexivity|]. split; [|split; [|reflexivity]].
    + apply Qle_shift_div_l; [exact HL|]. rewrite Qmult_0_l.
      rewrite <- (Zle_Qle 0). lia.
    + apply Qlt_shift_div_r; [exact HL|]. rewrite Qmult_1_l.
      rewrite <- Zlt_Qlt. lia.
  - intros Hs. rewrite map_map. cbn [blur_opacity].
    rewrite (sum_of_equals (intensity / inject_Z samples)).
    + rewrite length_map, Hlen, Z2Nat.id by lia. field.
      intros H. assert (0 < inject_Z samples) by (rewrite <- (Zlt_Qlt 0); lia). lra.
    + apply List.Forall_forall. intros x Hx. apply in_map_iff in Hx.
      now destruct Hx as (i & <- & _).
Qed.
End Effects.


(** ** create_stylized_tree *)

Section Tree.
Import PyNum NumpyRandom ProceduralHyphae StylizedTree.
Local Open Scope Q_scope.
Local Open Scope string_scope.

Lemma winter_branches_spec (n : nat) (size : Q) (top : vec3) : forall g,
  length (fst (winter_branches n size top g)) = n
  /\ Forall (fun s => exists e, s = Line top e) (fst (winter_branches n size top g))
  /\ cursor (snd (winter_branches n size top g)) = (3 * n + cursor g)%nat.
Proof.
  induction n as [|n IH]; intros g; cbn [winter_branches].
  - cbn. repeat split. constructor.
  - unfold winter_branch.
    assert (Hc : forall a b g0, cursor (snd (uniform a b g0)) = S (cursor g0))
      by reflexivity.
    pose proof (Hc (- 1)%Q 1%Q g) as H1.
    destruct (uniform (- 1) 1 g) as [u0 g1]. cbn [snd] in H1.
    pose proof (Hc (- 1)%Q 1%Q g1) as H2.
    destruct (uniform (- 1) 1 g1) as [u1 g2]. cbn [snd] in H2.
    pose proof (Hc (- 1)%Q 1%Q g2) as H3.
    destruct (uniform (- 1) 1 g2) as [u2 g3]. cbn [snd] in H3.
    destruct (IH g3) as (Hl & Hall & Hcur).
    destruct (winter_branches n size top g3) as [bs g4]. cbn [fst snd length] in *.
    split; [now rewrite Hl|]. split; [constructor; [eauto|exact Hall]|]. lia.
Qed.

(** X28. [create_stylized_tree] always makes the trunk, asked for 0.15
    times the size wide and 0.8 times the size high and moved down by half
    that height: for a size that is not negative its top is at height 0
    (for a negative size the rectangle is drawn mirrored, with its top at
    0.8 times the size's absolute value).  A deciduous tree gets three
    canopy circles in spring, summer and autumn, of radius 1, 0.75 and 0.5
    times the size at 0.2, 0.5 and 0.75 times the size above the ground,
    filled with the season's two colours in turn; five branches from the
    top of the trunk in winter (which take fifteen random numbers); and
    raises [KeyError] for any other season.  A conifer gets three layers
    whatever the season, any other style no foliage at all;
    [detail_level] is never read. *)
Theorem stylized_tree_foliage (size : Q) (style season : string) (detail_level : Z)
    (g : RandomState) :
  let r := create_stylized_tree size style season detail_level g in
  (forall trunk foliage, fst r = inr (trunk, foliage) ->
     trunk_width trunk = ((15 # 100) * size)%Q
     /\ trunk_height trunk = ((8 # 10) * size)%Q
     /\ (vy (trunk_center trunk) == - ((4 # 10) * size))%Q
     /\ (0 <= size -> vy (get_top trunk) == 0)%Q
     /\ (size <= 0 -> vy (get_top trunk) == (8 # 10) * Qabs size)%Q)
  /\ (style = "deciduous" -> In season ["spring"; "summer"; "autumn"] ->
      snd r = g
      /\ exists trunk c0 c1,
           PyDict.get season colors = Some [c0; c1]
           /\ fst r = inr (trunk,
                           [Circle (size * 1) c0 (UP (size * (2 # 10)));
                            Circle (size * (75 # 100)) c1 (UP (size * (5 # 10)));
                            Circle (size * (5 # 10)) c0 (UP (size * (75 # 100)))]))
  /\ (style = "deciduous" -> season = "winter" ->
      exists trunk foliage,
        fst r = inr (trunk, foliage)
        /\ length foliage = 5%nat
        /\ Forall (fun s => exists e, s = Line (get_top trunk) e) foliage
        /\ cursor (snd r) = (15 + cursor g)%nat)
  /\ (style = "deciduous" ->
      ~ In season ["spring"; "summer"; "autumn"; "winter"] ->
      r = (inl KeyError, g))
  /\ (style = "conifer" ->
      snd r = g
      /\ (exists trunk foliage,
            fst r = inr (trunk, foliage) /\ length foliage = 3%nat
            /\ Forall (fun s => exists vs fill, s = Polygon vs fill) foliage)
      /\ forall season', create_stylized_tree size style season' detail_level g = r)
  /\ (style <> "deciduous" -> style <> "conifer" ->
      exists trunk, r = (inr (trunk, []), g))
  /\ (forall detail_level', create_stylized_tree size style season detail_level' g = r).
Proof.
  cbv zeta. split; [|split; [|split; [|split; [|split; [|split]]]]].
  - intros trunk foliage. unfold create_stylized_tree.
    set (t := {| trunk_width := (15 # 100) * size |}).
    assert (Ht : trunk_width t = ((15 # 100) * size)%Q
                 /\ trunk_height t = ((8 # 10) * size)%Q
                 /\ (vy (trunk_center t) == - ((4 # 10) * size))%Q
                 /\ (0 <= size -> vy (get_top t) == 0)%Q
                 /\ (size <= 0 -> vy (get_top t) == (8 # 10) * Qabs size)%Q).
    { split; [reflexivity|]. split; [reflexivity|].
      subst t. unfold get_top. cbn [trunk_height trunk_center vadd vy].
      split; [field|]. split; intros Hs.
      - rewrite Qabs_pos by (apply Qmult_le_0_compat; [discriminate|exact Hs]). field.
      - rewrite (Qabs_neg size Hs).
        rewrite Qabs_neg by (assert (H0 : (8 # 10) * size <= (8 # 10) * 0)
                               by (apply Qmult_le_l; [reflexivity|exact Hs]);
                             rewrite Qmult_0_r in H0; exact H0).
        field. }
    destruct (String.eqb style "deciduous").
    + destruct (negb (String.eqb season "winter")).
      * destruct (canopy season _); cbn [fst]; intros E; inversion E; subst; exact Ht.
      * destruct (winter_branches 5 size (get_top t) g). cbn [fst].
        intros E; inversion E; subst; exact Ht.
    + destruct (String.eqb style "conifer"); cbn [fst]; intros E; inversion E;
        subst; exact Ht.
  - intros -> Hs. cbn [In] in Hs.
    destruct Hs as [<-|[<-|[<-|[]]]]; (split; [reflexivity|]);
      eexists _, _, _; split; reflexivity.
  - intros -> ->. unfold create_stylized_tree.
    cbn [String.eqb Ascii.eqb Bool.eqb negb].
    set (t := {| trunk_width := (15 # 100) * size |}).
    destruct (winter_branches_spec 5 size (get_top t) g) as (Hl & Hall & Hc).
    destruct (winter_branches 5 size (get_top t) g) as [foliage g']. cbn [fst snd] in *.
    exists t, foliage. auto.
  - intros -> Hs. cbn [In] in Hs. unfold create_stylized_tree.
    cbn [String.eqb Ascii.eqb Bool.eqb].
    destruct (String.eqb_spec season "winter") as [->|Hw]; [tauto|]. cbn [negb].
    assert (Hget : PyDict.get season colors = None).
    { unfold colors. cbn [PyDict.get].
      destruct (String.eqb_spec "spring" season) as [<-|H1]; [tauto|].
      destruct (String.eqb_spec "summer" season) as [<-|H2]; [tauto|].
      destruct (String.eqb_spec "autumn" season) as [<-|H3]; [tauto|].
      destruct (String.eqb_spec "winter" season) as [<-|H4]; [tauto|]. reflexivity. }
    cbv zeta. cbn [combine].
    match goal with
    | |- context [Networks.enumerate [?a; ?b; ?c]] =>
        change (Networks.enumerate [a; b; c]) with [(0%Z, a); (1%Z, b); (2%Z, c)]
    end.
    cbn [canopy]. unfold canopy_circle. now rewrite Hget.
  - intros ->. split; [reflexivity|]. split; [|reflexivity].
    eexists _, _. split; [reflexivity|]. split; [reflexivity|].
    repeat constructor; eexists _, _; reflexivity.
  - intros H1 H2. unfold create_stylized_tree.
    destruct (String.eqb_spec style "deciduous"); [contradiction|].
    destruct (String.eqb_spec style "conifer"); [contradiction|]. eauto.
  - reflexivity.
Qed.
End Tree.
